(** * mpdfav: the MPD protocol client and the play-count tracker

    A shallow embedding of [client.go] and [playcount.go].

    - Go strings are byte strings: [string] (a list of 8-bit [ascii]).
    - Go's [int] is the 64-bit two's complement integer: a [Z] kept in
      range by [int_wrap].
    - [Info], a [map[string]string], is a [gmap string string]; reading a
      missing key yields the empty string ([info_get]).
    - A function that may panic returns an [outcome]; a method of the
      client is a state transformer over the connection ([M]), and keeps
      the Go shape of its results (value and error).
    - [textproto.Conn] is the record [Conn]: the lines the peer has sent
      and that are still unread, the pipeline's id counter, and the
      trace of what the client did on the connection. *)

From Stdlib Require Import ZArith Ascii String DecimalString DecimalZ.
From stdpp Require Import gmap strings list.

Local Open Scope string_scope.
Local Open Scope Z_scope.

(** ** Go strings *)

Module GoString.

(** [strings.HasPrefix] *)
Fixpoint has_prefix (s p : string) {struct p} : bool :=
  match p, s with
  | EmptyString, _ => true
  | String a p', String b s' => Ascii.eqb a b && has_prefix s' p'
  | String _ _, EmptyString => false
  end.

(** [strings.Index(s, sep)] as a position, [None] when [sep] does not
    occur. *)
Fixpoint index_of (s sep : string) : option nat :=
  if has_prefix s sep then Some 0%nat
  else match s with
       | EmptyString => None
       | String _ s' => S <$> index_of s' sep
       end.

(** [strings.Index]: the position of the first occurrence, or -1. *)
Definition Index (s sep : string) : Z :=
  match index_of s sep with
  | Some n => Z.of_nat n
  | None => -1
  end.

Definition len (s : string) : Z := Z.of_nat (String.length s).

Fixpoint take (n : nat) (s : string) : string :=
  match n, s with
  | S n', String c s' => String c (take n' s')
  | _, _ => EmptyString
  end.

Fixpoint drop (n : nat) (s : string) : string :=
  match n, s with
  | S n', String _ s' => drop n' s'
  | _, _ => s
  end.

(** The slice expression [s[lo:hi]]; [None] is the run-time panic
    "slice bounds out of range". *)
Definition slice (s : string) (lo hi : Z) : option string :=
  if (0 <=? lo) && (lo <=? hi) && (hi <=? len s)
  then Some (take (Z.to_nat (hi - lo)) (drop (Z.to_nat lo) s))
  else None.

(** [s[lo:]] *)
Definition slice_from (s : string) (lo : Z) : option string :=
  slice s lo (len s).

Definition contains (s sub : string) : bool :=
  bool_decide (Index s sub ≠ -1).

(** The double quote character, which [fmt.Sprintf] puts around the
    arguments of a command. *)
Definition dquote : string := String (ascii_of_nat 34) EmptyString.

Definition quoted (s : string) : string := dquote ++ s ++ dquote.

Definition newline : ascii := ascii_of_nat 10.

End GoString.

(** ** Go's [int] *)

Module GoInt.

Definition min_int : Z := - 2 ^ 63.
Definition max_int : Z := 2 ^ 63 - 1.

(** Reduction of an integer to the 64-bit two's complement range. *)
Definition int_wrap (z : Z) : Z := (z + 2 ^ 63) mod 2 ^ 64 - 2 ^ 63.

Definition int_add (a b : Z) : Z := int_wrap (a + b).
Definition int_sub (a b : Z) : Z := int_wrap (a - b).

Definition in_range (z : Z) : Prop := min_int <= z <= max_int.

End GoInt.

(** ** Errors, panics *)

(** The error values the client passes around: [errors.New], the
    [*strconv.NumError] of a failed conversion ([range_err] tells
    [ErrRange] from [ErrSyntax]) and a failure of the transport. *)
Inductive error : Type :=
  | errors_New (msg : string)
  | NumError (func num : string) (range_err : bool)
  | io_error (desc : string).

#[global] Instance error_eq_dec : EqDecision error.
Proof. solve_decision. Defined.

(** A computation that returns or panics. *)
Inductive outcome (A : Type) : Type :=
  | Done (a : A)
  | Panic (msg : string).
Arguments Done {A} a.
Arguments Panic {A} msg.

Definition outcome_bind {A B} (m : outcome A) (f : A → outcome B) : outcome B :=
  match m with
  | Done a => f a
  | Panic msg => Panic msg
  end.

(** A slice expression inside a computation. *)
Definition slice_or_panic (o : option string) : outcome string :=
  match o with
  | Some s => Done s
  | None => Panic "slice bounds out of range"
  end.

(** ** Info *)

Definition info_get (i : gmap string string) (k : string) : string :=
  default "" (i !! k).

Definition infoFieldSep : string := ": ".

(** [Info.AddInfo]: the new map and the error. *)
Definition AddInfo (info : gmap string string) (data : string)
  : gmap string string * option error :=
  let fieldSepIndex := GoString.Index data infoFieldSep in
  if fieldSepIndex =? -1 then
    (info, Some (errors_New ("Invalid input: " ++ data)))
  else
    let key := GoString.take (Z.to_nat fieldSepIndex) data in
    (<[key := GoString.drop (Z.to_nat (fieldSepIndex + GoString.len infoFieldSep)) data]> info,
     None).

(** ** Progress and the played-check

    [strconv.ParseFloat] and the conversion [int(f)] of a [float64] belong
    to Go and its run time, not to this repository: they are the
    parameters of this section. The conversion yields an [int], whatever
    the float. *)

Section Progress.

Variable float64 : Type.
Variable ParseFloat : string → float64 * option error.
Variable int_of_float64 : float64 → Z.

Definition to_int (f : float64) : Z := GoInt.int_wrap (int_of_float64 f).

(** [Info.Progress]: elapsed and total time. *)
Definition Progress (i : gmap string string) : outcome (Z * Z) :=
  match i !! "time" with
  | Some t =>
      let fieldSepIndex := GoString.Index t ":" in
      outcome_bind (slice_or_panic (GoString.slice t 0 fieldSepIndex)) (λ s_current,
      let '(current, _) := ParseFloat s_current in
      outcome_bind (slice_or_panic (GoString.slice_from t (fieldSepIndex + 1))) (λ s_total,
      let '(total, err) := ParseFloat s_total in
      match err with
      | Some _ => Done (0, 0)
      | None => Done (to_int current, to_int total)
      end))
  | None => Done (0, 0)
  end.

(** [considerSongPlayed] *)
Definition considerSongPlayed (statusInfo : gmap string string) (limit : Z)
  : outcome bool :=
  outcome_bind (Progress statusInfo) (λ '(current, total),
  if (total =? 0) || (current =? 0) then Done false
  else Done (GoInt.int_sub total current <? limit)).

End Progress.

Definition songPlayedThresholdSeconds : Z := 10.
Definition playcountSticker : string := "playcount".
Definition StickerSongType : string := "song".

(** ** The connection

    What the client does on its [textproto.Conn] is recorded, in order:
    [EvCmd id text] is the call [conn.Cmd(text)] that was given the
    pipeline id [id] and wrote its line ([text] is what the client hands
    to [textproto], which takes it as a format); [EvStartResponse] and
    [EvEndResponse] are the two ends of the response bracket of an id;
    [EvRead] is a line handed over by [ReadLine], [EvReadError] a
    [ReadLine] that failed.

    A task that is alone on the connection starts the response of an id
    after it has ended the response of the id before, so that
    [StartResponse] returns at once. The wait of [StartResponse] for the
    earlier responses is in the model of two tasks, [Shared]. *)

Inductive event : Type :=
  | EvCmd (id : nat) (text : string)
  | EvStartResponse (id : nat)
  | EvEndResponse (id : nat)
  | EvRead (line : string)
  | EvReadError.

#[global] Instance event_eq_dec : EqDecision event.
Proof. solve_decision. Defined.

(** [inbox]: the lines sent by the peer and not read yet; after them the
    stream is at its end. [wfail]: whether the coming writes fail, one
    entry per write (a write past the list succeeds). *)
Record Conn : Type := mkConn {
  inbox : list string;
  nextId : nat;
  wfail : list bool;
  trace : list event
}.

Definition log (c : Conn) (evs : list event) : Conn :=
  mkConn (inbox c) (nextId c) (wfail c) (trace c ++ evs).

(** A computation over a state [S]: it returns or panics, and leaves the
    state changed either way. *)
Definition St (S A : Type) : Type := S → outcome A * S.

Definition ret {S A} (a : A) : St S A := λ s, (Done a, s).

Definition bind {S A B} (m : St S A) (f : A → St S B) : St S B :=
  λ s, match m s with
       | (Done a, s') => f a s'
       | (Panic msg, s') => (Panic msg, s')
       end.

Definition lift {S A} (o : outcome A) : St S A := λ s, (o, s).

(** A method on the connection. *)
Abbreviation M := (St Conn).

Notation "'let!' x ':=' m 'in' k" := (bind m (λ x, k))
  (at level 10, x pattern, m at level 200, k at level 200, only parsing).

(** [textproto.Conn.Cmd]: takes the next id of the pipeline, writes the
    line in its turn and returns the id, or 0 and the error of the
    write. *)
Definition conn_Cmd (text : string) : M (nat * option error) :=
  λ c,
    let id := nextId c in
    match wfail c with
    | true :: w => (Done (0%nat, Some (io_error "write")), mkConn (inbox c) (S id) w (trace c))
    | false :: w => (Done (id, None), mkConn (inbox c) (S id) w (trace c ++ [EvCmd id text]))
    | [] => (Done (id, None), mkConn (inbox c) (S id) [] (trace c ++ [EvCmd id text]))
    end.

Definition conn_StartResponse (id : nat) : M unit :=
  λ c, (Done tt, log c [EvStartResponse id]).

Definition conn_EndResponse (id : nat) : M unit :=
  λ c, (Done tt, log c [EvEndResponse id]).

(** [textproto.Conn.ReadLine] *)
Definition conn_ReadLine : M (string * option error) :=
  λ c,
    match inbox c with
    | line :: rest => (Done (line, None), mkConn rest (nextId c) (wfail c) (trace c ++ [EvRead line]))
    | [] => (Done ("", Some (io_error "EOF")), log c [EvReadError])
    end.

(** ** The command client *)

(** [MPDClient.noIdle] *)
Definition noIdle : M (option error) :=
  let! (id, err) := conn_Cmd "noidle" in
  match err with
  | Some e => ret (Some e)
  | None =>
      let! _ := conn_StartResponse id in
      let! _ := conn_EndResponse id in
      ret None
  end.

(** [MPDClient.Cmd] *)
Definition Cmd (cmd : string) : M (nat * option error) :=
  let! err := noIdle in
  match err with
  | Some e => ret (0%nat, Some e)
  | None =>
      let! (id, err) := conn_Cmd cmd in
      match err with
      | Some e => ret (id, Some e)
      | None => ret (id, None)
      end
  end.

Definition startResponse (id : nat) : M unit := conn_StartResponse id.
Definition endResponse (id : nat) : M unit := conn_EndResponse id.

(** [c.startResponse(id); defer c.endResponse(id)] around the rest of a
    method. *)
Definition bracket {A} (id : nat) (body : M A) : M A :=
  let! _ := startResponse id in
  λ c, let '(r, c') := body c in (r, log c' [EvEndResponse id]).

(** The loop of [fillInfoUntilOK]. Every turn that goes on has read a
    line, so one more turn than there are unread lines is enough: the
    bound is never reached (see [fillInfoUntilOK_EOF],
    [fillInfoUntilOK_OK] and [fillInfoUntilOK_line], which cover every
    connection). *)
Fixpoint fillInfoUntilOK_loop (turns : nat) (info : gmap string string)
  : M (gmap string string * option error) :=
  match turns with
  | O => ret (info, None)
  | S turns' =>
      let! (line, err) := conn_ReadLine in
      match err with
      | Some e => ret (info, Some e)
      | None =>
          if decide (line = "OK") then ret (info, None)
          else
            let '(info', err) := AddInfo info line in
            match err with
            | Some e => ret (info', Some e)
            | None => fillInfoUntilOK_loop turns' info'
            end
      end
  end.

(** [fillInfoUntilOK]: the map as it is left, and the error. *)
Definition fillInfoUntilOK (info : gmap string string)
  : M (gmap string string * option error) :=
  λ c, fillInfoUntilOK_loop (S (length (inbox c))) info c.

(** [CurrentSong] and [Status] differ by the command only. A nil [Info]
    is the empty map. *)
Definition infoCommand (cmd : string) : M (gmap string string * option error) :=
  let! (id, err) := Cmd cmd in
  match err with
  | Some e => ret (∅, Some e)
  | None =>
      bracket id (
        let! (info, err) := fillInfoUntilOK ∅ in
        match err with
        | Some e => ret (∅, Some e)
        | None => ret (info, None)
        end)
  end.

Definition CurrentSong : M (gmap string string * option error) := infoCommand "currentsong".
Definition Status : M (gmap string string * option error) := infoCommand "status".

(** [isMPDError] *)
Definition isMPDError (line : string) : bool := GoString.contains line "ACK".

(** *** The regular expression of the sticker reply

    [stickerGetRegexp] is the literal "sticker: ", the group ".+", an
    equals sign and the group ".*". Go's [regexp] finds the leftmost
    match and is greedy: at the first place where "sticker: " is
    followed, before the end of the line, by at least one character and
    then an equals sign, group 1 runs up to the last equals sign of the
    line and group 2 is the rest of the line. A dot does not match a
    newline. *)
Module Regexp.

(** The longest prefix without a newline: what a run of dots can cover. *)
Fixpoint dot_run (s : string) : string :=
  match s with
  | EmptyString => EmptyString
  | String c s' =>
      if decide (c = GoString.newline) then EmptyString else String c (dot_run s')
  end.

(** The text before and after the last equals sign. *)
Fixpoint split_last_eq (s : string) : option (string * string) :=
  match s with
  | EmptyString => None
  | String c s' =>
      match split_last_eq s' with
      | Some (k, v) => Some (String c k, v)
      | None => if decide (c = "="%char) then Some (EmptyString, s') else None
      end
  end.

(** The groups of a match whose literal prefix ends right here. *)
Definition groups_here (s : string) : option (list string) :=
  let seg := dot_run s in
  match split_last_eq seg with
  | Some (k, v) =>
      if decide (k = EmptyString) then None
      else Some ["sticker: " ++ seg; k; v]
  | None => None
  end.

(** [stickerGetRegexp.FindStringSubmatch]: the whole match and the two
    groups, or nil. *)
Fixpoint FindStringSubmatch (s : string) : option (list string) :=
  match (if GoString.has_prefix s "sticker: "
         then groups_here (GoString.drop 9 s) else None) with
  | Some m => Some m
  | None =>
      match s with
      | EmptyString => None
      | String _ s' => FindStringSubmatch s'
      end
  end.

End Regexp.

Definition stickerGetCommand (stype uri stickerName : string) : string :=
  "sticker get " ++ GoString.quoted stype ++ " " ++ GoString.quoted uri
    ++ " " ++ GoString.quoted stickerName.

Definition stickerSetCommand (stype uri stickerName value : string) : string :=
  "sticker set " ++ GoString.quoted stype ++ " " ++ GoString.quoted uri
    ++ " " ++ GoString.quoted stickerName ++ " " ++ GoString.quoted value.

(** [MPDClient.StickerGet]. The error of the first [ReadLine] is
    dropped, as in the source. *)
Definition StickerGet (stype uri stickerName : string) : M (string * option error) :=
  let! (id, err) := Cmd (stickerGetCommand stype uri stickerName) in
  match err with
  | Some e => ret ("", Some e)
  | None =>
      bracket id (
        let! (line, _) := conn_ReadLine in
        match Regexp.FindStringSubmatch line with
        | None =>
            if negb (isMPDError line) then ret ("", None)
            else if GoString.contains line "no such sticker" then ret ("", None)
            else ret ("", Some (errors_New ("StickerGet: " ++ line)))
        | Some m =>
            let value := nth 2 m "" in
            let! (okLine, err) := conn_ReadLine in
            match err with
            | Some e => ret ("", Some e)
            | None =>
                if decide (okLine ≠ "OK")
                then ret ("", Some (errors_New ("StickerGet didn't receive OK line: " ++ okLine)))
                else ret (value, None)
            end
        end)
  end.

(** [MPDClient.StickerSet] *)
Definition StickerSet (stype uri stickerName value : string) : M (option error) :=
  let! (id, err) := Cmd (stickerSetCommand stype uri stickerName value) in
  match err with
  | Some e => ret (Some e)
  | None =>
      bracket id (
        let! (line, _) := conn_ReadLine in
        if decide (line ≠ "OK") then ret (Some (errors_New ("StickerSet: " ++ line)))
        else ret None)
  end.

(** ** The play counter *)

(** The sign of a number and what follows it. *)
Definition sign_split (s : string) : bool * string :=
  match s with
  | String "-" r => (true, r)
  | String "+" r => (false, r)
  | _ => (false, s)
  end.

(** [strconv.Atoi]: an optional sign and decimal digits, within the
    range of [int]. *)
Definition Atoi (s : string) : Z * option error :=
  let '(neg, digits) := sign_split s in
  match NilZero.uint_of_string digits with
  | None => (0, Some (NumError "Atoi" s false))
  | Some d =>
      let n := Z.of_uint d in
      let v := if neg then - n else n in
      if v <? GoInt.min_int then (GoInt.min_int, Some (NumError "Atoi" s true))
      else if GoInt.max_int <? v then (GoInt.max_int, Some (NumError "Atoi" s true))
      else (v, None)
  end.

(** [strconv.Itoa] *)
Definition Itoa (v : Z) : string := NilZero.string_of_int (Z.to_int v).

(** [incSongPlayCount] *)
Definition incSongPlayCount (songInfo : gmap string string) : M (Z * option error) :=
  let! (value, err) :=
    StickerGet StickerSongType (info_get songInfo "file") playcountSticker in
  match err with
  | Some e => ret (-1, Some e)
  | None =>
      let value := if GoString.len value =? 0 then "0" else value in
      let '(intval, err) := Atoi value in
      match err with
      | Some e => ret (-1, Some e)
      | None =>
          let intval := GoInt.int_add intval 1 in
          let! err :=
            StickerSet StickerSongType (info_get songInfo "file") playcountSticker
              (Itoa intval) in
          ret (intval, err)
      end
  end.

Record songStatusInfo : Type := mkSongStatusInfo {
  StatusInfo : gmap string string;
  SongInfo : gmap string string
}.

Section Tracker.

Variable float64 : Type.
Variable ParseFloat : string → float64 * option error.
Variable int_of_float64 : float64 → Z.

(** [checkSongChange]: the tracker's state as it is left, and the error. *)
Definition checkSongChange (si : songStatusInfo) : M (songStatusInfo * option error) :=
  let! (info, err) := Status in
  match err with
  | Some e => ret (si, Some e)
  | None =>
      let! err :=
        (if decide (info_get info "songid" ≠ info_get (StatusInfo si) "songid") then
           let! played :=
             lift (considerSongPlayed float64 ParseFloat int_of_float64
                     (StatusInfo si) songPlayedThresholdSeconds) in
           if played : bool then
             let! (playcount, err) := incSongPlayCount (SongInfo si) in
             ret err
           else ret None
         else ret None) in
      match err with
      | Some e => ret (si, Some e)
      | None => ret (mkSongStatusInfo info (SongInfo si), None)
      end
  end.

(** [updateSongInfo] *)
Definition updateSongInfo (si : songStatusInfo) : M (songStatusInfo * option error) :=
  let! (songInfo, err) := CurrentSong in
  match err with
  | Some e => ret (si, Some e)
  | None => ret (mkSongStatusInfo (StatusInfo si) songInfo, None)
  end.

(** [processStateUpdate] *)
Definition processStateUpdate (si : songStatusInfo) : M (songStatusInfo * option error) :=
  let! (si, err) := checkSongChange si in
  match err with
  | Some e => ret (si, Some e)
  | None =>
      let! (si, err) := updateSongInfo si in
      match err with
      | Some e => ret (si, Some e)
      | None => ret (si, None)
      end
  end.

End Tracker.

(** ** Idle subscriptions

    A [chan string] is the list of the values that went through it and
    whether it is closed; a send on an open channel is taken by the
    subscriber. The interest of a subscription is the slice of names
    given to [Idle], in order and with its repetitions. *)

Record chan : Type := mkChan {
  delivered : list string;
  closed : bool
}.

Record idleSubscription : Type := mkSub {
  ch : chan;
  active : bool;
  subsystems : list string
}.

Record MPDClient : Type := mkClient {
  Host : string;
  Port : N;
  conn : Conn;
  subscriptions : list idleSubscription
}.

(** [ch <- v] *)
Definition chan_send (v : string) : St chan unit :=
  λ c, if closed c then (Panic "send on closed channel", c)
       else (Done tt, mkChan (delivered c ++ [v]) (closed c)).

(** [close(ch)] *)
Definition chan_close : St chan unit :=
  λ c, if closed c then (Panic "close of closed channel", c)
       else (Done tt, mkChan (delivered c) true).

Definition on_ch {A} (m : St chan A) : St idleSubscription A :=
  λ sub, let '(r, c) := m (ch sub) in (r, mkSub c (active sub) (subsystems sub)).

Definition on_conn {A} (m : M A) : St MPDClient A :=
  λ cl, let '(r, c) := m (conn cl) in (r, mkClient (Host cl) (Port cl) c (subscriptions cl)).

Definition on_subscriptions {A} (m : St (list idleSubscription) A) : St MPDClient A :=
  λ cl, let '(r, l) := m (subscriptions cl) in (r, mkClient (Host cl) (Port cl) (conn cl) l).

(** [idleSubscription.Close] *)
Definition idleSubscription_Close : St idleSubscription unit :=
  let! _ := on_ch chan_close in
  λ sub, (Done tt, mkSub (ch sub) false (subsystems sub)).

(** [subscription.ch <- subsystem; subscription.Close()] *)
Definition send_and_close (subsystem : string) : St idleSubscription unit :=
  let! _ := on_ch (chan_send subsystem) in
  idleSubscription_Close.

(** The loop over the wanted subsystems of one subscription. *)
Fixpoint notify_wanted (wanted : list string) (subsystem : string)
  : St idleSubscription unit :=
  match wanted with
  | [] => ret tt
  | wantedSubsystem :: wanted' =>
      let! _ :=
        (if decide (wantedSubsystem = subsystem) then send_and_close subsystem
         else ret tt) in
      notify_wanted wanted' subsystem
  end.

(** The body of the loop over [c.subscriptions]. *)
Definition notify (subsystem : string) : St idleSubscription unit :=
  λ sub,
    if active sub then
      if (length (subsystems sub) =? 0)%nat then send_and_close subsystem sub
      else notify_wanted (subsystems sub) subsystem sub
    else (Done tt, sub).

(** The loop over [c.subscriptions]; a panic leaves the subscriptions
    after the current one as they were. *)
Fixpoint dispatch (subsystem : string) (subs : list idleSubscription)
  : outcome unit * list idleSubscription :=
  match subs with
  | [] => (Done tt, [])
  | sub :: subs' =>
      match notify subsystem sub with
      | (Done _, sub') =>
          let '(r, subs'') := dispatch subsystem subs' in (r, sub' :: subs'')
      | (Panic msg, sub') => (Panic msg, sub' :: subs')
      end
  end.

(** [MPDClient.Idle]: the new subscription is appended; the channel
    returned is the one of the subscription at the returned position. *)
Definition Idle (subs : list string) : St MPDClient nat :=
  λ cl,
    (Done (length (subscriptions cl)),
     mkClient (Host cl) (Port cl) (conn cl)
       (subscriptions cl ++ [mkSub (mkChan [] false) true subs])).

Definition error_text (e : error) : string :=
  match e with
  | errors_New msg => msg
  | NumError func num true => "strconv." ++ func ++ ": parsing " ++ GoString.quoted num ++ ": value out of range"
  | NumError func num false => "strconv." ++ func ++ ": parsing " ++ GoString.quoted num ++ ": invalid syntax"
  | io_error desc => desc
  end.

(** One turn of the loop of [MPDClient.idle], from the [idle] command to
    the end of the dispatch. *)
Definition idle_round : St MPDClient unit :=
  let! (id, err) := on_conn (conn_Cmd "idle") in
  match err with
  | Some e => lift (Panic (error_text e))
  | None =>
      let! _ := on_conn (conn_StartResponse id) in
      let! (info, err) := on_conn (fillInfoUntilOK ∅) in
      let! _ := on_conn (conn_EndResponse id) in
      match err with
      | Some e => lift (Panic (error_text e))
      | None =>
          match info !! "changed" with
          | Some subsystem => on_subscriptions (dispatch subsystem)
          | None => ret tt
          end
      end
  end.

(** What lets the loop go on after a turn: a value on [quitCh], taken by
    the [select], or the condition variable being signalled. *)
Inductive wake : Type := WakeQuit | WakeSignal.

Inductive idle_exit : Type :=
  | ExitQuit
  | ExitRecovered (msg : string)
  | ExitWaiting.

(** [MPDClient.idle] along the wake-ups it gets; the deferred [recover]
    turns a panic into a return. *)
Fixpoint idle (wakes : list wake) (cl : MPDClient) : idle_exit * MPDClient :=
  match idle_round cl with
  | (Panic msg, cl') => (ExitRecovered msg, cl')
  | (Done _, cl') =>
      match wakes with
      | [] => (ExitWaiting, cl')
      | WakeQuit :: _ => (ExitQuit, cl')
      | WakeSignal :: wakes' => idle wakes' cl'
      end
  end.

(** ** Connect

    [textproto.Dial] is the parameter [dial]: the connection or the
    error. *)

Definition network : string := "tcp".

Definition Connect (dial : string → string → Conn * option error)
    (host : string) (port : N) : outcome (option MPDClient * option error) :=
  let addr := host ++ ":" ++ NilZero.string_of_uint (N.to_uint port) in
  let '(c, err) := dial network addr in
  match err with
  | Some e => Done (None, Some e)
  | None =>
      match conn_ReadLine c with
      | (Panic msg, _) => Panic msg
      | (Done (line, Some e), _) => Done (None, Some e)
      | (Done (line, None), c') =>
          outcome_bind (slice_or_panic (GoString.slice line 0 6)) (λ greeting,
          if decide (greeting ≠ "OK MPD") then Done (None, Some (errors_New "MPD: not OK"))
          else Done (Some (mkClient host port c' []), None))
      end
  end.

(** ** Two tasks on one connection

    The loop of [idle] and a caller of [Cmd] can work on the same
    connection, each in its own goroutine. What orders them is the
    pipeline of [textproto.Conn]: [StartResponse id] returns once the
    response of every earlier id has ended, and [EndResponse id] lets the
    next id in. The state of the two tasks is the connection, the id
    whose response may start ([s_resp]), and where each task stands in
    its code. A step is one call on the connection by one of the tasks;
    [conn.Cmd] is one step, since the pipeline writes the requests in the
    order of their ids. *)

Module Shared.

(** Where the loop of [idle] stands. *)
Inductive worker : Type :=
  | WEnter
  | WIssued (id : nat)
  | WReading (id : nat) (info : gmap string string)
  | WFilled (id : nat) (info : gmap string string) (err : option error)
  | WDispatched
  | WExit.

(** Where the caller stands: in [noIdle], between [noIdle] and the
    command, in the response of its command (with the lines it has read
    there), or back from its method. *)
Inductive caller : Type :=
  | CStart
  | CNoidleIssued (id : nat)
  | CNoidleStarted (id : nat)
  | CNoidleDone
  | CIssued (id : nat)
  | CReading (id : nat) (seen : list string)
  | CDone (seen : list string)
  | CFailed (e : error).

Record sys : Type := mkSys {
  s_conn : Conn;
  s_resp : nat;
  s_worker : worker;
  s_caller : caller
}.

(** One turn of the loop of [fillInfoUntilOK] in the worker, after its
    [ReadLine]. *)
Definition reading_turn (id : nat) (info : gmap string string)
    (line : string) (err : option error) : worker :=
  match err with
  | Some e => WFilled id info (Some e)
  | None =>
      if decide (line = "OK") then WFilled id info None
      else
        let '(info', err) := AddInfo info line in
        match err with
        | Some e => WFilled id info' (Some e)
        | None => WReading id info'
        end
  end.

Inductive step (text : string) : sys → sys → Prop :=
  (* idle: id, err := c.conn.Cmd("idle") *)
  | w_cmd c r cl id c' :
      conn_Cmd "idle" c = (Done (id, None), c') →
      step text (mkSys c r WEnter cl) (mkSys c' r (WIssued id) cl)
  | w_cmd_fail c r cl id e c' :
      conn_Cmd "idle" c = (Done (id, Some e), c') →
      step text (mkSys c r WEnter cl) (mkSys c' r WExit cl)
  (* idle: c.conn.StartResponse(id) *)
  | w_start c cl id :
      step text (mkSys c id (WIssued id) cl)
        (mkSys (log c [EvStartResponse id]) id (WReading id ∅) cl)
  (* idle: one ReadLine of fillInfoUntilOK *)
  | w_read c r cl id info line err c' :
      conn_ReadLine c = (Done (line, err), c') →
      step text (mkSys c r (WReading id info) cl)
        (mkSys c' r (reading_turn id info line err) cl)
  (* idle: c.conn.EndResponse(id), then the panic or the dispatch *)
  | w_end c r cl id info err :
      step text (mkSys c r (WFilled id info err) cl)
        (mkSys (log c [EvEndResponse id]) (S id)
           (match err with Some _ => WExit | None => WDispatched end) cl)
  (* idle: the select finds the quit signal, or the wait is over *)
  | w_quit c r cl :
      step text (mkSys c r WDispatched cl) (mkSys c r WExit cl)
  | w_wake c r cl :
      step text (mkSys c r WDispatched cl) (mkSys c r WEnter cl)
  (* noIdle: id, err := c.conn.Cmd("noidle") *)
  | c_noidle c r w id c' :
      conn_Cmd "noidle" c = (Done (id, None), c') →
      step text (mkSys c r w CStart) (mkSys c' r w (CNoidleIssued id))
  | c_noidle_fail c r w id e c' :
      conn_Cmd "noidle" c = (Done (id, Some e), c') →
      step text (mkSys c r w CStart) (mkSys c' r w (CFailed e))
  (* noIdle: c.conn.StartResponse(id) *)
  | c_noidle_start c w id :
      step text (mkSys c id w (CNoidleIssued id))
        (mkSys (log c [EvStartResponse id]) id w (CNoidleStarted id))
  (* noIdle: the deferred c.conn.EndResponse(id) *)
  | c_noidle_end c r w id :
      step text (mkSys c r w (CNoidleStarted id))
        (mkSys (log c [EvEndResponse id]) (S id) w CNoidleDone)
  (* Cmd: id, err := c.conn.Cmd(cmd) *)
  | c_cmd c r w id c' :
      conn_Cmd text c = (Done (id, None), c') →
      step text (mkSys c r w CNoidleDone) (mkSys c' r w (CIssued id))
  | c_cmd_fail c r w id e c' :
      conn_Cmd text c = (Done (id, Some e), c') →
      step text (mkSys c r w CNoidleDone) (mkSys c' r w (CFailed e))
  (* the method: c.startResponse(id) *)
  | c_start c w id :
      step text (mkSys c id w (CIssued id))
        (mkSys (log c [EvStartResponse id]) id w (CReading id []))
  (* the method: a ReadLine that yields a line *)
  | c_read c r w id seen line c' :
      conn_ReadLine c = (Done (line, None), c') →
      step text (mkSys c r w (CReading id seen))
        (mkSys c' r w (CReading id (seen ++ [line])))
  (* the method: the deferred c.endResponse(id) *)
  | c_end c r w id seen :
      step text (mkSys c r w (CReading id seen))
        (mkSys (log c [EvEndResponse id]) (S id) w (CDone seen)).

(** The reply to the wait command: lines that [AddInfo] takes, then
    the line that ends a reply. *)
Definition info_line (line : string) : Prop :=
  line ≠ "OK" ∧ GoString.Index line infoFieldSep ≠ -1.

Definition idle_reply (body : list string) : list string := (body ++ ["OK"])%list.

(** WAITING: the worker has sent [idle] as command [k] and has not
    ended its response; no earlier response is open; the reply to the
    wait, when it comes, is followed by [rest]. *)
Definition waiting (k : nat) (body rest : list string) (s : sys) : Prop :=
  (s_worker s = WIssued k ∨ s_worker s = WReading k ∅) ∧
  s_resp s = k ∧
  (k < nextId (s_conn s))%nat ∧
  inbox (s_conn s) = (idle_reply body ++ rest)%list ∧
  Forall info_line body ∧
  s_caller s = CStart.

(** The lines the caller has read in the response of its command. *)
Definition observed (s : sys) : list string :=
  match s_caller s with
  | CReading _ seen | CDone seen => seen
  | _ => []
  end.

(** The caller's command is on the wire. *)
Definition command_written (s : sys) : Prop :=
  match s_caller s with
  | CIssued _ | CReading _ _ | CDone _ => True
  | _ => False
  end.

(** *** The invariant of a wait that was on when the caller came

    [k] is the id of the wait, [rest] what follows its reply. *)

(** The id a task holds, if any. *)
Definition worker_id (w : worker) : option nat :=
  match w with
  | WIssued id | WReading id _ | WFilled id _ _ => Some id
  | _ => None
  end.

Definition caller_id (cl : caller) : option nat :=
  match cl with
  | CNoidleIssued id | CNoidleStarted id | CIssued id | CReading id _ => Some id
  | _ => None
  end.

(** While the response of the wait is open, its reply is being read by
    the worker and by no one else. *)
Definition wait_unread (k : nat) (rest : list string) (s : sys) : Prop :=
  (∃ b, Forall info_line b ∧ inbox (s_conn s) = (idle_reply b ++ rest)%list ∧
        (s_worker s = WIssued k ∨ ∃ info, s_worker s = WReading k info)) ∨
  (inbox (s_conn s) = rest ∧ ∃ info, s_worker s = WFilled k info None).

Definition worker_inv (s : sys) : Prop :=
  match s_worker s with
  | WIssued id => (id < nextId (s_conn s))%nat
  | WReading id _ | WFilled id _ _ => s_resp s = id ∧ (id < nextId (s_conn s))%nat
  | _ => True
  end.

Definition caller_inv (k : nat) (rest : list string) (s : sys) : Prop :=
  match s_caller s with
  | CStart | CFailed _ => True
  | CNoidleIssued id => (k < id < nextId (s_conn s))%nat
  | CNoidleStarted id => s_resp s = id ∧ (k < id < nextId (s_conn s))%nat
  | CNoidleDone => (k < s_resp s)%nat
  | CIssued id => (k < s_resp s)%nat ∧ (k < id < nextId (s_conn s))%nat
  | CReading id seen =>
      s_resp s = id ∧ (k < id < nextId (s_conn s))%nat ∧
      ∃ pre, rest = (pre ++ seen ++ inbox (s_conn s))%list
  | CDone seen =>
      (k < s_resp s)%nat ∧ ∃ pre post, rest = (pre ++ seen ++ post)%list
  end.

Definition inv (k : nat) (rest : list string) (s : sys) : Prop :=
  (k ≤ s_resp s)%nat ∧
  (k < nextId (s_conn s))%nat ∧
  (s_resp s = k → wait_unread k rest s) ∧
  ((k < s_resp s)%nat → ∃ pre, rest = (pre ++ inbox (s_conn s))%list) ∧
  worker_inv s ∧
  caller_inv k rest s ∧
  (∀ a b, worker_id (s_worker s) = Some a → caller_id (s_caller s) = Some b → a ≠ b).

End Shared.

(** ** A clock for examples

    The daemon prints the two times of its status as whole seconds.
    [Seconds.ParseFloat] reads such a count (decimal digits, nothing
    else) and stands for [strconv.ParseFloat] where the definitions are
    run on a concrete status; the float is kept as the integer it
    equals. *)

Module Seconds.

Definition ParseFloat (s : string) : Z * option error :=
  match NilZero.uint_of_string s with
  | Some d => (Z.of_uint d, None)
  | None => (0, Some (NumError "ParseFloat" s false))
  end.

Definition int_of_float64 (f : Z) : Z := f.

End Seconds.

(** ** Replies, as the protocol writes them *)

(** The reply line of a key and its value. *)
Definition reply_line (kv : string * string) : string :=
  kv.1 ++ infoFieldSep ++ kv.2.

(** A key is what stands before the first separator of its line: it
    holds no separator itself. *)
Definition reply_key (k : string) : Prop :=
  GoString.index_of k infoFieldSep = None.

(** What the loop of [fillInfoUntilOK] makes of the pairs of a reply. *)
Definition add_pairs (info : gmap string string) (kvs : list (string * string))
  : gmap string string :=
  foldl (λ m kv, <[kv.1 := kv.2]> m) info kvs.

(** The reply line of a sticker. *)
Definition sticker_line (name value : string) : string :=
  "sticker: " ++ name ++ "=" ++ value.


(** No character of [s] is [c]. *)
Fixpoint no_char (c : ascii) (s : string) : bool :=
  match s with
  | EmptyString => true
  | String a s' => negb (Ascii.eqb a c) && no_char c s'
  end.

(** The texts of the commands sent, in order. *)
Fixpoint commands (evs : list event) : list string :=
  match evs with
  | [] => []
  | EvCmd _ text :: evs' => text :: commands evs'
  | _ :: evs' => commands evs'
  end.

(** ** Dispatch, as the specification has it *)

(** A subscription is interested in a name when its interest is empty or
    holds the name. *)
Definition interested (subsystem : string) (sub : idleSubscription) : bool :=
  bool_decide (subsystems sub = [] ∨ subsystem ∈ subsystems sub).

(** The subscription after its one delivery: the name went through the
    channel, the channel is closed, the subscription is inactive. *)
Definition fulfilled (subsystem : string) (sub : idleSubscription) : idleSubscription :=
  mkSub (mkChan (delivered (ch sub) ++ [subsystem]) true) false (subsystems sub).

(** One round of dispatch on one subscription. *)
Definition one_shot (subsystem : string) (sub : idleSubscription) : idleSubscription :=
  if active sub && interested subsystem sub then fulfilled subsystem sub else sub.

(** An active subscription has an open channel: so [Idle] makes them and
    [Close] keeps them. *)
Definition sub_ok (sub : idleSubscription) : Prop :=
  active sub = true → closed (ch sub) = false.

(** ** States and results named in the properties *)

(** The connection after [Cmd text], when no write fails. *)
Definition after_Cmd (text : string) (c : Conn) : Conn :=
  mkConn (inbox c) (S (S (nextId c))) []
    (trace c ++ [EvCmd (nextId c) "noidle"; EvStartResponse (nextId c);
                 EvEndResponse (nextId c); EvCmd (S (nextId c)) text]).

(** The connection once [StickerGet] has sent its command and opened the
    response. *)
Definition in_response (cmd : string) (c : Conn) : Conn :=
  log (after_Cmd cmd c) [EvStartResponse (S (nextId c))].


(** ** Channels of the daemon: subscribe, send, read *)

Record ChannelMessage : Type := mkChannelMessage {
  Channel : string;
  Message : string
}.

Definition subscribeCommand (channel : string) : string :=
  "subscribe " ++ GoString.quoted channel.

Definition unsubscribeCommand (channel : string) : string :=
  "unsubscribe " ++ GoString.quoted channel.

Definition sendMessageCommand (channel text : string) : string :=
  "sendmessage " ++ GoString.quoted channel ++ " " ++ GoString.quoted text.

(** [MPDClient.Subscribe]. The error of [ReadLine] is dropped, as in the
    source. *)
Definition Subscribe (channel : string) : M (option error) :=
  let! (id, err) := Cmd (subscribeCommand channel) in
  match err with
  | Some e => ret (Some e)
  | None =>
      bracket id (
        let! (line, _) := conn_ReadLine in
        if decide (line ≠ "OK") then ret (Some (errors_New ("Subscribe: " ++ line)))
        else ret None)
  end.

(** [MPDClient.Unsubscribe] *)
Definition Unsubscribe (channel : string) : M (option error) :=
  let! (id, err) := Cmd (unsubscribeCommand channel) in
  match err with
  | Some e => ret (Some e)
  | None =>
      bracket id (
        let! (line, _) := conn_ReadLine in
        if decide (line ≠ "OK") then ret (Some (errors_New ("Unsubscribe: " ++ line)))
        else ret None)
  end.

(** [MPDClient.SendMessage] *)
Definition SendMessage (channel text : string) : M (option error) :=
  let! (id, err) := Cmd (sendMessageCommand channel text) in
  match err with
  | Some e => ret (Some e)
  | None =>
      bracket id (
        let! (line, _) := conn_ReadLine in
        if decide (line ≠ "OK") then ret (Some (errors_New ("SendMessage: " ++ line)))
        else ret None)
  end.

(** *** The regular expression of a channel message

    [channelMessageRegexp] is the literal "channel: ", a group of one or
    more dots, a newline, the literal "message: " and a second group of
    one or more dots. A dot does not match a newline, so the first
    group, which a newline must follow, is the whole run of characters
    up to the next newline, and the second group, being greedy, is the
    whole run after "message: ". The match is the leftmost one. *)
Module MessageRegexp.

Definition message_prefix : string := String GoString.newline "message: ".

(** The groups of a match whose literal "channel: " ends right here. *)
Definition groups_here (s : string) : option (list string) :=
  let name := Regexp.dot_run s in
  if decide (name = EmptyString) then None
  else
    let after := GoString.drop (String.length name) s in
    if GoString.has_prefix after message_prefix then
      let body := Regexp.dot_run (GoString.drop (String.length message_prefix) after) in
      if decide (body = EmptyString) then None
      else Some ["channel: " ++ name ++ message_prefix ++ body; name; body]
    else None.

(** [channelMessageRegexp.FindStringSubmatch] *)
Fixpoint FindStringSubmatch (s : string) : option (list string) :=
  match (if GoString.has_prefix s "channel: "
         then groups_here (GoString.drop 9 s) else None) with
  | Some m => Some m
  | None =>
      match s with
      | EmptyString => None
      | String _ s' => FindStringSubmatch s'
      end
  end.

End MessageRegexp.

(** The loop of [ReadMessages]. A turn that goes on has read two lines;
    one more turn than there are unread lines is never used up (see
    [ReadMessages_loop_fuel]). A nil slice is the empty list. The error
    of the second [ReadLine] of a turn is dropped, as in the source. *)
Fixpoint ReadMessages_loop (turns : nat) (msgs : list ChannelMessage)
  : M (list ChannelMessage * option error) :=
  match turns with
  | O => ret (msgs, None)
  | S turns' =>
      let! (channelOrOkline, err) := conn_ReadLine in
      match err with
      | Some e => ret (msgs, Some e)
      | None =>
          if decide (channelOrOkline = "OK") then ret (msgs, None)
          else
            let! (messageLine, _) := conn_ReadLine in
            match MessageRegexp.FindStringSubmatch
                    (channelOrOkline ++ String GoString.newline messageLine) with
            | None =>
                ret ([], Some (errors_New
                  ("ReadMessages: bad channel/message response: "
                     ++ channelOrOkline ++ "," ++ messageLine)))
            | Some m =>
                ReadMessages_loop turns'
                  (msgs ++ [mkChannelMessage (nth 1 m "") (nth 2 m "")])%list
            end
      end
  end.

(** [MPDClient.ReadMessages] *)
Definition ReadMessages : M (list ChannelMessage * option error) :=
  let! (id, err) := Cmd "readmessages" in
  match err with
  | Some e => ret ([], Some e)
  | None => bracket id (λ c, ReadMessages_loop (S (length (inbox c))) [] c)
  end.

(** ** The main loop of the tracker

    [RecordPlayCounts] listens on two channels: [pollCh], the ticker,
    and [idleCh], fed by a goroutine that waits on a second connection
    for changes of the player. What the loop of [RecordPlayCounts] does
    is given here along the values it takes from the two channels; the
    second connection and the goroutine that feeds [idleCh] are not part
    of this model. *)

Inductive tick : Type := FromPollCh | FromIdleCh.

(** The variables of the loop: [si] and [ignorePoll]. *)
Record tracker : Type := mkTracker {
  si : songStatusInfo;
  ignorePoll : bool
}.

(** [if err != nil { panic(err) }] *)
Definition panic_on {A} (r : A * option error) : M A :=
  match r.2 with
  | Some e => lift (Panic (error_text e))
  | None => ret r.1
  end.

Section RecordPlayCounts.

Variable float64 : Type.
Variable ParseFloat : string → float64 * option error.
Variable int_of_float64 : float64 → Z.

(** One turn of the [select] of [RecordPlayCounts]. *)
Definition RecordPlayCounts_turn (t : tick) (tr : tracker) : M tracker :=
  match t with
  | FromPollCh =>
      if negb (ignorePoll tr) then
        let! r := processStateUpdate float64 ParseFloat int_of_float64 (si tr) in
        let! si' := panic_on r in
        ret (mkTracker si' (ignorePoll tr))
      else ret tr
  | FromIdleCh =>
      let! r := processStateUpdate float64 ParseFloat int_of_float64 (si tr) in
      let! si' := panic_on r in
      ret (mkTracker si' (bool_decide (info_get (StatusInfo si') "state" ≠ "play")))
  end.

Fixpoint RecordPlayCounts_loop (ticks : list tick) (tr : tracker) : M tracker :=
  match ticks with
  | [] => ret tr
  | t :: ticks' =>
      let! tr' := RecordPlayCounts_turn t tr in
      RecordPlayCounts_loop ticks' tr'
  end.

(** [RecordPlayCounts], from its first [Status] on, along the values
    the loop takes from its channels. *)
Definition RecordPlayCounts (ticks : list tick) : M tracker :=
  let! r := Status in
  let! statusInfo := panic_on r in
  let! r := CurrentSong in
  let! songInfo := panic_on r in
  RecordPlayCounts_loop ticks
    (mkTracker (mkSongStatusInfo statusInfo songInfo)
       (bool_decide (info_get statusInfo "state" ≠ "play"))).

End RecordPlayCounts.

(** ** The pipeline along a trace

    The response side of [textproto.Pipeline] lets the response of an id
    start once the responses of all earlier ids have ended. [in_turn]
    runs the events of a trace against it: [turn] is the id whose
    response may start; [None] is a [StartResponse] that waits for an
    id other than its own, or an [EndResponse] out of order. *)
Fixpoint in_turn (turn : nat) (evs : list event) : option nat :=
  match evs with
  | [] => Some turn
  | EvStartResponse id :: evs' =>
      if decide (id = turn) then in_turn turn evs' else None
  | EvEndResponse id :: evs' =>
      if decide (id = turn) then in_turn (S turn) evs' else None
  | _ :: evs' => in_turn turn evs'
  end.

(** The shape the methods of the client share: the command, then the
    body inside the response bracket. *)
Definition method {A} (cmd : string) (failed : error → A) (body : M A) : M A :=
  let! (id, err) := Cmd cmd in
  match err with
  | Some e => ret (failed e)
  | None => bracket id body
  end.

Definition is_read (ev : event) : Prop :=
  match ev with
  | EvRead _ | EvReadError => True
  | _ => False
  end.

(** A body that only reads: it takes lines from the front of the inbox,
    and does nothing else on the connection. *)
Definition reads_only {A} (body : M A) : Prop :=
  ∀ c r c', body c = (r, c') →
    (∃ a, r = Done a) ∧ nextId c' = nextId c ∧ wfail c' = wfail c ∧
    (∃ taken, inbox c = taken ++ inbox c')%list ∧
    (∃ evs, trace c' = trace c ++ evs ∧ Forall is_read evs)%list.

(** A computation that keeps the pipeline in turn: when no write fails,
    the events it adds take the pipeline from the next id before to the
    next id after, and no write is left to fail. *)
Definition keeps_turn {A} (m : M A) : Prop :=
  ∀ c r c', wfail c = [] → m c = (r, c') →
    wfail c' = [] ∧
    (∃ evs, trace c' = trace c ++ evs ∧
            in_turn (nextId c) evs = Some (nextId c'))%list.

(** What a method that expects the single line OK makes of the unread
    lines: no error when the first is OK, else the line after the name
    of the method; at the end of the stream the line is empty. *)
Definition OK_verdict (name : string) (lines : list string) : option error :=
  let line := default "" (head lines) in
  if decide (line ≠ "OK") then Some (errors_New (name ++ ": " ++ line)) else None.

(** What a channel message looks like on the wire. *)
Definition message_lines (m : ChannelMessage) : list string :=
  ["channel: " ++ Channel m; "message: " ++ Message m].

Definition plain (s : string) : Prop :=
  s ≠ EmptyString ∧ no_char GoString.newline s = true.

(** ** Subscriptions over the rounds of [idle] *)

(** What one or more rounds can do to a subscription: nothing, or its
    one delivery, of a name it is interested in, made while it was
    active. *)
Definition delivered_once (sub sub' : idleSubscription) : Prop :=
  sub' = sub ∨
  ∃ name, active sub = true ∧ closed (ch sub) = false ∧
          interested name sub = true ∧ sub' = fulfilled name sub.

(** The subscription [Idle] registers. *)
Definition fresh (subs : list string) : idleSubscription :=
  mkSub (mkChan [] false) true subs.

(** ** The two tasks: who is inside a response *)

Definition worker_in_response (w : Shared.worker) : Prop :=
  match w with
  | Shared.WReading _ _ | Shared.WFilled _ _ _ => True
  | _ => False
  end.

Definition caller_in_response (cl : Shared.caller) : Prop :=
  match cl with
  | Shared.CNoidleStarted _ | Shared.CReading _ _ => True
  | _ => False
  end.

(** * Properties *)

Local Open Scope list_scope.

(** ** Strings *)

Section StringFacts.

Implicit Types s t k v : string.

Lemma append_cons c s t : String c s +:+ t = String c (s +:+ t).
Proof. done. Qed.

Lemma append_nil t : EmptyString +:+ t = t.
Proof. done. Qed.

Lemma take_app_length k t : GoString.take (String.length k) (k +:+ t) = k.
Proof. induction k as [|c k IH]; simpl; [by destruct t | by rewrite IH]. Qed.

Lemma drop_app_length k t : GoString.drop (String.length k) (k +:+ t) = t.
Proof. induction k as [|c k IH]; simpl; [by destruct t | done]. Qed.

Lemma take_all s : GoString.take (String.length s) s = s.
Proof. induction s as [|c s IH]; simpl; [done | by rewrite IH]. Qed.

Lemma drop_0 s : GoString.drop 0 s = s.
Proof. by destruct s. Qed.

Lemma length_drop n s : String.length (GoString.drop n s) = (String.length s - n)%nat.
Proof.
  revert s; induction n as [|n IH]; intros [|c s]; simpl; done.
Qed.

Lemma index_of_cons c s sep :
  GoString.index_of (String c s) sep =
    if GoString.has_prefix (String c s) sep then Some 0%nat
    else S <$> GoString.index_of s sep.
Proof. done. Qed.

Lemma index_of_lt s sep n :
  sep ≠ EmptyString → GoString.index_of s sep = Some n → (n < String.length s)%nat.
Proof.
  intros Hsep. revert n; induction s as [|c s IH]; intros n.
  - destruct sep; [done | discriminate].
  - rewrite index_of_cons.
    destruct (GoString.has_prefix (String c s) sep); [intros [= <-]; simpl; lia |].
    destruct (GoString.index_of s sep) as [m|]; [|done].
    intros [= <-]. specialize (IH m eq_refl). simpl. lia.
Qed.

Lemma Index_found s sep n :
  GoString.index_of s sep = Some n → GoString.Index s sep = Z.of_nat n.
Proof. unfold GoString.Index. by intros ->. Qed.

Lemma Index_missing s sep :
  GoString.index_of s sep = None ↔ GoString.Index s sep = -1.
Proof.
  unfold GoString.Index. destruct (GoString.index_of s sep); split; (done || lia).
Qed.

Lemma slice_prefix s n :
  (n ≤ String.length s)%nat →
  GoString.slice s 0 (Z.of_nat n) = Some (GoString.take n s).
Proof.
  intros Hn. unfold GoString.slice, GoString.len.
  rewrite !andb_true_intro; [| repeat split; lia].
  by rewrite Z.sub_0_r, Nat2Z.id, drop_0.
Qed.

Lemma slice_suffix s n :
  (n ≤ String.length s)%nat →
  GoString.slice_from s (Z.of_nat n) = Some (GoString.drop n s).
Proof.
  intros Hn. unfold GoString.slice_from, GoString.slice, GoString.len.
  rewrite !andb_true_intro; [| repeat split; lia].
  rewrite Nat2Z.id. f_equal.
  replace (Z.to_nat (Z.of_nat (String.length s) - Z.of_nat n))
    with (String.length (GoString.drop n s)) by (rewrite length_drop; lia).
  apply take_all.
Qed.

Lemma slice_negative s hi : hi < 0 → GoString.slice s 0 hi = None.
Proof.
  intros Hhi. unfold GoString.slice.
  replace (0 <=? hi) with false by lia. done.
Qed.

End StringFacts.

(** ** Progress and the played-check *)


Lemma int_wrap_range z : GoInt.in_range (GoInt.int_wrap z).
Proof.
  unfold GoInt.in_range, GoInt.min_int, GoInt.max_int, GoInt.int_wrap.
  pose proof (Z.mod_pos_bound (z + 2 ^ 63) (2 ^ 64)). lia.
Qed.


Lemma no_colon_index (t : string) :
  GoString.index_of t ":" = None ↔ ¬ In ":"%char (list_ascii_of_string t).
Proof.
  induction t as [|c t IH]; [by split; auto|].
  rewrite index_of_cons. cbn [GoString.has_prefix list_ascii_of_string In].
  rewrite andb_true_r.
  destruct (Ascii.eqb_spec ":" c) as [<-|Hc].
  - split; [done | intros H; destruct H; by left].
  - destruct (GoString.index_of t ":") as [m|]; simpl.
    + split; [done|]. intros H. exfalso.
      assert (¬ In ":"%char (list_ascii_of_string t)) as H' by (intros ?; apply H; by right).
      by apply IH in H'.
    + split; [|done]. intros _ [?|?]; [congruence|]. by apply IH.
Qed.

Section ProgressFacts.

Context (float64 : Type) (ParseFloat : string → float64 * option error)
        (int_of_float64 : float64 → Z).

Local Abbreviation Progress' := (Progress float64 ParseFloat int_of_float64).
Local Abbreviation considerSongPlayed' :=
  (considerSongPlayed float64 ParseFloat int_of_float64).
Local Abbreviation to_int' := (to_int float64 int_of_float64).

Lemma Progress_no_time (i : gmap string string) :
  i !! "time" = None → Progress' i = Done (0, 0).
Proof. unfold Progress. by intros ->. Qed.

Lemma Progress_no_colon (i : gmap string string) t :
  i !! "time" = Some t → GoString.index_of t ":" = None →
  Progress' i = Panic "slice bounds out of range".
Proof.
  intros Ht Hidx. unfold Progress. rewrite Ht.
  apply Index_missing in Hidx. rewrite Hidx.
  by rewrite slice_negative.
Qed.

Lemma Progress_colon (i : gmap string string) t n :
  i !! "time" = Some t → GoString.index_of t ":" = Some n →
  Progress' i =
    match (ParseFloat (GoString.drop (S n) t)).2 with
    | Some _ => Done (0, 0)
    | None => Done (to_int' (ParseFloat (GoString.take n t)).1,
                    to_int' (ParseFloat (GoString.drop (S n) t)).1)
    end.
Proof.
  intros Ht Hidx. unfold Progress. rewrite Ht.
  assert (n < String.length t)%nat as Hn by (apply (index_of_lt t ":" n); done).
  rewrite (Index_found _ _ _ Hidx).
  rewrite slice_prefix by lia. cbn [outcome_bind slice_or_panic].
  replace (Z.of_nat n + 1) with (Z.of_nat (S n)) by lia.
  rewrite slice_suffix by lia. cbn [outcome_bind slice_or_panic].
  destruct (ParseFloat (GoString.take n t)) as [cur e1].
  by destruct (ParseFloat (GoString.drop (S n) t)) as [tot [e2|]].
Qed.

(** C9. [Progress] on the three shapes of a status: without a
    ["time"] entry it returns (0, 0); with a ["time"] value that
    holds no colon, [strings.Index] yields -1, the slice up to -1 is
    out of bounds and the call panics; with a colon, only the error of
    converting the total is looked at: when the elapsed part does not
    convert and the total does, the result still is the pair of the two
    converted values. *)
Theorem Progress_shapes (i : gmap string string) :
  (i !! "time" = None → Progress' i = Done (0, 0)) ∧
  (∀ t, i !! "time" = Some t → ¬ In ":"%char (list_ascii_of_string t) →
     GoString.Index t ":" = -1 ∧
     GoString.slice t 0 (GoString.Index t ":") = None ∧
     Progress' i = Panic "slice bounds out of range") ∧
  (∀ t n e, i !! "time" = Some t → GoString.index_of t ":" = Some n →
     (ParseFloat (GoString.take n t)).2 = Some e →
     (ParseFloat (GoString.drop (S n) t)).2 = None →
     Progress' i = Done (to_int' (ParseFloat (GoString.take n t)).1,
                         to_int' (ParseFloat (GoString.drop (S n) t)).1)) ∧
  (∀ t n e, i !! "time" = Some t → GoString.index_of t ":" = Some n →
     (ParseFloat (GoString.drop (S n) t)).2 = Some e →
     Progress' i = Done (0, 0)).
Proof.
  split; [apply Progress_no_time|].
  split; [|split].
  - intros t Ht Hc. apply no_colon_index in Hc.
    pose proof Hc as Hm. apply Index_missing in Hm.
    split; [done|]. split; [rewrite Hm; by apply slice_negative|].
    by eapply Progress_no_colon.
  - intros t n e Ht Hidx _ Htot.
    by rewrite (Progress_colon _ _ _ Ht Hidx), Htot.
  - intros t n e Ht Hidx Htot.
    by rewrite (Progress_colon _ _ _ Ht Hidx), Htot.
Qed.



End ProgressFacts.


Lemma Progress_shapes_witness :
  Progress Z Seconds.ParseFloat Seconds.int_of_float64 {["time" := "120"]}
    = Panic "slice bounds out of range" ∧
  Progress Z Seconds.ParseFloat Seconds.int_of_float64 {["time" := "x:120"]}
    = Done (0, 120).
Proof.
  split.
  - destruct (Progress_shapes Z Seconds.ParseFloat Seconds.int_of_float64
                {["time" := "120"]}) as (_ & H & _).
    apply (H "120"); [vm_compute; reflexivity|].
    simpl. intros [H1|[H1|[H1|[]]]]; discriminate H1.
  - destruct (Progress_shapes Z Seconds.ParseFloat Seconds.int_of_float64
                {["time" := "x:120"]}) as (_ & _ & H & _).
    apply (H "x:120" 1%nat (NumError "ParseFloat" "x" false));
      vm_compute; reflexivity.
Defined.

(** ** Parsing a reply into an Info *)

Lemma has_prefix_sep_cons c k t :
  GoString.has_prefix (String c k) infoFieldSep = false →
  GoString.has_prefix (String c (k +:+ infoFieldSep +:+ t)) infoFieldSep = false.
Proof.
  unfold infoFieldSep. cbn [GoString.has_prefix].
  destruct (Ascii.eqb ":" c); [|done]. cbn [andb].
  destruct k as [|b k]; [done|]. by rewrite append_cons.
Qed.

Lemma index_of_key k v :
  reply_key k → GoString.index_of (k +:+ infoFieldSep +:+ v) infoFieldSep = Some (String.length k).
Proof.
  unfold reply_key. induction k as [|c k IH]; [done|].
  rewrite index_of_cons.
  destruct (GoString.has_prefix (String c k) infoFieldSep) eqn:Hp; [done|].
  destruct (GoString.index_of k infoFieldSep) eqn:Hk; [done|]. intros _.
  rewrite append_cons, index_of_cons, (has_prefix_sep_cons _ _ _ Hp).
  by rewrite IH.
Qed.

Lemma drop_add n m s : GoString.drop (n + m) s = GoString.drop m (GoString.drop n s).
Proof.
  revert s; induction n as [|n IH]; intros s; [by rewrite drop_0|].
  destruct s; simpl; [by destruct m | done].
Qed.

Lemma AddInfo_reply_line info k v :
  reply_key k → AddInfo info (reply_line (k, v)) = (<[k := v]> info, None).
Proof.
  intros Hk. unfold AddInfo, reply_line. cbn [fst snd].
  rewrite (Index_found _ _ _ (index_of_key k v Hk)).
  rewrite (proj2 (Z.eqb_neq _ _)) by lia.
  rewrite Nat2Z.id, take_app_length.
  replace (Z.to_nat (Z.of_nat (String.length k) + GoString.len infoFieldSep))
    with (String.length k + 2)%nat by (unfold GoString.len, infoFieldSep; simpl; lia).
  by rewrite drop_add, drop_app_length.
Qed.

Lemma AddInfo_no_separator info line :
  GoString.Index line infoFieldSep = -1 →
  AddInfo info line = (info, Some (errors_New ("Invalid input: " +:+ line))).
Proof. unfold AddInfo. by intros ->. Qed.

Lemma reply_line_not_OK kv : reply_key kv.1 → reply_line kv ≠ "OK".
Proof.
  destruct kv as [k v]. intros Hk Heq.
  pose proof (index_of_key k v Hk) as H. unfold reply_line in Heq. cbn [fst snd] in *.
  rewrite Heq in H. discriminate H.
Qed.

(** The three ways a turn of the loop of [fillInfoUntilOK] can go. *)
Lemma fillInfoUntilOK_OK info c rest :
  inbox c = "OK" :: rest →
  fillInfoUntilOK info c =
    (Done (info, None), mkConn rest (nextId c) (wfail c) (trace c ++ [EvRead "OK"])).
Proof.
  intros Hc. unfold fillInfoUntilOK. rewrite Hc.
  cbn [length fillInfoUntilOK_loop]. unfold bind, conn_ReadLine. by rewrite Hc.
Qed.

Lemma fillInfoUntilOK_line info c line rest :
  inbox c = line :: rest → line ≠ "OK" →
  fillInfoUntilOK info c =
    let c' := mkConn rest (nextId c) (wfail c) (trace c ++ [EvRead line]) in
    match AddInfo info line with
    | (info', Some e) => (Done (info', Some e), c')
    | (info', None) => fillInfoUntilOK info' c'
    end.
Proof.
  intros Hc Hline. unfold fillInfoUntilOK. rewrite Hc.
  cbn [length fillInfoUntilOK_loop]. unfold bind at 1. unfold conn_ReadLine at 1.
  rewrite Hc. rewrite decide_False by done.
  by destruct (AddInfo info line) as [info' [e|]].
Qed.

Lemma fillInfoUntilOK_EOF info c :
  inbox c = [] →
  fillInfoUntilOK info c = (Done (info, Some (io_error "EOF")), log c [EvReadError]).
Proof.
  intros Hc. unfold fillInfoUntilOK. rewrite Hc.
  cbn [length fillInfoUntilOK_loop]. unfold bind, conn_ReadLine. by rewrite Hc.
Qed.

Lemma fillInfoUntilOK_pairs kvs : ∀ info c tail,
  Forall (λ kv, reply_key kv.1) kvs →
  inbox c = (reply_line <$> kvs) ++ tail →
  fillInfoUntilOK info c =
    fillInfoUntilOK (add_pairs info kvs)
      (mkConn tail (nextId c) (wfail c) (trace c ++ (EvRead <$> (reply_line <$> kvs)))).
Proof.
  induction kvs as [|[k v] kvs IH]; intros info c tail Hk Hc.
  - destruct c as [i n w t]. simpl in *. subst. by rewrite app_nil_r.
  - inversion_clear Hk as [|?? Hk1 Hk2]. cbn [fst] in Hk1.
    rewrite (fillInfoUntilOK_line info c (reply_line (k, v)) ((reply_line <$> kvs) ++ tail));
      [| done | by apply (reply_line_not_OK (k, v))].
    cbn zeta. rewrite AddInfo_reply_line by done.
    rewrite (IH _ _ tail) by done. cbn [inbox nextId wfail trace].
    by rewrite <- app_assoc.
Qed.

Lemma add_pairs_lookup kvs : ∀ (info : gmap string string) k v,
  NoDup (kvs.*1) →
  add_pairs info kvs !! k = Some v ↔
    (k, v) ∈ kvs ∨ (k ∉ (kvs.*1) ∧ info !! k = Some v).
Proof.
  induction kvs as [|[k0 v0] kvs IH]; intros info k v Hnd.
  - simpl. split; [intros ?; right; split; [set_solver | done] | intros [?|[_ ?]]; [set_solver | done]].
  - apply NoDup_cons in Hnd as [Hk0 Hnd].
    change (add_pairs info ((k0, v0) :: kvs)) with (add_pairs (<[k0 := v0]> info) kvs).
    rewrite IH by done. rewrite fmap_cons. cbn [fst].
    destruct (decide (k = k0)) as [->|Hne].
    + rewrite lookup_insert_eq. split.
      * intros [Hin|[_ [= ->]]]; [|left; set_solver].
        exfalso. apply Hk0. apply list_elem_of_fmap. by exists (k0, v).
      * intros [Hin|[Hn _]]; [|set_solver].
        apply elem_of_cons in Hin as [[= ->]|Hin]; [by right|].
        exfalso. apply Hk0. apply list_elem_of_fmap. by exists (k0, v).
    + rewrite lookup_insert_ne by done. split.
      * intros [Hin|[Hn Hl]]; [left; set_solver | right; split; [set_solver | done]].
      * intros [Hin|[Hn Hl]]; [left | right; split; [set_solver | done]].
        apply elem_of_cons in Hin as [[= -> ->]|Hin]; done.
Qed.

(** *** Commands whose writes go through *)

Lemma conn_Cmd_ok text c :
  wfail c = [] →
  conn_Cmd text c =
    (Done (nextId c, None),
     mkConn (inbox c) (S (nextId c)) [] (trace c ++ [EvCmd (nextId c) text])).
Proof. unfold conn_Cmd. by intros ->. Qed.

Lemma Cmd_ok text c :
  wfail c = [] → Cmd text c = (Done (S (nextId c), None), after_Cmd text c).
Proof.
  intros Hw. unfold Cmd, noIdle, bind at 1 2.
  rewrite (conn_Cmd_ok _ _ Hw). unfold bind, conn_StartResponse, conn_EndResponse, ret, log.
  cbn [inbox nextId wfail trace]. unfold conn_Cmd. cbn [inbox nextId wfail trace].
  unfold after_Cmd. by rewrite <- !app_assoc.
Qed.

Lemma infoCommand_ok cmd c :
  wfail c = [] →
  infoCommand cmd c =
    let id := S (nextId c) in
    match fillInfoUntilOK ∅ (log (after_Cmd cmd c) [EvStartResponse id]) with
    | (Done (info, None), c') => (Done (info, None), log c' [EvEndResponse id])
    | (Done (_, Some e), c') => (Done (∅, Some e), log c' [EvEndResponse id])
    | (Panic msg, c') => (Panic msg, log c' [EvEndResponse id])
    end.
Proof.
  intros Hw. unfold infoCommand, bind at 1. rewrite (Cmd_ok _ _ Hw).
  unfold bracket, bind at 1, startResponse, conn_StartResponse. cbn zeta.
  unfold bind.
  destruct (fillInfoUntilOK ∅ (log (after_Cmd cmd c) [EvStartResponse (S (nextId c))]))
    as [[[info [e|]]|msg] c']; done.
Qed.

(** C7. A reply made of the lines of pairs with distinct keys, each key
    free of the separator, and closed by the line OK, is parsed into the
    map that binds exactly these pairs: a value is what follows the
    first separator of its line, colons included. The lines up to OK
    are consumed, [Status] returns that map. With a line that holds no
    separator (and is not OK) the parse stops there with the error
    "Invalid input" on that line, and [Status] returns that error. *)
Theorem fillInfoUntilOK_valid_reply :
  (∀ (kvs : list (string * string)) rest c,
     Forall (λ kv, reply_key kv.1) kvs → NoDup (kvs.*1) →
     inbox c = (reply_line <$> kvs) ++ "OK" :: rest →
     ∃ info : gmap string string,
       fillInfoUntilOK ∅ c =
         (Done (info, None),
          mkConn rest (nextId c) (wfail c)
            (trace c ++ (EvRead <$> (reply_line <$> kvs) ++ ["OK"]))) ∧
       (∀ k v, info !! k = Some v ↔ (k, v) ∈ kvs) ∧
       (wfail c = [] → (Status c).1 = Done (info, None))) ∧
  (∀ (kvs : list (string * string)) bad rest c,
     Forall (λ kv, reply_key kv.1) kvs →
     bad ≠ "OK" → GoString.Index bad infoFieldSep = -1 →
     inbox c = (reply_line <$> kvs) ++ bad :: rest →
     (fillInfoUntilOK ∅ c).1 =
       Done (add_pairs ∅ kvs, Some (errors_New ("Invalid input: " +:+ bad))) ∧
     (wfail c = [] →
      (Status c).1 = Done (∅, Some (errors_New ("Invalid input: " +:+ bad))))).
Proof.
  split.
  - intros kvs rest c Hk Hnd Hc. exists (add_pairs ∅ kvs).
    assert (∀ c, inbox c = (reply_line <$> kvs) ++ "OK" :: rest →
      fillInfoUntilOK ∅ c =
        (Done (add_pairs ∅ kvs, None),
         mkConn rest (nextId c) (wfail c)
           (trace c ++ (EvRead <$> (reply_line <$> kvs) ++ ["OK"])))) as Hrun.
    { intros c0 Hc0. rewrite (fillInfoUntilOK_pairs kvs ∅ c0 ("OK" :: rest)) by done.
      rewrite (fillInfoUntilOK_OK _ _ rest) by done. cbn [inbox nextId wfail trace].
      by rewrite fmap_app, app_assoc. }
    split; [by apply Hrun|]. split.
    + intros k v. rewrite add_pairs_lookup by done. rewrite lookup_empty.
      split; [intros [?|[_ ?]]; done | by left].
    + intros Hw. unfold Status. rewrite (infoCommand_ok _ _ Hw). cbn zeta.
      by rewrite Hrun.
  - intros kvs bad rest c Hk Hbad Hsep Hc.
    assert (∀ c, inbox c = (reply_line <$> kvs) ++ bad :: rest →
      (fillInfoUntilOK ∅ c).1 =
        Done (add_pairs ∅ kvs, Some (errors_New ("Invalid input: " +:+ bad)))) as Hrun.
    { intros c0 Hc0. rewrite (fillInfoUntilOK_pairs kvs ∅ c0 (bad :: rest)) by done.
      rewrite (fillInfoUntilOK_line _ _ bad rest) by done.
      cbn zeta. by rewrite AddInfo_no_separator. }
    split; [by apply Hrun|].
    intros Hw. unfold Status. rewrite (infoCommand_ok _ _ Hw). cbn zeta.
    specialize (Hrun (log (after_Cmd "status" c) [EvStartResponse (S (nextId c))]) Hc).
    destruct (fillInfoUntilOK ∅ _) as [[[info [e|]]|msg] c']; simpl in Hrun; by simplify_eq.
Qed.

Lemma fillInfoUntilOK_valid_reply_witness :
  ∃ info : gmap string string,
    (Status (mkConn ["volume: 40"; "file: a: b.mp3"; "OK"; "next"] 0 [] [])).1
      = Done (info, None) ∧
    info !! "file" = Some "a: b.mp3".
Proof.
  destruct fillInfoUntilOK_valid_reply as [H _].
  destruct (H [("volume", "40"); ("file", "a: b.mp3")] ["next"]
              (mkConn ["volume: 40"; "file: a: b.mp3"; "OK"; "next"] 0 [] []))
    as (info & _ & Hlook & Hstatus).
  - repeat constructor; vm_compute; reflexivity.
  - repeat constructor; vm_compute; set_solver.
  - reflexivity.
  - exists info. split; [by apply Hstatus|]. apply Hlook. set_solver.
Defined.

(** ** StickerGet *)

Ltac run_conn :=
  unfold bind, ret, lift, conn_ReadLine, conn_StartResponse, conn_EndResponse,
    startResponse, endResponse, in_response, after_Cmd, log;
  cbn beta iota zeta delta [inbox nextId wfail trace fst snd].

Lemma StickerGet_first_line stype uri stickerName c line rest :
  wfail c = [] → inbox c = line :: rest →
  StickerGet stype uri stickerName c =
    let cmd := stickerGetCommand stype uri stickerName in
    let id := S (nextId c) in
    let c1 := mkConn rest (S id) [] (trace (in_response cmd c) ++ [EvRead line]) in
    match Regexp.FindStringSubmatch line with
    | None =>
        (Done (if negb (isMPDError line) then ("", None)
               else if GoString.contains line "no such sticker" then ("", None)
               else ("", Some (errors_New ("StickerGet: " +:+ line)))),
         log c1 [EvEndResponse id])
    | Some m =>
        match rest with
        | okLine :: rest' =>
            (Done (if decide (okLine ≠ "OK")
                   then ("", Some (errors_New ("StickerGet didn't receive OK line: " +:+ okLine)))
                   else (nth 2 m "", None)),
             mkConn rest' (S id) [] (trace c1 ++ [EvRead okLine; EvEndResponse id]))
        | [] =>
            (Done ("", Some (io_error "EOF")),
             log c1 [EvReadError; EvEndResponse id])
        end
    end.
Proof.
  intros Hw Hc. unfold StickerGet, bind at 1. rewrite (Cmd_ok _ _ Hw).
  unfold bracket. run_conn. rewrite Hc. run_conn.
  destruct (Regexp.FindStringSubmatch line) as [m|].
  - destruct rest as [|okLine rest']; run_conn.
    + by rewrite <- !app_assoc.
    + destruct (decide (okLine ≠ "OK")); run_conn; by rewrite <- !app_assoc.
  - destruct (isMPDError line); cbn [negb]; [|done].
    by destruct (GoString.contains line "no such sticker").
Qed.




(** C10. On a first reply line that neither matches the pattern nor
    holds ACK, [StickerGet] returns the empty string and no error after
    that one [ReadLine]: the lines after it, the closing OK of the reply
    among them, stay unread on the connection. *)
Theorem StickerGet_unrecognised_line stype uri stickerName c line rest :
  wfail c = [] → inbox c = line :: rest →
  Regexp.FindStringSubmatch line = None → isMPDError line = false →
  StickerGet stype uri stickerName c =
    (Done ("", None),
     mkConn rest (S (S (nextId c))) []
       (trace c ++
        [EvCmd (nextId c) "noidle"; EvStartResponse (nextId c); EvEndResponse (nextId c);
         EvCmd (S (nextId c)) (stickerGetCommand stype uri stickerName);
         EvStartResponse (S (nextId c)); EvRead line; EvEndResponse (S (nextId c))])).
Proof.
  intros Hw Hc Hm He. rewrite (StickerGet_first_line _ _ _ _ _ _ Hw Hc). cbn zeta.
  rewrite Hm, He. cbn [negb]. run_conn. by rewrite <- !app_assoc.
Qed.

Lemma StickerGet_unrecognised_line_witness :
  (StickerGet "song" "a.mp3" "playcount" (mkConn ["volume: 40"; "OK"] 0 [] [])).1
    = Done ("", None) ∧
  inbox (StickerGet "song" "a.mp3" "playcount" (mkConn ["volume: 40"; "OK"] 0 [] [])).2
    = ["OK"].
Proof.
  rewrite (StickerGet_unrecognised_line "song" "a.mp3" "playcount"
             (mkConn ["volume: 40"; "OK"] 0 [] []) "volume: 40" ["OK"]);
    [split; reflexivity | reflexivity | reflexivity
    | vm_compute; reflexivity | vm_compute; reflexivity].
Defined.

(** ** The sticker pattern on a sticker line *)

Lemma no_char_app c a b : no_char c (a +:+ b) = no_char c a && no_char c b.
Proof.
  induction a as [|x a IH]; [done|].
  rewrite append_cons. cbn [no_char]. by rewrite IH, andb_assoc.
Qed.

Lemma dot_run_plain s : no_char GoString.newline s = true → Regexp.dot_run s = s.
Proof.
  induction s as [|a s IH]; [done|]. cbn [no_char Regexp.dot_run].
  intros [Ha Hs]%andb_true_iff.
  rewrite decide_False; [by rewrite IH|].
  intros ->. by rewrite Ascii.eqb_refl in Ha.
Qed.

Lemma split_last_eq_none v : no_char "=" v = true → Regexp.split_last_eq v = None.
Proof.
  induction v as [|a v IH]; [done|]. cbn [no_char Regexp.split_last_eq].
  intros [Ha Hv]%andb_true_iff. rewrite IH by done.
  rewrite decide_False; [done|]. intros ->. by rewrite Ascii.eqb_refl in Ha.
Qed.

Lemma split_last_eq_app k v :
  no_char "=" v = true → Regexp.split_last_eq (k +:+ "=" +:+ v) = Some (k, v).
Proof.
  intros Hv. induction k as [|a k IH].
  - rewrite append_nil. change ("=" +:+ v) with (String "=" v).
    cbn [Regexp.split_last_eq]. by rewrite split_last_eq_none.
  - rewrite append_cons. cbn [Regexp.split_last_eq]. by rewrite IH.
Qed.

Lemma FindStringSubmatch_unfold s :
  Regexp.FindStringSubmatch s =
    match (if GoString.has_prefix s "sticker: "
           then Regexp.groups_here (GoString.drop 9 s) else None) with
    | Some m => Some m
    | None =>
        match s with
        | EmptyString => None
        | String _ s' => Regexp.FindStringSubmatch s'
        end
    end.
Proof. by destruct s. Qed.

(** On the reply line of a sticker whose value holds no equals sign, the
    groups are the name and the value. *)
Lemma FindStringSubmatch_sticker_line k v :
  k ≠ EmptyString →
  no_char GoString.newline k = true → no_char GoString.newline v = true →
  no_char "=" v = true →
  Regexp.FindStringSubmatch (sticker_line k v) = Some [sticker_line k v; k; v].
Proof.
  intros Hk Hnk Hnv Hv. rewrite FindStringSubmatch_unfold. unfold sticker_line.
  change (GoString.has_prefix ("sticker: " +:+ k +:+ "=" +:+ v) "sticker: ") with true.
  change (GoString.drop 9 ("sticker: " +:+ k +:+ "=" +:+ v)) with (k +:+ "=" +:+ v).
  unfold Regexp.groups_here. rewrite dot_run_plain.
  - rewrite split_last_eq_app by done. by rewrite decide_False.
  - rewrite !no_char_app, Hnk, Hnv. done.
Qed.

(** ** Atoi and Itoa *)

Lemma no_char_string_of_uint c d :
  no_char c "0123456789" = true → no_char c (NilEmpty.string_of_uint d) = true.
Proof.
  intros Hc. cbn [no_char] in Hc.
  repeat (apply andb_true_iff in Hc as [? Hc]).
  induction d; cbn [NilEmpty.string_of_uint no_char]; [done | ..];
    apply andb_true_iff; by split.
Qed.

Lemma no_char_Itoa c V :
  no_char c "-0123456789" = true → no_char c (Itoa V) = true.
Proof.
  intros Hc. change "-0123456789" with (String "-" "0123456789") in Hc.
  cbn [no_char] in Hc. apply andb_true_iff in Hc as [Hm Hc].
  unfold Itoa, NilZero.string_of_int, NilZero.string_of_uint.
  destruct (Z.to_int V) as [d|d].
  - destruct d; try (by apply no_char_string_of_uint).
    by apply (no_char_string_of_uint c (Decimal.D0 Decimal.Nil)).
  - cbn [no_char]. rewrite Hm. cbn [andb].
    destruct d; try (by apply no_char_string_of_uint).
    by apply (no_char_string_of_uint c (Decimal.D0 Decimal.Nil)).
Qed.






(** ** The increment of the play counter *)

Lemma commands_app a b : commands (a ++ b) = commands a ++ commands b.
Proof.
  induction a as [|[] a IH]; cbn [app commands]; by rewrite ?IH.
Qed.

Lemma StickerSet_first_line stype uri stickerName value c :
  wfail c = [] →
  StickerSet stype uri stickerName value c =
    let cmd := stickerSetCommand stype uri stickerName value in
    let id := S (nextId c) in
    match inbox c with
    | line :: rest =>
        (Done (if decide (line ≠ "OK") then Some (errors_New ("StickerSet: " +:+ line))
               else None),
         mkConn rest (S id) [] (trace (in_response cmd c) ++ [EvRead line; EvEndResponse id]))
    | [] =>
        (Done (Some (errors_New ("StickerSet: " +:+ ""))),
         log (in_response cmd c) [EvReadError; EvEndResponse id])
    end.
Proof.
  intros Hw. unfold StickerSet, bind at 1. rewrite (Cmd_ok _ _ Hw).
  unfold bracket. run_conn. destruct (inbox c) as [|line rest]; run_conn.
  - rewrite decide_True by done. run_conn. by rewrite <- !app_assoc.
  - destruct (decide (line ≠ "OK")); run_conn; by rewrite <- !app_assoc.
Qed.



Lemma incSongPlayCount_after_get songInfo c v c1 :
  StickerGet StickerSongType (info_get songInfo "file") playcountSticker c
    = (Done (v, None), c1) →
  incSongPlayCount songInfo c =
    match Atoi (if decide (v = "") then "0" else v) with
    | (_, Some e) => (Done (-1, Some e), c1)
    | (V, None) =>
        match StickerSet StickerSongType (info_get songInfo "file") playcountSticker
                (Itoa (GoInt.int_add V 1)) c1 with
        | (Done err, c2) => (Done (GoInt.int_add V 1, err), c2)
        | (Panic msg, c2) => (Panic msg, c2)
        end
    end.
Proof.
  intros Hget. unfold incSongPlayCount, bind at 1. rewrite Hget.
  replace (if GoString.len v =? 0 then "0" else v)
    with (if decide (v = "") then "0" else v)
    by (by destruct v).
  destruct (Atoi _) as [V [e|]]; [done|]. unfold bind, ret.
  by destruct (StickerSet _ _ _ _ c1) as [[err|msg] c2].
Qed.


Lemma append_assoc a b c : (a +:+ b) +:+ c = a +:+ (b +:+ c).
Proof.
  induction a as [|x a IH]; [by rewrite !append_nil|].
  by rewrite !append_cons, IH.
Qed.

Lemma length_append a b :
  String.length (a +:+ b) = (String.length a + String.length b)%nat.
Proof.
  induction a as [|x a IH]; [by rewrite append_nil|].
  rewrite append_cons. cbn [String.length]. by rewrite IH.
Qed.

(** *** The value read from the reply line of a sticker *)










(** ** What a method leaves on the connection *)

Lemma fillInfoUntilOK_frame : ∀ (l : list string) info c r c',
  inbox c = l → fillInfoUntilOK info c = (r, c') →
  (∃ v, r = Done v) ∧ wfail c' = wfail c ∧ nextId c' = nextId c ∧
  commands (trace c') = commands (trace c).
Proof.
  induction l as [|line rest IH]; intros info c r c' Hc Hrun.
  - rewrite (fillInfoUntilOK_EOF _ _ Hc) in Hrun. simplify_eq.
    split; [by eexists|]. run_conn. rewrite commands_app. cbn [commands].
    by rewrite app_nil_r.
  - destruct (decide (line = "OK")) as [->|Hline].
    + rewrite (fillInfoUntilOK_OK _ _ _ Hc) in Hrun. simplify_eq.
      split; [by eexists|]. run_conn. rewrite commands_app. cbn [commands].
      by rewrite app_nil_r.
    + rewrite (fillInfoUntilOK_line _ _ _ _ Hc Hline) in Hrun. cbn zeta in Hrun.
      destruct (AddInfo info line) as [info' [e|]].
      * simplify_eq. split; [by eexists|]. run_conn. rewrite commands_app.
        cbn [commands]. by rewrite app_nil_r.
      * apply IH in Hrun as (Hv & Hw & Hn & Hcmd); [|done].
        split; [done|]. revert Hw Hn Hcmd. run_conn. intros -> -> ->.
        rewrite commands_app. cbn [commands]. by rewrite app_nil_r.
Qed.

Lemma infoCommand_frame cmd c r c' :
  wfail c = [] → infoCommand cmd c = (r, c') →
  (∃ v, r = Done v) ∧ wfail c' = [] ∧
  commands (trace c') = commands (trace c) ++ ["noidle"; cmd].
Proof.
  intros Hw Hrun. rewrite (infoCommand_ok _ _ Hw) in Hrun. cbn zeta in Hrun.
  destruct (fillInfoUntilOK ∅ _) as [r1 c1] eqn:Hfill.
  apply (fillInfoUntilOK_frame _ _ _ _ _ eq_refl) in Hfill as ([v ->] & Hw1 & _ & Hcmd1).
  revert Hw1 Hcmd1. run_conn. intros Hw1 Hcmd1.
  assert (commands (trace (log c1 [EvEndResponse (S (nextId c))]))
          = commands (trace c) ++ ["noidle"; cmd]) as Hcmd.
  { run_conn. rewrite commands_app, Hcmd1, !commands_app. cbn [commands].
    by rewrite !app_nil_r. }
  destruct v as [info [e|]]; simplify_eq; (split; [by eexists|]); by split.
Qed.

Lemma StickerGet_frame stype uri stickerName c r c' :
  wfail c = [] → StickerGet stype uri stickerName c = (r, c') →
  (∃ v, r = Done v) ∧ wfail c' = [] ∧
  commands (trace c') =
    commands (trace c) ++ ["noidle"; stickerGetCommand stype uri stickerName].
Proof.
  intros Hw. unfold StickerGet, bind at 1. rewrite (Cmd_ok _ _ Hw).
  unfold bracket. run_conn.
  destruct (inbox c) as [|line rest]; run_conn;
    (destruct (Regexp.FindStringSubmatch _) as [m|];
     [ destruct rest as [|okLine rest'] || idtac; run_conn;
       try destruct (decide (_ ≠ "OK")); run_conn
     | destruct (negb (isMPDError _));
       [| destruct (GoString.contains _ "no such sticker")] ]);
    intros [= <- <-]; (split; [by eexists|]); run_conn; (split; [done|]);
    rewrite !commands_app; cbn [commands]; by rewrite ?app_nil_r.
Qed.

Lemma StickerSet_frame stype uri stickerName value c r c' :
  wfail c = [] → StickerSet stype uri stickerName value c = (r, c') →
  (∃ v, r = Done v) ∧ wfail c' = [] ∧
  commands (trace c') =
    commands (trace c) ++ ["noidle"; stickerSetCommand stype uri stickerName value].
Proof.
  intros Hw. rewrite (StickerSet_first_line _ _ _ _ _ Hw). cbn zeta.
  destruct (inbox c) as [|line rest]; intros [= <- <-]; (split; [by eexists|]);
    run_conn; (split; [done|]); rewrite !commands_app; cbn [commands];
    by rewrite ?app_nil_r.
Qed.

(** The sticker commands of one increment: the read, and the write when
    the value read is a number. *)
Lemma incSongPlayCount_frame songInfo c r c' :
  wfail c = [] → incSongPlayCount songInfo c = (r, c') →
  (∃ v, r = Done v) ∧ wfail c' = [] ∧
  ∃ writes,
    commands (trace c') =
      commands (trace c) ++
      ["noidle"; stickerGetCommand StickerSongType (info_get songInfo "file") playcountSticker]
      ++ writes ∧
    (writes = [] ∨
     ∃ value, writes =
       ["noidle"; stickerSetCommand StickerSongType (info_get songInfo "file")
                    playcountSticker value]).
Proof.
  intros Hw Hrun. unfold incSongPlayCount, bind at 1 in Hrun.
  destruct (StickerGet _ _ _ c) as [r1 c1] eqn:Hget.
  apply (StickerGet_frame _ _ _ _ _ _ Hw) in Hget as ([[v err] ->] & Hw1 & Hcmd1).
  destruct err as [e|].
  { unfold ret in Hrun. simplify_eq. split; [by eexists|]. split; [done|].
    exists []. rewrite app_nil_r. by split; [|left]. }
  destruct (Atoi _) as [V [e|]].
  { unfold ret in Hrun. simplify_eq. split; [by eexists|]. split; [done|].
    exists []. rewrite app_nil_r. by split; [|left]. }
  unfold bind, ret in Hrun.
  destruct (StickerSet _ _ _ _ c1) as [r2 c2] eqn:Hset.
  apply (StickerSet_frame _ _ _ _ _ _ _ Hw1) in Hset as ([err ->] & Hw2 & Hcmd2).
  simplify_eq. split; [by eexists|]. split; [done|].
  eexists. split; [by rewrite Hcmd2, Hcmd1, <- app_assoc|]. right. by eexists.
Qed.

(** ** The update step of the tracker *)

Section TrackerFacts.

Context (float64 : Type) (ParseFloat : string → float64 * option error)
        (int_of_float64 : float64 → Z).

Local Abbreviation played :=
  (λ prev, considerSongPlayed float64 ParseFloat int_of_float64 prev
             songPlayedThresholdSeconds).
Local Abbreviation checkSongChange' :=
  (checkSongChange float64 ParseFloat int_of_float64).
Local Abbreviation updateSongInfo' := updateSongInfo.
Local Abbreviation processStateUpdate' :=
  (processStateUpdate float64 ParseFloat int_of_float64).

Lemma checkSongChange_run si c info c1 :
  Status c = (Done (info, None), c1) →
  checkSongChange' si c =
    if decide (info_get info "songid" ≠ info_get (StatusInfo si) "songid") then
      match played (StatusInfo si) with
      | Panic msg => (Panic msg, c1)
      | Done false => (Done (mkSongStatusInfo info (SongInfo si), None), c1)
      | Done true =>
          match incSongPlayCount (SongInfo si) c1 with
          | (Done (_, Some e), c2) => (Done (si, Some e), c2)
          | (Done (_, None), c2) => (Done (mkSongStatusInfo info (SongInfo si), None), c2)
          | (Panic msg, c2) => (Panic msg, c2)
          end
      end
    else (Done (mkSongStatusInfo info (SongInfo si), None), c1).
Proof.
  intros HS. unfold checkSongChange, bind at 1. rewrite HS.
  destruct (decide _) as [Hd|Hd]; [|done].
  unfold bind at 1 2, lift.
  destruct (considerSongPlayed _ _ _ _ _) as [[|]|msg]; [|done..].
  unfold bind, ret.
  by destruct (incSongPlayCount (SongInfo si) c1) as [[[count [e|]]|msg] c2].
Qed.

Lemma checkSongChange_Status_error si c info e c1 :
  Status c = (Done (info, Some e), c1) →
  checkSongChange' si c = (Done (si, Some e), c1).
Proof. intros HS. unfold checkSongChange, bind at 1. by rewrite HS. Qed.

Lemma updateSongInfo_run si c :
  updateSongInfo' si c =
    match CurrentSong c with
    | (Done (songInfo, None), c') =>
        (Done (mkSongStatusInfo (StatusInfo si) songInfo, None), c')
    | (Done (_, Some e), c') => (Done (si, Some e), c')
    | (Panic msg, c') => (Panic msg, c')
    end.
Proof.
  unfold updateSongInfo, bind.
  by destruct (CurrentSong c) as [[[songInfo [e|]]|msg] c'].
Qed.

Lemma processStateUpdate_run si c :
  processStateUpdate' si c =
    match checkSongChange' si c with
    | (Done (si1, None), c1) => updateSongInfo' si1 c1
    | (Done (si1, Some e), c1) => (Done (si1, Some e), c1)
    | (Panic msg, c1) => (Panic msg, c1)
    end.
Proof.
  unfold processStateUpdate, bind at 1.
  destruct (checkSongChange' si c) as [[[si1 [e|]]|msg] c1]; [done| |done].
  unfold bind. by destruct (updateSongInfo' si1 c1) as [[[si2 [e|]]|msg] c2].
Qed.

(** The step on a status that shows the song id already recorded. *)
Lemma processStateUpdate_same_id si c info c1 :
  wfail c = [] → Status c = (Done (info, None), c1) →
  info_get info "songid" = info_get (StatusInfo si) "songid" →
  ∃ r c', processStateUpdate' si c = (r, c') ∧
          commands (trace c') =
            commands (trace c) ++ ["noidle"; "status"; "noidle"; "currentsong"].
Proof.
  intros Hw HS Hid. rewrite processStateUpdate_run, (checkSongChange_run _ _ _ _ HS).
  rewrite decide_False by (by intros []).
  destruct (infoCommand_frame _ _ _ _ Hw HS) as (_ & Hw1 & Hcmd1).
  destruct (updateSongInfo' _ c1) as [r c'] eqn:Hup. exists r, c'. split; [done|].
  rewrite updateSongInfo_run in Hup.
  destruct (CurrentSong c1) as [r2 c2] eqn:HC.
  destruct (infoCommand_frame _ _ _ _ Hw1 HC) as ([[songInfo err] ->] & _ & Hcmd2).
  assert (c' = c2) as -> by (destruct err; by simplify_eq).
  by rewrite Hcmd2, Hcmd1, <- app_assoc.
Qed.

Lemma processStateUpdate_frame si c r c' :
  wfail c = [] → processStateUpdate' si c = (r, c') → wfail c' = [].
Proof.
  intros Hw. rewrite processStateUpdate_run.
  destruct (Status c) as [rs c1] eqn:HS.
  destruct (infoCommand_frame _ _ _ _ Hw HS) as ([[info err] ->] & Hw1 & _).
  assert (∀ r1 c2, checkSongChange' si c = (r1, c2) → wfail c2 = []) as Hcheck.
  { intros r1 c2. destruct err as [e|].
    - rewrite (checkSongChange_Status_error _ _ _ _ _ HS). by intros [= _ <-].
    - rewrite (checkSongChange_run _ _ _ _ HS).
      destruct (decide _); [|by intros [= _ <-]].
      destruct (played (StatusInfo si)) as [[|]|msg]; try (by intros [= _ <-]).
      destruct (incSongPlayCount (SongInfo si) c1) as [ri ci] eqn:Hinc.
      destruct (incSongPlayCount_frame _ _ _ _ Hw1 Hinc) as ([[count e] ->] & Hwi & _).
      destruct e; by intros [= _ <-]. }
  destruct (checkSongChange' si c) as [[[si1 [e|]]|msg] c2] eqn:Hc;
    try (intros [= _ <-]; by eapply Hcheck).
  rewrite updateSongInfo_run.
  destruct (CurrentSong c2) as [r2 c3] eqn:HC.
  destruct (infoCommand_frame _ _ _ _ (Hcheck _ _ eq_refl) HC) as ([[songInfo e] ->] & Hw3 & _).
  destruct e; by intros [= _ <-].
Qed.

(** C6. One run of the update step, on a connection whose writes go
    through, once the fresh status is there. With the song id of the
    status recorded before, the step sends nothing but the status and
    the current-song commands: no sticker is read or written. With
    another song id, the played-check is made on the status recorded
    before: if it answers true, the sticker commands that follow bear
    the file of the current song recorded before, and the current-song
    command comes after them; if it answers false there is no sticker
    command; if it panics the step stops there. The state returned
    holds the fresh status, and as current song the reply to a
    current-song command sent after the check has ended. A second run
    that finds the same song id as the first sends no sticker command. *)
Theorem processStateUpdate_song_change si c info c1 :
  wfail c = [] → Status c = (Done (info, None), c1) →
  let file := info_get (SongInfo si) "file" in
  let get := stickerGetCommand StickerSongType file playcountSticker in
  (info_get info "songid" = info_get (StatusInfo si) "songid" →
     ∃ r c', processStateUpdate' si c = (r, c') ∧
             commands (trace c') =
               commands (trace c) ++ ["noidle"; "status"; "noidle"; "currentsong"]) ∧
  (info_get info "songid" ≠ info_get (StatusInfo si) "songid" →
     ∀ r c', processStateUpdate' si c = (r, c') →
       match played (StatusInfo si) with
       | Done true =>
           ∃ writes refresh,
             commands (trace c') =
               commands (trace c) ++ ["noidle"; "status"; "noidle"; get]
                 ++ writes ++ refresh ∧
             (writes = [] ∨
              ∃ value, writes =
                ["noidle"; stickerSetCommand StickerSongType file playcountSticker value]) ∧
             (refresh = [] ∨ refresh = ["noidle"; "currentsong"])
       | Done false =>
           commands (trace c') =
             commands (trace c) ++ ["noidle"; "status"; "noidle"; "currentsong"]
       | Panic msg =>
           r = Panic msg ∧ commands (trace c') = commands (trace c) ++ ["noidle"; "status"]
       end) ∧
  (∀ si' c', processStateUpdate' si c = (Done (si', None), c') →
     StatusInfo si' = info ∧
     CurrentSong (checkSongChange' si c).2 = (Done (SongInfo si', None), c')) ∧
  (∀ si1 c1' info2 c2,
     processStateUpdate' si c = (Done (si1, None), c1') →
     Status c1' = (Done (info2, None), c2) →
     info_get info2 "songid" = info_get info "songid" →
     ∃ r c', processStateUpdate' si1 c1' = (r, c') ∧
             commands (trace c') =
               commands (trace c1') ++ ["noidle"; "status"; "noidle"; "currentsong"]).
Proof.
  intros Hw HS file get.
  destruct (infoCommand_frame _ _ _ _ Hw HS) as (_ & Hw1 & Hcmd1).
  assert (∀ si' c', processStateUpdate' si c = (Done (si', None), c') →
            StatusInfo si' = info ∧
            CurrentSong (checkSongChange' si c).2 = (Done (SongInfo si', None), c'))
    as Hlast.
  { intros si' c'. rewrite processStateUpdate_run.
    destruct (checkSongChange' si c) as [[[si1 [e|]]|msg] c2] eqn:Hc; [done| |done].
    rewrite updateSongInfo_run. cbn [snd].
    assert (StatusInfo si1 = info) as Hsi1.
    { rewrite (checkSongChange_run _ _ _ _ HS) in Hc.
      destruct (decide _); [|by simplify_eq].
      destruct (played (StatusInfo si)) as [[|]|msg]; [|by simplify_eq..].
      destruct (incSongPlayCount (SongInfo si) c1) as [[[count [e|]]|msg] ci];
        by simplify_eq. }
    destruct (CurrentSong c2) as [[[songInfo [e|]]|msg] c3]; [done| |done].
    intros [= <- <-]. by cbn [StatusInfo SongInfo]. }
  split; [|split; [|split]]; [|  |done|].
  - intros Hid. by eapply processStateUpdate_same_id.
  - intros Hid r c'. rewrite processStateUpdate_run, (checkSongChange_run _ _ _ _ HS).
    rewrite decide_True by done.
    destruct (played (StatusInfo si)) as [[|]|msg].
    + destruct (incSongPlayCount (SongInfo si) c1) as [ri ci] eqn:Hinc.
      destruct (incSongPlayCount_frame _ _ _ _ Hw1 Hinc)
        as ([[count e] ->] & Hwi & writes & Hcmdi & Hwrites).
      destruct e as [e|].
      * intros [= <- <-]. exists writes, []. rewrite app_nil_r.
        split; [|by split; [|left]].
        rewrite Hcmdi, Hcmd1. by rewrite <- !app_assoc.
      * rewrite updateSongInfo_run.
        destruct (CurrentSong ci) as [r2 c2] eqn:HC.
        destruct (infoCommand_frame _ _ _ _ Hwi HC) as ([[songInfo err] ->] & _ & Hcmd2).
        intros Hr. assert (c' = c2) as -> by (destruct err; by simplify_eq).
        exists writes, ["noidle"; "currentsong"]. split; [|by split; [|right]].
        rewrite Hcmd2, Hcmdi, Hcmd1. by rewrite <- !app_assoc.
    + rewrite updateSongInfo_run.
      destruct (CurrentSong c1) as [r2 c2] eqn:HC.
      destruct (infoCommand_frame _ _ _ _ Hw1 HC) as ([[songInfo err] ->] & _ & Hcmd2).
      intros Hr. assert (c' = c2) as -> by (destruct err; by simplify_eq).
      rewrite Hcmd2, Hcmd1. by rewrite <- !app_assoc.
    + by intros [= <- <-].
  - intros si1 c1' info2 c2 Hrun HS2 Hid.
    destruct (Hlast _ _ Hrun) as [Hsi1 _].
    apply (processStateUpdate_same_id si1 c1' info2 c2); [|done|by rewrite Hsi1].
    apply (processStateUpdate_frame si c _ _ Hw Hrun).
Qed.

End TrackerFacts.

Lemma processStateUpdate_song_change_witness :
  let si := mkSongStatusInfo (<["songid" := "1"]> {["time" := "118:120"]})
              {["file" := "a.mp3"]} in
  let c := mkConn ["songid: 2"; "time: 0:200"; "OK";
                   "sticker: playcount=3"; "OK"; "OK";
                   "file: b.mp3"; "OK"] 0 [] [] in
  ∃ writes refresh,
    commands (trace (processStateUpdate Z Seconds.ParseFloat Seconds.int_of_float64 si c).2)
      = [] ++ ["noidle"; "status"; "noidle"; stickerGetCommand "song" "a.mp3" "playcount"]
           ++ writes ++ refresh.
Proof.
  intros si c.
  pose (info := match (Status c).1 with Done (i, _) => i | Panic _ => ∅ end).
  assert (Status c = (Done (info, None), (Status c).2)) as HS
    by (vm_compute; reflexivity).
  destruct (processStateUpdate_song_change Z Seconds.ParseFloat Seconds.int_of_float64
              si c info (Status c).2 eq_refl HS) as (_ & H & _).
  assert (info_get info "songid" ≠ info_get (StatusInfo si) "songid") as Hid
    by (vm_compute; discriminate).
  specialize (H Hid _ _ (surjective_pairing _)).
  assert (considerSongPlayed Z Seconds.ParseFloat Seconds.int_of_float64
            (StatusInfo si) songPlayedThresholdSeconds = Done true) as Hp
    by (vm_compute; reflexivity).
  rewrite Hp in H. destruct H as (writes & refresh & H & _).
  exists writes, refresh. exact H.
Defined.

(** ** Connect *)

Lemma Connect_greeting dial host port c line rest :
  dial network (host +:+ ":" +:+ NilZero.string_of_uint (N.to_uint port)) = (c, None) →
  inbox c = line :: rest →
  Connect dial host port =
    match GoString.slice line 0 6 with
    | None => Panic "slice bounds out of range"
    | Some greeting =>
        if decide (greeting = "OK MPD")
        then Done (Some (mkClient host port
                           (mkConn rest (nextId c) (wfail c) (trace c ++ [EvRead line])) []),
                   None)
        else Done (None, Some (errors_New "MPD: not OK"))
    end.
Proof.
  intros Hd Hc. unfold Connect. rewrite Hd. unfold conn_ReadLine. rewrite Hc.
  destruct (GoString.slice line 0 6) as [greeting|]; [|done].
  cbn [slice_or_panic outcome_bind].
  destruct (decide (greeting = "OK MPD")) as [->|Hne].
  - by rewrite decide_False by (by intros []).
  - by rewrite decide_True.
Qed.

(** [Connect] returns a client only on a greeting that starts with
    "OK MPD"; a greeting of six bytes or more that starts otherwise is
    answered by the error "MPD: not OK". *)
Lemma Connect_checks_greeting dial host port c line rest :
  dial network (host +:+ ":" +:+ NilZero.string_of_uint (N.to_uint port)) = (c, None) →
  inbox c = line :: rest →
  (∀ cl err, Connect dial host port = Done (Some cl, err) →
     GoString.has_prefix line "OK MPD" = true ∧ err = None) ∧
  ((6 ≤ String.length line)%nat → GoString.has_prefix line "OK MPD" = false →
     Connect dial host port = Done (None, Some (errors_New "MPD: not OK"))).
Proof.
  intros Hd Hc. rewrite (Connect_greeting _ _ _ _ _ _ Hd Hc).
  assert (∀ n s, GoString.has_prefix s (GoString.take n s) = true) as Htake.
  { induction n as [|n IH]; intros [|a s]; cbn; [done..|].
    by rewrite Ascii.eqb_refl, IH. }
  split.
  - intros cl err. destruct (GoString.slice line 0 6) as [greeting|] eqn:Hs; [|done].
    destruct (decide (greeting = "OK MPD")) as [->|]; [|done].
    intros [= <- <-]. split; [|done].
    unfold GoString.slice in Hs. destruct (_ && _); [|done].
    change (Some (GoString.take 6 (GoString.drop 0 line)) = Some "OK MPD") in Hs.
    rewrite drop_0 in Hs. assert (GoString.take 6 line = "OK MPD") as <- by congruence.
    apply Htake.
  - intros Hlen Hp. change 6 with (Z.of_nat 6). rewrite slice_prefix by done.
    rewrite decide_False; [done|]. intros Heq.
    rewrite <- Heq, Htake in Hp. discriminate Hp.
Qed.

(** C8, where the code departs from it. On a greeting shorter than six
    bytes, here the line OK, the slice of its first six bytes is out of
    bounds: [Connect] panics; it does not return an error. *)
Theorem Connect_short_greeting_panics :
  Connect (λ _ _, (mkConn ["OK"] 0 [] [], None)) "localhost" 6600
    = Panic "slice bounds out of range".
Proof. reflexivity. Qed.

(** ** Dispatch *)

Lemma notify_wanted_absent wanted subsystem sub :
  subsystem ∉ wanted → notify_wanted wanted subsystem sub = (Done tt, sub).
Proof.
  induction wanted as [|w wanted IH]; [done|].
  intros [Hw Hin]%not_elem_of_cons. cbn [notify_wanted]. unfold bind at 1.
  rewrite decide_False by done. unfold ret. by apply IH.
Qed.

Lemma send_and_close_open subsystem sub :
  closed (ch sub) = false →
  send_and_close subsystem sub = (Done tt, fulfilled subsystem sub).
Proof.
  intros Ho. unfold send_and_close, idleSubscription_Close, bind, on_ch, chan_send, chan_close.
  by rewrite Ho.
Qed.

Lemma notify_wanted_once wanted subsystem sub :
  NoDup wanted → closed (ch sub) = false → subsystem ∈ wanted →
  notify_wanted wanted subsystem sub = (Done tt, fulfilled subsystem sub).
Proof.
  intros Hnd Ho Hin. induction wanted as [|w wanted IH]; [by apply elem_of_nil in Hin|].
  apply NoDup_cons in Hnd as [Hw Hnd]. cbn [notify_wanted]. unfold bind at 1.
  destruct (decide (w = subsystem)) as [->|Hne].
  - rewrite send_and_close_open by done. by apply notify_wanted_absent.
  - unfold ret. apply IH; [done|]. by apply elem_of_cons in Hin as [->|].
Qed.

(** With no name repeated in its interest, a subscription gets its one
    shot. *)
Lemma notify_one_shot subsystem sub :
  sub_ok sub → NoDup (subsystems sub) →
  notify subsystem sub = (Done tt, one_shot subsystem sub).
Proof.
  intros Hok Hnd. unfold notify, one_shot, interested.
  destruct (active sub) eqn:Ha; [|done]. cbn [andb].
  destruct (subsystems sub) as [|w wanted] eqn:Hs.
  - cbn [length Nat.eqb]. rewrite bool_decide_eq_true_2 by (by left).
    apply send_and_close_open. by apply Hok.
  - cbn [length Nat.eqb]. rewrite <- Hs in *. case_bool_decide as Hin.
    + destruct Hin as [Hin|Hin]; [by rewrite Hs in Hin|].
      apply notify_wanted_once; [done | by apply Hok | done].
    + apply notify_wanted_absent. intros Hin'. apply Hin. by right.
Qed.

(** The dispatch the claim describes: where no subscription repeats a
    name in its interest, every active and interested subscription gets
    exactly one delivery and is closed, the others are left as they
    are. *)
Lemma dispatch_one_shot subsystem subs :
  Forall sub_ok subs → Forall (λ sub, NoDup (subsystems sub)) subs →
  dispatch subsystem subs = (Done tt, one_shot subsystem <$> subs).
Proof.
  induction subs as [|sub subs IH]; [done|].
  intros [Hok Hoks]%Forall_cons [Hnd Hnds]%Forall_cons.
  cbn [dispatch]. rewrite notify_one_shot by done. by rewrite IH.
Qed.

(** A subscription that is closed is passed over in every later round. *)
Lemma notify_inactive subsystem sub :
  active sub = false → notify subsystem sub = (Done tt, sub).
Proof. unfold notify. by intros ->. Qed.

(** C5, where the code departs from it. The first subscription names
    "player" twice, the second has an empty interest; the wait command
    reports "player". The first subscription gets its delivery and is
    closed; the loop over its names goes on, sends on the closed channel
    and panics; [idle] recovers and returns. The second subscription has
    received nothing and is still open and active. *)
Theorem idle_repeated_name_starves_next :
  let repeated := mkSub (mkChan [] false) true ["player"; "player"] in
  let any := mkSub (mkChan [] false) true [] in
  let cl := mkClient "localhost" 6600 (mkConn ["changed: player"; "OK"] 0 [] [])
              [repeated; any] in
  interested "player" any = true ∧
  (idle [] cl).1 = ExitRecovered "send on closed channel" ∧
  subscriptions (idle [] cl).2 = [fulfilled "player" repeated; any] ∧
  dispatch "player" [repeated; any] =
    (Panic "send on closed channel", [fulfilled "player" repeated; any]).
Proof. cbn zeta. repeat split; vm_compute; reflexivity. Qed.

(** A wait reply that reports two names leaves only the last one in the
    [Info]: a subscription to the first name gets nothing. *)
Lemma idle_keeps_last_changed :
  let player := mkSub (mkChan [] false) true ["player"] in
  let cl := mkClient "localhost" 6600
              (mkConn ["changed: player"; "changed: mixer"; "OK"] 0 [] []) [player] in
  (idle [] cl).1 = ExitWaiting ∧ subscriptions (idle [] cl).2 = [player].
Proof. cbn zeta. split; vm_compute; reflexivity. Qed.

(** A bare OK, the reply to an interrupted wait, is dispatched to no
    one. *)
Lemma idle_round_bare_OK cl rest :
  wfail (conn cl) = [] → inbox (conn cl) = "OK" :: rest →
  ∃ c', idle_round cl = (Done tt, mkClient (Host cl) (Port cl) c' (subscriptions cl)).
Proof.
  intros Hw Hc. unfold idle_round, bind, on_conn.
  rewrite (conn_Cmd_ok _ _ Hw). unfold conn_StartResponse, conn_EndResponse, log.
  cbn [conn Host Port subscriptions inbox nextId wfail trace].
  rewrite (fillInfoUntilOK_OK _ _ rest) by done.
  cbn [conn Host Port subscriptions inbox nextId wfail trace].
  rewrite lookup_empty. by eexists.
Qed.

(** ** A command while the connection is waiting *)

Section SharedFacts.

Import Shared.

Lemma conn_Cmd_effect text c id err c' :
  conn_Cmd text c = (Done (id, err), c') →
  inbox c' = inbox c ∧ nextId c' = S (nextId c) ∧ (err = None → id = nextId c).
Proof.
  unfold conn_Cmd. destruct (wfail c) as [|[] w]; intros [= <- <- <-]; done.
Qed.

Lemma conn_ReadLine_effect c line err c' :
  conn_ReadLine c = (Done (line, err), c') →
  nextId c' = nextId c ∧
  ((err = None ∧ inbox c = line :: inbox c') ∨
   (is_Some err ∧ inbox c = [] ∧ inbox c' = [])).
Proof.
  unfold conn_ReadLine. destruct (inbox c) as [|l rest] eqn:Hc; intros [= <- <- <-].
  - split; [done|]. right. split; [by eexists|]. split; [done|]. exact Hc.
  - split; [done|]. by left.
Qed.

(** *** The two tasks run the code of the methods

    The worker's turns in its response are the loop of
    [fillInfoUntilOK]; the caller's steps up to its command are [Cmd]. *)

Lemma worker_reads_as_fillInfoUntilOK text : ∀ (l : list string) c info r id cl info' err c',
  inbox c = l →
  fillInfoUntilOK info c = (Done (info', err), c') →
  rtc (step text) (mkSys c r (WReading id info) cl) (mkSys c' r (WFilled id info' err) cl).
Proof.
  induction l as [|line rest IH]; intros c info r id cl info' err c' Hc Hrun.
  - rewrite (fillInfoUntilOK_EOF _ _ Hc) in Hrun. injection Hrun as <- <- <-.
    apply rtc_once.
    apply (w_read text c r cl id info "" (Some (io_error "EOF")) (log c [EvReadError])).
    unfold conn_ReadLine. by rewrite Hc.
  - assert (conn_ReadLine c =
              (Done (line, None),
               mkConn rest (nextId c) (wfail c) (trace c ++ [EvRead line]))) as Hread
      by (unfold conn_ReadLine; by rewrite Hc).
    pose proof (w_read text c r cl id info _ _ _ Hread) as Hstep.
    unfold reading_turn in Hstep.
    destruct (decide (line = "OK")) as [->|Hline].
    + rewrite (fillInfoUntilOK_OK _ _ _ Hc) in Hrun. injection Hrun as <- <- <-.
      by apply rtc_once.
    + rewrite (fillInfoUntilOK_line _ _ _ _ Hc Hline) in Hrun. cbn zeta in Hrun.
      destruct (AddInfo info line) as [info1 [e|]].
      * injection Hrun as <- <- <-. by apply rtc_once.
      * eapply rtc_l; [exact Hstep|]. by apply IH.
Qed.

Lemma caller_runs_Cmd text c w :
  wfail c = [] →
  Cmd text c = (Done (S (nextId c), None), after_Cmd text c) ∧
  rtc (step text) (mkSys c (nextId c) w CStart)
    (mkSys (after_Cmd text c) (S (nextId c)) w (CIssued (S (nextId c)))).
Proof.
  intros Hw. split; [by apply Cmd_ok|].
  eapply rtc_l; [eapply c_noidle; by apply conn_Cmd_ok|].
  eapply rtc_l; [eapply c_noidle_start|].
  eapply rtc_l; [eapply c_noidle_end|].
  eapply rtc_l; [eapply c_cmd; by apply conn_Cmd_ok|].
  unfold after_Cmd, log. cbn [inbox nextId wfail trace].
  rewrite <- !app_assoc. apply rtc_refl.
Qed.

Lemma inv_init k body rest s : waiting k body rest s → inv k rest s.
Proof.
  intros (Hw & Hr & Hn & Hin & Hb & Hc).
  unfold inv, worker_inv, caller_inv. rewrite Hc.
  split; [lia|]. split; [done|]. split; [|split; [lia|]].
  - intros _. left. exists body. split; [done|]. split; [done|].
    destruct Hw as [->| ->]; [by left | right; by eexists].
  - split; [by destruct Hw as [->| ->]|]. split; [done|]. by intros a b _ [=].
Qed.

(** A turn of the worker on a line of the reply to the wait. *)
Lemma reading_turn_info_line id info line :
  info_line line → ∃ info', reading_turn id info line None = WReading id info'.
Proof.
  intros [Hok Hsep]. unfold reading_turn. rewrite decide_False by done.
  unfold AddInfo. rewrite (proj2 (Z.eqb_neq _ _)) by done. by eexists.
Qed.

Lemma reading_turn_id id info line err a :
  worker_id (reading_turn id info line err) = Some a → a = id.
Proof.
  unfold reading_turn. destruct err; [by intros [=]|].
  destruct (decide _); [by intros [=]|].
  destruct (AddInfo info line) as [info' [e|]]; by intros [=].
Qed.

Lemma reading_turn_shape id info line err :
  (∃ info', reading_turn id info line err = WReading id info') ∨
  (∃ info' e, reading_turn id info line err = WFilled id info' e).
Proof.
  unfold reading_turn. destruct err; [right; by eexists _, _|].
  destruct (decide _); [right; by eexists _, _|].
  destruct (AddInfo info line) as [info' [e|]]; [right; by eexists _, _|].
  left. by eexists.
Qed.

Ltac effects :=
  repeat match goal with
  | H : conn_Cmd _ _ = (Done (_, _), _) |- _ =>
      apply conn_Cmd_effect in H as (? & ? & ?)
  | H : conn_ReadLine _ = _ |- _ =>
      apply conn_ReadLine_effect in H as (? & [(? & ?)|(? & ? & ?)])
  end.

Ltac unfold_inv :=
  unfold inv, worker_inv, caller_inv, wait_unread in *;
  cbn [s_conn s_resp s_worker s_caller worker_id caller_id] in *;
  unfold log in *; cbn [inbox nextId] in *.

Ltac simple_case x :=
  unfold_inv; effects;
  repeat match goal with H : inbox _ = inbox _ |- _ => rewrite H in * end;
  repeat match goal with H : nextId _ = _ |- _ => rewrite H in * end;
  repeat split; try lia; destruct x; naive_solver lia.

(** Every step keeps the invariant. *)
Lemma inv_step text k rest s s' : inv k rest s → step text s s' → inv k rest s'.
Proof.
  intros Hinv Hstep.
  destruct Hstep as
    [c r cl id c' Hc | c r cl id e c' Hc | c cl id
    | c r cl id info line err c' Hread | c r cl id info err | c r cl | c r cl
    | c r w id c' Hc | c r w id e c' Hc | c w id | c r w id
    | c r w id c' Hc | c r w id e c' Hc | c w id
    | c r w id seen line c' Hread | c r w id seen];
    destruct Hinv as (H1 & H2 & H3 & H4 & H5 & H6 & H7).
  - simple_case cl.
  - simple_case cl.
  - simple_case cl.
  - (* the worker reads a line *)
    unfold_inv. destruct H5 as [-> Hid].
    assert (caller_id cl ≠ Some id) as Hcl by (intros Hb; by apply (H7 id id)).
    assert (match cl with CReading _ _ | CNoidleStarted _ => False | _ => True end) as Hout.
    { destruct cl; try done; destruct H6 as [-> _]; by apply Hcl. }
    assert (∀ a b, worker_id (reading_turn id info line err) = Some a →
              caller_id cl = Some b → a ≠ b) as H7'.
    { intros a b Ha%reading_turn_id. subst a. by apply H7. }
    pose proof (reading_turn_shape id info line err) as Hshape.
    apply conn_ReadLine_effect in Hread as (Hn & [(-> & Hin)|(He & Hin & Hin')]).
    + destruct (decide (id = k)) as [->|Hne].
      * destruct (H3 eq_refl) as [(b & Hb & Hbin & _)|(_ & info0 & [=])].
        rewrite Hbin in Hin. destruct b as [|l b'].
        -- injection Hin as <- Hin. revert H7'. unfold reading_turn.
           rewrite decide_True by done. intros H7'.
           rewrite Hn. repeat split; try lia; try done.
           all: try (intros _; right; split; [done|]; by eexists).
           all: destruct cl; naive_solver lia.
        -- injection Hin as <- Hin. apply Forall_cons in Hb as [Hl Hb].
           destruct (reading_turn_info_line k info l Hl) as [info' Hturn].
           rewrite Hturn in *.
           rewrite Hn. repeat split; try lia; try done.
           all: try (intros _; left; exists b'; split; [done|]; split; [done|];
                     right; by eexists).
           all: destruct cl; naive_solver lia.
      * assert (k < id)%nat as Hk by lia. destruct (H4 Hk) as [pre Hpre].
        rewrite Hn. repeat split; try lia; try done.
        all: try (intros _; exists (pre ++ [line]); rewrite <- app_assoc;
                  cbn [app]; by rewrite <- Hin).
        all: try (destruct Hshape as [[info' ->]|(info' & e & ->)]; done).
        all: destruct cl; try done; naive_solver lia.
    + destruct (decide (id = k)) as [->|Hne].
      * destruct (H3 eq_refl) as [(b & Hb & Hbin & _)|(_ & info0 & [=])].
        rewrite Hbin in Hin. by destruct b.
      * assert (k < id)%nat as Hk by lia. destruct (H4 Hk) as [pre Hpre].
        rewrite Hn. repeat split; try lia; try done.
        all: try (intros _; exists pre; by rewrite Hin', <- Hin).
        all: try (destruct Hshape as [[info' ->]|(info' & e & ->)]; done).
        all: destruct cl; try done; naive_solver lia.
  - (* the worker ends its response *)
    unfold_inv. destruct H5 as [-> Hid].
    assert (caller_id cl ≠ Some id) as Hcl by (intros Hb; by apply (H7 id id)).
    assert (match cl with CReading _ _ | CNoidleStarted _ => False | _ => True end) as Hout.
    { destruct cl; try done; destruct H6 as [-> _]; by apply Hcl. }
    assert (∃ pre, rest = pre ++ inbox c) as Hpre.
    { destruct (decide (id = k)) as [->|Hne]; [|apply H4; lia].
      destruct (H3 eq_refl) as [(b & _ & _ & [[=]|[? [=]]])|(Hin & _)].
      exists []. by rewrite Hin. }
    repeat split; try lia; try done.
    all: try (by destruct err).
    all: destruct cl; try done; naive_solver lia.
  - simple_case cl.
  - simple_case cl.
  - simple_case w.
  - simple_case w.
  - simple_case w.
  - simple_case w.
  - simple_case w.
  - simple_case w.
  - simple_case w.
  - (* the caller reads a line *)
    unfold_inv. destruct H6 as (-> & Hid & pre & Hpre).
    apply conn_ReadLine_effect in Hread as (Hn & [(_ & Hin)|([e He] & _)]); [|done].
    destruct (H4 ltac:(lia)) as [pre0 Hpre0].
    rewrite Hn. repeat split; try lia; try done.
    all: try (intros _; exists (pre0 ++ [line]); rewrite <- app_assoc;
              cbn [app]; by rewrite <- Hin).
    all: try (exists pre; rewrite <- !app_assoc; cbn [app]; by rewrite <- Hin).
    all: destruct w; naive_solver lia.
  - simple_case w.
Qed.

Lemma inv_rtc text k rest s s' :
  inv k rest s → rtc (step text) s s' → inv k rest s'.
Proof.
  intros Hinv Hrun. induction Hrun as [|s1 s2 s3 Hstep _ IH]; [done|].
  apply IH. by eapply inv_step.
Qed.

(** C1. [Cmd] sends "noidle", opens and closes the response of that
    command, and only then sends the command; when the write of
    "noidle" fails it returns the error and the command is not sent.
    On a connection that is waiting, where the loop of [idle] holds
    the response of its wait, the pipeline lets the response of
    "noidle" start only once the loop has read the reply to the wait
    up to its OK and has ended that response. So, however the two
    tasks are scheduled, once the caller's command is written the
    response of the wait has ended and its reply is consumed, and the
    lines the caller reads in the response of its command are a run
    of the lines that follow the reply to the wait: none of them is a
    line of that reply. *)
Theorem Cmd_interrupts_wait :
  (∀ text c, wfail c = [] →
     Cmd text c =
       (Done (S (nextId c), None),
        mkConn (inbox c) (S (S (nextId c))) []
          (trace c ++ [EvCmd (nextId c) "noidle"; EvStartResponse (nextId c);
                       EvEndResponse (nextId c); EvCmd (S (nextId c)) text]))) ∧
  (∀ text c w, wfail c = true :: w →
     ∃ c', Cmd text c = (Done (0%nat, Some (io_error "write")), c') ∧
           commands (trace c') = commands (trace c)) ∧
  (∀ text k body rest s0 s,
     waiting k body rest s0 → rtc (step text) s0 s →
     (command_written s →
        (k < s_resp s)%nat ∧ ∃ pre, rest = pre ++ inbox (s_conn s)) ∧
     ∃ pre post, rest = pre ++ observed s ++ post).
Proof.
  split; [|split].
  - intros text c Hw. by rewrite (Cmd_ok _ _ Hw).
  - intros text c w Hw. eexists. split.
    + unfold Cmd, noIdle, bind, conn_Cmd. rewrite Hw. reflexivity.
    + done.
  - intros text k body rest s0 s Hwait Hrun.
    pose proof (inv_rtc _ _ _ _ _ (inv_init _ _ _ _ Hwait) Hrun)
      as (H1 & H2 & H3 & H4 & H5 & H6 & H7).
    unfold command_written, observed, caller_inv in *. split.
    + destruct (s_caller s); try done; intros _.
      * destruct H6 as [Hk _]. split; [done|]. by apply H4.
      * destruct H6 as (Hr & Hk & _). split; [lia|]. apply H4. lia.
      * destruct H6 as [Hk _]. split; [done|]. by apply H4.
    + destruct (s_caller s); try (by exists [], rest).
      * destruct H6 as (_ & _ & pre & Hpre). by exists pre, (inbox (s_conn s)).
      * by destruct H6 as (_ & pre & post & Hpre); exists pre, post.
Qed.

Lemma Cmd_interrupts_wait_witness :
  let rest := ["volume: 40"; "OK"] in
  let s0 := mkSys (mkConn ("changed: player" :: "OK" :: rest) 1 [] [EvCmd 0 "idle"])
              0 (WIssued 0) CStart in
  ∃ s, rtc (step "status") s0 s ∧ observed s = rest ∧
       ∃ pre post, rest = pre ++ observed s ++ post.
Proof.
  intros rest s0.
  assert (∃ s, rtc (step "status") s0 s ∧ observed s = rest) as (s & Hrun & Hobs).
  { eexists. split.
    - eapply rtc_l; [eapply c_noidle; reflexivity|].
      eapply rtc_l; [eapply w_start|].
      eapply rtc_l; [eapply w_read; reflexivity|].
      eapply rtc_l; [eapply w_read; reflexivity|].
      eapply rtc_l; [eapply w_end|].
      eapply rtc_l; [eapply c_noidle_start|].
      eapply rtc_l; [eapply c_noidle_end|].
      eapply rtc_l; [eapply c_cmd; reflexivity|].
      eapply rtc_l; [eapply c_start|].
      eapply rtc_l; [eapply c_read; reflexivity|].
      eapply rtc_l; [eapply c_read; reflexivity|].
      eapply rtc_l; [eapply c_end|].
      apply rtc_refl.
    - reflexivity. }
  exists s. split; [done|]. split; [done|].
  destruct Cmd_interrupts_wait as (_ & _ & H).
  apply (H "status" 0%nat ["changed: player"] rest s0 s); [|done].
  split; [by left|]. split; [done|]. split; [cbn; lia|]. split; [done|].
  split; [|done]. repeat constructor; [discriminate | vm_compute; discriminate].
Defined.

End SharedFacts.

(** ** Reply lines, read back *)

Lemma has_prefix_split s p :
  GoString.has_prefix s p = true → s = p +:+ GoString.drop (String.length p) s.
Proof.
  revert s. induction p as [|a p IH]; intros s H.
  - by rewrite append_nil, drop_0.
  - destruct s as [|b s]; [done|]. cbn [GoString.has_prefix] in H.
    apply andb_true_iff in H as [Hab H]. apply Ascii.eqb_eq in Hab as ->.
    rewrite append_cons. cbn [String.length GoString.drop]. f_equal. by apply IH.
Qed.

Lemma has_prefix_take s p : ∀ n,
  GoString.has_prefix (GoString.take n s) p = true → GoString.has_prefix s p = true.
Proof.
  revert s. induction p as [|a p IH]; intros s n H; [done|].
  destruct n as [|n], s as [|b s]; try done. cbn [GoString.take GoString.has_prefix] in *.
  apply andb_true_iff in H as [-> H]. cbn [andb]. by apply (IH _ n).
Qed.

(** The first separator of a line splits it into a key that holds no
    separator and the rest. *)
Lemma index_of_split line : ∀ n,
  GoString.index_of line infoFieldSep = Some n →
  line = GoString.take n line +:+ infoFieldSep +:+ GoString.drop (n + 2) line ∧
  reply_key (GoString.take n line).
Proof.
  induction line as [|c s IH]; intros n H; [done|].
  rewrite index_of_cons in H.
  destruct (GoString.has_prefix (String c s) infoFieldSep) eqn:Hp.
  - assert (n = 0%nat) as -> by congruence. split; [|done].
    cbn [GoString.take]. rewrite append_nil. exact (has_prefix_split _ _ Hp).
  - destruct (GoString.index_of s infoFieldSep) as [n'|] eqn:Hi; [|done].
    assert (n = S n') as -> by (cbn in H; congruence).
    destruct (IH n' eq_refl) as [Hs Hk]. split.
    + cbn [GoString.take]. rewrite append_cons.
      change (S n' + 2)%nat with (S (n' + 2)). cbn [GoString.drop]. by f_equal.
    + unfold reply_key in *. cbn [GoString.take]. rewrite index_of_cons.
      destruct (GoString.has_prefix (String c (GoString.take n' s)) infoFieldSep) eqn:Hq.
      * by rewrite (has_prefix_take (String c s) infoFieldSep (S n') Hq) in Hp.
      * by rewrite Hk.
Qed.

Lemma AddInfo_cases (info : gmap string string) line :
  (GoString.Index line infoFieldSep = -1 ∧
   AddInfo info line = (info, Some (errors_New ("Invalid input: " +:+ line)))) ∨
  (∃ k v, line = reply_line (k, v) ∧ reply_key k ∧
          AddInfo info line = (<[k := v]> info, None)).
Proof.
  destruct (GoString.index_of line infoFieldSep) as [n|] eqn:Hi.
  - right. destruct (index_of_split _ _ Hi) as [Hline Hk].
    exists (GoString.take n line), (GoString.drop (n + 2) line).
    split; [done|]. split; [done|].
    rewrite Hline at 1. by apply AddInfo_reply_line.
  - left. apply Index_missing in Hi. split; [done|]. by apply AddInfo_no_separator.
Qed.

(** X1. [AddInfo] splits a line at its first separator: the key it
    binds holds no separator, and key, separator and value put together
    are the line again; the other keys of the map stay as they were. A
    line without a separator leaves the map as it was and is reported
    with its text. *)
Theorem AddInfo_first_separator (info : gmap string string) line :
  match AddInfo info line with
  | (info', None) =>
      ∃ k v, line = k +:+ infoFieldSep +:+ v ∧
             GoString.index_of k infoFieldSep = None ∧
             info' !! k = Some v ∧ ∀ k', k' ≠ k → info' !! k' = info !! k'
  | (info', Some e) =>
      GoString.index_of line infoFieldSep = None ∧ info' = info ∧
      e = errors_New ("Invalid input: " +:+ line)
  end.
Proof.
  destruct (AddInfo_cases info line) as [[Hi ->]|(k & v & Hline & Hk & ->)].
  - by apply Index_missing in Hi.
  - exists k, v. split; [done|]. split; [done|]. split.
    + by rewrite lookup_insert_eq.
    + intros k' Hk'. by rewrite lookup_insert_ne.
Qed.

(** What [fillInfoUntilOK] does on any connection: it reads key and
    value lines, and stops at the first line that is not one. *)
Lemma fillInfoUntilOK_cases : ∀ (l : list string) (info : gmap string string) c,
  inbox c = l →
  ∃ kvs err c',
    fillInfoUntilOK info c = (Done (add_pairs info kvs, err), c') ∧
    Forall (λ kv, reply_key kv.1) kvs ∧
    nextId c' = nextId c ∧ wfail c' = wfail c ∧
    ((err = None ∧ inbox c = (reply_line <$> kvs) ++ "OK" :: inbox c' ∧
      trace c' = trace c ++ (EvRead <$> (reply_line <$> kvs) ++ ["OK"])) ∨
     (err = Some (io_error "EOF") ∧ inbox c = reply_line <$> kvs ∧ inbox c' = [] ∧
      trace c' = trace c ++ (EvRead <$> (reply_line <$> kvs)) ++ [EvReadError]) ∨
     (∃ bad, err = Some (errors_New ("Invalid input: " +:+ bad)) ∧
             bad ≠ "OK" ∧ GoString.index_of bad infoFieldSep = None ∧
             inbox c = (reply_line <$> kvs) ++ bad :: inbox c' ∧
             trace c' = trace c ++ (EvRead <$> (reply_line <$> kvs) ++ [bad]))).
Proof.
  induction l as [|line rest IH]; intros info c Hc.
  - exists [], (Some (io_error "EOF")), (log c [EvReadError]).
    rewrite (fillInfoUntilOK_EOF _ _ Hc). split; [done|]. split; [done|].
    split; [done|]. split; [done|]. right; left. by rewrite Hc.
  - destruct (decide (line = "OK")) as [->|Hline].
    + exists [], None. eexists. rewrite (fillInfoUntilOK_OK _ _ _ Hc).
      split; [done|]. split; [done|]. split; [done|]. split; [done|].
      left. by rewrite Hc.
    + rewrite (fillInfoUntilOK_line _ _ _ _ Hc Hline). cbn zeta.
      destruct (AddInfo_cases info line) as [[Hi ->]|(k & v & -> & Hk & ->)].
      * exists [], (Some (errors_New ("Invalid input: " +:+ line))). eexists.
        split; [done|]. split; [done|]. split; [done|]. split; [done|].
        right; right. exists line. apply Index_missing in Hi. by rewrite Hc.
      * destruct (IH (<[k := v]> info)
                    (mkConn rest (nextId c) (wfail c) (trace c ++ [EvRead (reply_line (k, v))]))
                    eq_refl) as (kvs & err & c' & Hrun & Hks & Hn & Hw & Hshape).
        exists ((k, v) :: kvs), err, c'. split; [done|]. split; [by constructor|].
        split; [done|]. split; [done|]. cbn [inbox trace] in Hshape. rewrite Hc.
        destruct Hshape as [(He & Hin & Htr)|[(He & Hin & Hin' & Htr)
                           |(bad & He & Hb & Hs & Hin & Htr)]].
        -- left. split; [done|]. by rewrite Hin, Htr, <- app_assoc.
        -- right; left. split; [done|]. by rewrite Hin, Htr, <- app_assoc.
        -- right; right. exists bad. split; [done|]. split; [done|]. split; [done|].
           by rewrite Hin, Htr, <- app_assoc.
Qed.

(** X2. Every run of [fillInfoUntilOK] is one of three: it has read key
    and value lines and then the line OK, and returns the map of these
    pairs without an error; or the stream ended after such lines; or a
    line that is neither OK nor holds a separator came after them. It
    reads no further than the line that stops it, writes nothing and
    never panics. *)
Theorem fillInfoUntilOK_outcomes (info : gmap string string) (c : Conn) :
  ∃ kvs err c',
    fillInfoUntilOK info c = (Done (add_pairs info kvs, err), c') ∧
    Forall (λ kv, GoString.index_of kv.1 infoFieldSep = None) kvs ∧
    nextId c' = nextId c ∧ wfail c' = wfail c ∧
    ((err = None ∧ inbox c = (reply_line <$> kvs) ++ "OK" :: inbox c') ∨
     (err = Some (io_error "EOF") ∧ inbox c = reply_line <$> kvs ∧ inbox c' = []) ∨
     (∃ bad, err = Some (errors_New ("Invalid input: " +:+ bad)) ∧
             bad ≠ "OK" ∧ GoString.index_of bad infoFieldSep = None ∧
             inbox c = (reply_line <$> kvs) ++ bad :: inbox c')).
Proof.
  destruct (fillInfoUntilOK_cases (inbox c) info c eq_refl)
    as (kvs & err & c' & Hrun & Hks & Hn & Hw & Hshape).
  exists kvs, err, c'. split; [done|]. split; [done|]. split; [done|]. split; [done|].
  destruct Hshape as [(? & ? & _)|[(? & ? & ? & _)|(bad & ? & ? & ? & ? & _)]];
    [by left|by right; left|right; right; by exists bad].
Qed.

Lemma add_pairs_app (info : gmap string string) a b :
  add_pairs info (a ++ b) = add_pairs (add_pairs info a) b.
Proof. unfold add_pairs. by rewrite foldl_app. Qed.

Lemma add_pairs_other kvs : ∀ (info : gmap string string) k,
  k ∉ kvs.*1 → add_pairs info kvs !! k = info !! k.
Proof.
  induction kvs as [|[k0 v0] kvs IH]; intros info k Hk; [done|].
  cbn [add_pairs foldl]. fold (add_pairs (<[k0 := v0]> info) kvs).
  rewrite IH by set_solver. apply lookup_insert_ne. set_solver.
Qed.

(** X3. When a reply names a key more than once, the value of the last
    of its lines is the one [Status] and [CurrentSong] return for it. *)
Theorem infoCommand_last_value_wins cmd kvs k v kvs' rest c :
  Forall (λ kv, reply_key kv.1) (kvs ++ (k, v) :: kvs') →
  k ∉ kvs'.*1 →
  wfail c = [] →
  inbox c = (reply_line <$> kvs ++ (k, v) :: kvs') ++ "OK" :: rest →
  ∃ info c', infoCommand cmd c = (Done (info, None), c') ∧
             info !! k = Some v ∧ inbox c' = rest.
Proof.
  intros Hks Hk Hw Hc. rewrite (infoCommand_ok _ _ Hw). cbn zeta.
  rewrite (fillInfoUntilOK_pairs (kvs ++ (k, v) :: kvs') ∅ _ ("OK" :: rest)) by done.
  rewrite (fillInfoUntilOK_OK _ _ rest) by done.
  eexists _, _. split; [done|]. split; [|done].
  rewrite (add_pairs_app ∅ kvs ((k, v) :: kvs')). cbn [add_pairs foldl].
  fold (add_pairs (<[k := v]> (add_pairs ∅ kvs)) kvs').
  rewrite add_pairs_other by done. apply lookup_insert_eq.
Qed.

Lemma infoCommand_last_value_wins_witness :
  ∃ info c',
    Status (mkConn ["Genre: rock"; "Title: a"; "Genre: pop"; "OK"] 0 [] [])
      = (Done (info, None), c') ∧
    info !! "Genre" = Some "pop" ∧ inbox c' = [].
Proof.
  apply (infoCommand_last_value_wins "status" [("Genre", "rock"); ("Title", "a")]
           "Genre" "pop" [] []).
  - repeat constructor.
  - set_solver.
  - reflexivity.
  - reflexivity.
Defined.

(** X4. [Status] and [CurrentSong] on any connection whose writes go
    through: the map of the pairs read when the reply is key and value
    lines closed by OK; otherwise no map at all, and the error of the
    end of the stream or of the line that is out of place. *)
Theorem infoCommand_outcomes cmd (c : Conn) :
  wfail c = [] →
  ∃ kvs c',
    Forall (λ kv, GoString.index_of kv.1 infoFieldSep = None) kvs ∧
    commands (trace c') = commands (trace c) ++ ["noidle"; cmd] ∧
    ((inbox c = (reply_line <$> kvs) ++ "OK" :: inbox c' ∧
      infoCommand cmd c = (Done (add_pairs ∅ kvs, None), c')) ∨
     (inbox c = reply_line <$> kvs ∧ inbox c' = [] ∧
      infoCommand cmd c = (Done (∅, Some (io_error "EOF")), c')) ∨
     (∃ bad, bad ≠ "OK" ∧ GoString.index_of bad infoFieldSep = None ∧
             inbox c = (reply_line <$> kvs) ++ bad :: inbox c' ∧
             infoCommand cmd c =
               (Done (∅, Some (errors_New ("Invalid input: " +:+ bad))), c'))).
Proof.
  intros Hw.
  destruct (infoCommand cmd c) as [r c'] eqn:Hrun.
  destruct (infoCommand_frame _ _ _ _ Hw Hrun) as (_ & _ & Hcmd).
  rewrite (infoCommand_ok _ _ Hw) in Hrun. cbn zeta in Hrun.
  destruct (fillInfoUntilOK_cases (inbox c) ∅
              (log (after_Cmd cmd c) [EvStartResponse (S (nextId c))]) eq_refl)
    as (kvs & err & c1 & Hfill & Hks & _ & _ & Hshape).
  rewrite Hfill in Hrun. exists kvs, c'. split; [done|]. split; [done|].
  destruct Hshape as [(-> & Hin & _)|[(-> & Hin & Hin' & _)|(bad & -> & ? & ? & Hin & _)]];
    simplify_eq; cbn [inbox log after_Cmd] in *.
  - by left.
  - right; left. done.
  - right; right. by exists bad.
Qed.

Lemma infoCommand_outcomes_witness :
  ∃ kvs c',
    Forall (λ kv, GoString.index_of kv.1 infoFieldSep = None) kvs ∧
    commands (trace c') = [] ++ ["noidle"; "currentsong"] ∧
    ((["file: a.mp3"; "oops"; "OK"] = (reply_line <$> kvs) ++ "OK" :: inbox c' ∧
      CurrentSong (mkConn ["file: a.mp3"; "oops"; "OK"] 0 [] [])
        = (Done (add_pairs ∅ kvs, None), c')) ∨
     (["file: a.mp3"; "oops"; "OK"] = reply_line <$> kvs ∧ inbox c' = [] ∧
      CurrentSong (mkConn ["file: a.mp3"; "oops"; "OK"] 0 [] [])
        = (Done (∅, Some (io_error "EOF")), c')) ∨
     (∃ bad, bad ≠ "OK" ∧ GoString.index_of bad infoFieldSep = None ∧
             ["file: a.mp3"; "oops"; "OK"] = (reply_line <$> kvs) ++ bad :: inbox c' ∧
             CurrentSong (mkConn ["file: a.mp3"; "oops"; "OK"] 0 [] [])
               = (Done (∅, Some (errors_New ("Invalid input: " +:+ bad))), c'))).
Proof.
  apply (infoCommand_outcomes "currentsong"
           (mkConn ["file: a.mp3"; "oops"; "OK"] 0 [] [])).
  reflexivity.
Defined.

(** ** The pipeline stays in turn *)

Lemma in_turn_app a : ∀ turn b,
  in_turn turn (a ++ b) = in_turn turn a ≫= λ turn', in_turn turn' b.
Proof.
  induction a as [|ev a IH]; intros turn b; [done|].
  destruct ev; cbn [app in_turn]; try case_decide; by rewrite ?IH.
Qed.

Lemma in_turn_reads evs turn : Forall is_read evs → in_turn turn evs = Some turn.
Proof. induction 1 as [|[] evs Hev _ IH]; done. Qed.

Lemma reads_only_ret {A} (a : A) : reads_only (ret a).
Proof.
  intros c r c' [= <- <-]. split; [by eexists|]. split; [done|]. split; [done|].
  split; [by exists []|]. exists []. by rewrite app_nil_r.
Qed.

Lemma reads_only_ReadLine : reads_only conn_ReadLine.
Proof.
  intros c r c'. unfold conn_ReadLine. destruct (inbox c) as [|line rest] eqn:Hc;
    intros [= <- <-]; (split; [by eexists|]); (split; [done|]); (split; [done|]);
    cbn [inbox trace log].
  - split; [by exists []|]. exists [EvReadError]. split; [done|]. by repeat constructor.
  - split; [by exists [line]|]. exists [EvRead line]. split; [done|].
    by repeat constructor.
Qed.

Lemma reads_only_bind {A B} (m : M A) (f : A → M B) :
  reads_only m → (∀ a, reads_only (f a)) → reads_only (bind m f).
Proof.
  intros Hm Hf c r c'. unfold bind. destruct (m c) as [r1 c1] eqn:H1.
  destruct (Hm _ _ _ H1) as ([a ->] & Hn1 & Hw1 & [t1 Hin1] & evs1 & Htr1 & Hr1).
  intros H2. destruct (Hf a _ _ _ H2) as (Hd & Hn2 & Hw2 & [t2 Hin2] & evs2 & Htr2 & Hr2).
  split; [done|]. split; [congruence|]. split; [congruence|]. split.
  - exists (t1 ++ t2). by rewrite Hin1, Hin2, app_assoc.
  - exists (evs1 ++ evs2). split; [by rewrite Htr2, Htr1, app_assoc|].
    by apply Forall_app.
Qed.

Lemma reads_only_fillInfoUntilOK info : reads_only (fillInfoUntilOK info).
Proof.
  intros c r c' Hrun.
  destruct (fillInfoUntilOK_cases (inbox c) info c eq_refl)
    as (kvs & err & c1 & Hfill & _ & Hn & Hw & Hshape).
  rewrite Hfill in Hrun. simplify_eq.
  split; [by eexists|]. split; [done|]. split; [done|].
  assert (∀ lines, Forall is_read (EvRead <$> lines)) as Hreads.
  { intros lines. induction lines; by constructor. }
  destruct Hshape as [(_ & Hin & Htr)|[(_ & Hin & Hin' & Htr)|(bad & _ & _ & _ & Hin & Htr)]].
  - split; [by exists ((reply_line <$> kvs) ++ ["OK"]); rewrite Hin, <- app_assoc|].
    eexists. split; [exact Htr|]. apply Hreads.
  - split; [by exists (reply_line <$> kvs); rewrite Hin, Hin', app_nil_r|].
    eexists. split; [exact Htr|]. apply Forall_app. split; [apply Hreads|].
    by repeat constructor.
  - split; [by exists ((reply_line <$> kvs) ++ [bad]); rewrite Hin, <- app_assoc|].
    eexists. split; [exact Htr|]. apply Hreads.
Qed.

Ltac reads_only_body :=
  repeat first
    [ apply reads_only_ret
    | apply reads_only_ReadLine
    | apply reads_only_fillInfoUntilOK
    | apply reads_only_bind; [|intros [? ?]; cbn beta iota]
    | match goal with
      | |- reads_only (match ?x with _ => _ end) => destruct x
      end ].

Lemma reads_only_ReadMessages_loop turns : ∀ msgs, reads_only (ReadMessages_loop turns msgs).
Proof.
  induction turns as [|turns IH]; intros msgs; cbn [ReadMessages_loop];
    reads_only_body. apply IH.
Qed.

Lemma keeps_turn_ret {A} (a : A) : keeps_turn (ret a).
Proof.
  intros c r c' Hw [= <- <-]. split; [done|]. exists []. by rewrite app_nil_r.
Qed.

Lemma keeps_turn_lift {A} (o : outcome A) : keeps_turn (lift o).
Proof.
  intros c r c' Hw [= <- <-]. split; [done|]. exists []. by rewrite app_nil_r.
Qed.

Lemma keeps_turn_bind {A B} (m : M A) (f : A → M B) :
  keeps_turn m → (∀ a, keeps_turn (f a)) → keeps_turn (bind m f).
Proof.
  intros Hm Hf c r c' Hw. unfold bind. destruct (m c) as [r1 c1] eqn:H1.
  destruct (Hm _ _ _ Hw H1) as (Hw1 & evs1 & Htr1 & Ht1).
  destruct r1 as [a|msg].
  - intros H2. destruct (Hf a _ _ _ Hw1 H2) as (Hw2 & evs2 & Htr2 & Ht2).
    split; [done|]. exists (evs1 ++ evs2). split; [by rewrite Htr2, Htr1, app_assoc|].
    by rewrite in_turn_app, Ht1.
  - intros [= <- <-]. split; [done|]. by exists evs1.
Qed.

(** A method whose body only reads leaves the pipeline in turn. *)
Lemma method_keeps_turn {A} cmd (failed : error → A) (body : M A) :
  reads_only body → keeps_turn (method cmd failed body).
Proof.
  intros Hb c r c' Hw. unfold method, bind at 1. rewrite (Cmd_ok _ _ Hw).
  unfold bracket. run_conn. run_conn.
  match goal with |- context [body ?x] => destruct (body x) as [r1 c1] eqn:Hbody end.
  apply Hb in Hbody as (_ & Hn & Hw1 & _ & evs & Htr & Hre). cbn [nextId wfail trace] in *.
  intros [= <- <-]. cbn [wfail nextId trace]. split; [done|].
  exists ([EvCmd (nextId c) "noidle"; EvStartResponse (nextId c);
           EvEndResponse (nextId c); EvCmd (S (nextId c)) cmd;
           EvStartResponse (S (nextId c))] ++ evs ++ [EvEndResponse (S (nextId c))]).
  split.
  - rewrite Htr. by rewrite <- !app_assoc.
  - cbn [app in_turn]. rewrite !decide_True by done.
    rewrite in_turn_app, (in_turn_reads _ _ Hre). cbn [mbind option_bind in_turn].
    rewrite decide_True by done. by rewrite Hn.
Qed.

Ltac keeps_turn_method :=
  match goal with
  | |- keeps_turn (bind (Cmd ?cmd) _) =>
      eapply (method_keeps_turn cmd); reads_only_body
  end.

Lemma keeps_turn_infoCommand cmd : keeps_turn (infoCommand cmd).
Proof.
  apply (method_keeps_turn cmd (λ e, (∅, Some e))). reads_only_body.
Qed.

Lemma keeps_turn_StickerGet stype uri stickerName :
  keeps_turn (StickerGet stype uri stickerName).
Proof.
  apply (method_keeps_turn _ (λ e, ("", Some e))). reads_only_body.
Qed.

Lemma keeps_turn_StickerSet stype uri stickerName value :
  keeps_turn (StickerSet stype uri stickerName value).
Proof. apply (method_keeps_turn _ Some). reads_only_body. Qed.

Lemma keeps_turn_incSongPlayCount songInfo : keeps_turn (incSongPlayCount songInfo).
Proof.
  unfold incSongPlayCount. apply keeps_turn_bind; [apply keeps_turn_StickerGet|].
  intros [value [e|]]; [apply keeps_turn_ret|].
  destruct (Atoi _) as [intval [e|]]; [apply keeps_turn_ret|].
  apply keeps_turn_bind; [apply keeps_turn_StickerSet|]. intros err. apply keeps_turn_ret.
Qed.

Section TurnFacts.

Variable float64 : Type.
Variable ParseFloat : string → float64 * option error.
Variable int_of_float64 : float64 → Z.

Lemma keeps_turn_processStateUpdate sti :
  keeps_turn (processStateUpdate float64 ParseFloat int_of_float64 sti).
Proof.
  unfold processStateUpdate. apply keeps_turn_bind.
  - unfold checkSongChange. apply keeps_turn_bind; [apply keeps_turn_infoCommand|].
    intros [info [e|]]; [apply keeps_turn_ret|].
    apply keeps_turn_bind.
    + case_decide; [|apply keeps_turn_ret].
      apply keeps_turn_bind; [apply keeps_turn_lift|]. intros [|]; [|apply keeps_turn_ret].
      apply keeps_turn_bind; [apply keeps_turn_incSongPlayCount|].
      intros [? ?]. apply keeps_turn_ret.
    + intros [e|]; apply keeps_turn_ret.
  - intros [si1 [e|]]; [apply keeps_turn_ret|].
    apply keeps_turn_bind.
    + unfold updateSongInfo. apply keeps_turn_bind; [apply keeps_turn_infoCommand|].
      intros [songInfo [e|]]; apply keeps_turn_ret.
    + intros [si2 [e|]]; apply keeps_turn_ret.
Qed.

(** X5. When no write fails, every method of the client, and the update
    step of the tracker built from them, leaves the pipeline in turn:
    each response it starts is the one whose turn it is, so that
    [StartResponse] does not wait, and each response it has started it
    also ends. *)
Theorem methods_keep_turn :
  keeps_turn Status ∧ keeps_turn CurrentSong ∧
  (∀ stype uri name, keeps_turn (StickerGet stype uri name)) ∧
  (∀ stype uri name value, keeps_turn (StickerSet stype uri name value)) ∧
  (∀ channel, keeps_turn (Subscribe channel)) ∧
  (∀ channel, keeps_turn (Unsubscribe channel)) ∧
  (∀ channel text, keeps_turn (SendMessage channel text)) ∧
  keeps_turn ReadMessages ∧
  (∀ songInfo, keeps_turn (incSongPlayCount songInfo)) ∧
  (∀ sti, keeps_turn (processStateUpdate float64 ParseFloat int_of_float64 sti)).
Proof.
  split; [apply keeps_turn_infoCommand|]. split; [apply keeps_turn_infoCommand|].
  split; [apply keeps_turn_StickerGet|]. split; [apply keeps_turn_StickerSet|].
  split; [intros; apply (method_keeps_turn _ Some); reads_only_body|].
  split; [intros; apply (method_keeps_turn _ Some); reads_only_body|].
  split; [intros; apply (method_keeps_turn _ Some); reads_only_body|].
  split.
  { apply (method_keeps_turn _ (λ e, ([], Some e))).
    intros c. apply reads_only_ReadMessages_loop. }
  split; [apply keeps_turn_incSongPlayCount|]. apply keeps_turn_processStateUpdate.
Qed.

End TurnFacts.

Lemma methods_keep_turn_witness :
  let c := mkConn ["songid: 2"; "time: 0:200"; "OK";
                   "sticker: playcount=3"; "OK"; "OK";
                   "file: b.mp3"; "OK"] 0 [] [] in
  let sti := mkSongStatusInfo (<["songid" := "1"]> {["time" := "118:120"]})
               {["file" := "a.mp3"]} in
  let c' := (processStateUpdate Z Seconds.ParseFloat Seconds.int_of_float64 sti c).2 in
  wfail c' = [] ∧
  ∃ evs, trace c' = [] ++ evs ∧ in_turn 0 evs = Some (nextId c').
Proof.
  intros c sti c'.
  destruct (methods_keep_turn Z Seconds.ParseFloat Seconds.int_of_float64)
    as (_ & _ & _ & _ & _ & _ & _ & _ & _ & H).
  apply (H sti c (processStateUpdate Z Seconds.ParseFloat Seconds.int_of_float64 sti c).1 c').
  - reflexivity.
  - apply surjective_pairing.
Defined.



(** ** Commands answered by one line *)

Lemma expect_OK_run name cmd c :
  wfail c = [] →
  method cmd Some
    (let! (line, _) := conn_ReadLine in
     if decide (line ≠ "OK") then ret (Some (errors_New (name +:+ ": " +:+ line)))
     else ret None) c =
  (Done (OK_verdict name (inbox c)),
   mkConn (tail (inbox c)) (S (S (nextId c))) []
     (trace (in_response cmd c) ++
      [match inbox c with line :: _ => EvRead line | [] => EvReadError end;
       EvEndResponse (S (nextId c))])).
Proof.
  intros Hw. unfold method, bind at 1. rewrite (Cmd_ok _ _ Hw).
  unfold bracket, OK_verdict. run_conn. run_conn.
  destruct (inbox c) as [|line rest]; run_conn; cbn [head default tail];
    destruct (decide (_ ≠ "OK")); run_conn; by rewrite <- ?app_assoc.
Qed.

Lemma OK_verdict_None name lines :
  OK_verdict name lines = None ↔ ∃ rest, lines = "OK" :: rest.
Proof.
  unfold OK_verdict. destruct lines as [|line rest]; cbn [head default].
  - rewrite decide_True by done. split; [done|]. by intros [? ?].
  - case_decide as Hl.
    + split; [done|]. intros [? [= -> _]]. done.
    + change (line = "OK") in Hl. subst line. split; [|done]. by exists rest.
Qed.

(** X7. [Subscribe], [Unsubscribe] and [SendMessage] send their command
    and take exactly one line of the reply. They succeed when, and only
    when, that line is OK; any other line comes back in the error text
    after the name of the method, and so does the end of the stream, as
    an empty line. *)
Theorem one_line_commands channel text c :
  wfail c = [] →
  ∀ op name cmd,
    (op, name, cmd) ∈ [(Subscribe channel, "Subscribe", subscribeCommand channel);
                       (Unsubscribe channel, "Unsubscribe", unsubscribeCommand channel);
                       (SendMessage channel text, "SendMessage",
                        sendMessageCommand channel text)] →
    ∃ err c',
      op c = (Done err, c') ∧
      (err = None ↔ ∃ rest, inbox c = "OK" :: rest) ∧
      (∀ line rest, inbox c = line :: rest → line ≠ "OK" →
         err = Some (errors_New (name +:+ ": " +:+ line))) ∧
      (inbox c = [] → err = Some (errors_New (name +:+ ": "))) ∧
      inbox c' = tail (inbox c) ∧
      commands (trace c') = commands (trace c) ++ ["noidle"; cmd].
Proof.
  intros Hw op name cmd Hop.
  assert (op c =
    (Done (OK_verdict name (inbox c)),
     mkConn (tail (inbox c)) (S (S (nextId c))) []
       (trace (in_response cmd c) ++
        [match inbox c with line :: _ => EvRead line | [] => EvReadError end;
         EvEndResponse (S (nextId c))]))) as ->.
  { apply elem_of_cons in Hop as [[= -> -> ->]|Hop];
      [exact (expect_OK_run "Subscribe" _ c Hw)|].
    apply elem_of_cons in Hop as [[= -> -> ->]|Hop];
      [exact (expect_OK_run "Unsubscribe" _ c Hw)|].
    apply elem_of_cons in Hop as [[= -> -> ->]|Hop];
      [exact (expect_OK_run "SendMessage" _ c Hw)|].
    by apply elem_of_nil in Hop. }
  eexists _, _. split; [done|]. split; [apply OK_verdict_None|].
  split; [|split; [|split; [done|]]].
  - intros line rest -> Hl. unfold OK_verdict. cbn [head default].
    by rewrite decide_True.
  - intros ->. unfold OK_verdict. cbn [head default].
    by rewrite decide_True.
  - run_conn. rewrite !commands_app. destruct (inbox c); cbn [commands];
      by rewrite ?app_nil_r.
Qed.

Lemma one_line_commands_witness :
  ∃ err c',
    SendMessage "news" "hello" (mkConn ["ACK [50@0] {sendmessage} no such channel"] 0 [] [])
      = (Done err, c') ∧
    err = Some (errors_New "SendMessage: ACK [50@0] {sendmessage} no such channel") ∧
    commands (trace c') = [] ++ ["noidle"; sendMessageCommand "news" "hello"].
Proof.
  destruct (one_line_commands "news" "hello"
              (mkConn ["ACK [50@0] {sendmessage} no such channel"] 0 [] []) eq_refl
              (SendMessage "news" "hello") "SendMessage" (sendMessageCommand "news" "hello"))
    as (err & c' & Hrun & _ & Herr & _ & _ & Hcmd).
  - set_solver.
  - exists err, c'. split; [done|]. split; [|done]. by eapply Herr.
Defined.

(** ** Channel messages *)

Lemma FindStringSubmatch_message name body :
  plain name → plain body →
  MessageRegexp.FindStringSubmatch
    (("channel: " +:+ name) +:+ String GoString.newline ("message: " +:+ body)) =
  Some [("channel: " +:+ name) +:+ String GoString.newline ("message: " +:+ body);
        name; body].
Proof.
  intros [Hn Hnn] [Hb Hbn].
  assert (Regexp.dot_run (name +:+ String GoString.newline ("message: " +:+ body)) = name)
    as Hrun.
  { clear Hn. induction name as [|a name IH]; [done|].
    rewrite append_cons. cbn [no_char Regexp.dot_run] in *.
    apply andb_true_iff in Hnn as [Ha Hnn].
    rewrite decide_False; [by rewrite IH|].
    intros ->. by rewrite Ascii.eqb_refl in Ha. }
  destruct name as [|a name]; [done|].
  change (MessageRegexp.FindStringSubmatch ?s) with
    (match (if GoString.has_prefix s "channel: "
            then MessageRegexp.groups_here (GoString.drop 9 s) else None) with
     | Some m => Some m
     | None => match s with
               | EmptyString => None
               | String _ s' => MessageRegexp.FindStringSubmatch s'
               end
     end).
  change (GoString.has_prefix (("channel: " +:+ String a name) +:+ _) "channel: ") with true.
  change (GoString.drop 9 (("channel: " +:+ String a name) +:+ ?t))
    with (String a name +:+ t).
  unfold MessageRegexp.groups_here. rewrite Hrun.
  rewrite decide_False by done. rewrite drop_app_length.
  change (GoString.has_prefix _ MessageRegexp.message_prefix) with true.
  change (GoString.drop _ (String GoString.newline ("message: " +:+ body))) with body.
  rewrite dot_run_plain by done. rewrite decide_False by done.
  reflexivity.
Qed.

(** A turn of the loop of [ReadMessages] on a pair of lines. *)
Lemma ReadMessages_loop_pair turns msgs c l1 l2 rest :
  inbox c = l1 :: l2 :: rest → l1 ≠ "OK" →
  ReadMessages_loop (S turns) msgs c =
    let c2 := mkConn rest (nextId c) (wfail c) (trace c ++ [EvRead l1; EvRead l2]) in
    match MessageRegexp.FindStringSubmatch (l1 +:+ String GoString.newline l2) with
    | None =>
        (Done ([], Some (errors_New
           ("ReadMessages: bad channel/message response: " +:+ l1 +:+ "," +:+ l2))), c2)
    | Some m =>
        ReadMessages_loop turns (msgs ++ [mkChannelMessage (nth 1 m "") (nth 2 m "")]) c2
    end.
Proof.
  intros Hc Hl. cbn [ReadMessages_loop]. run_conn. rewrite Hc. run_conn.
  rewrite decide_False by done. run_conn. rewrite <- app_assoc. cbn [app].
  by destruct (MessageRegexp.FindStringSubmatch _).
Qed.

(** The bound on the turns of the loop is never reached: with more turns
    than there are unread lines, their number does not matter. *)
Lemma ReadMessages_loop_fuel : ∀ k c n m msgs,
  (length (inbox c) ≤ k)%nat → (length (inbox c) < n)%nat → (length (inbox c) < m)%nat →
  ReadMessages_loop n msgs c = ReadMessages_loop m msgs c.
Proof.
  induction k as [|k IH]; intros c n m msgs Hk Hn Hm;
    (destruct n as [|n]; [lia|]); (destruct m as [|m]; [lia|]);
    destruct (inbox c) as [|l1 rest] eqn:Hc; cbn [length] in *; try lia.
  - cbn [ReadMessages_loop]. run_conn. by rewrite Hc.
  - cbn [ReadMessages_loop]. run_conn. by rewrite Hc.
  - destruct (decide (l1 = "OK")) as [->|Hl].
    { cbn [ReadMessages_loop]. run_conn. rewrite Hc. run_conn. by rewrite !decide_True. }
    destruct rest as [|l2 rest].
    + cbn [ReadMessages_loop]. run_conn. rewrite Hc. run_conn.
      rewrite !decide_False by done. run_conn.
      destruct (MessageRegexp.FindStringSubmatch _); [|done].
      apply IH; cbn [inbox length] in *; lia.
    + rewrite !(ReadMessages_loop_pair _ _ _ _ _ _ Hc Hl). cbn zeta.
      destruct (MessageRegexp.FindStringSubmatch _); [|done].
      apply IH; cbn [inbox length] in *; lia.
Qed.

(** The loop on well-formed messages followed by anything. *)
Lemma ReadMessages_loop_messages sent : ∀ turns msgs c tail,
  Forall (λ m, plain (Channel m) ∧ plain (Message m)) sent →
  (length sent ≤ turns)%nat →
  inbox c = concat (message_lines <$> sent) ++ tail →
  ReadMessages_loop turns msgs c =
    ReadMessages_loop (turns - length sent) (msgs ++ sent)
      (mkConn tail (nextId c) (wfail c)
         (trace c ++ (EvRead <$> concat (message_lines <$> sent)))).
Proof.
  induction sent as [|[name body] sent IH]; intros turns msgs c tail Hs Hn Hc.
  - cbn in *. rewrite !app_nil_r, Nat.sub_0_r. by destruct c; cbn in *; subst.
  - apply Forall_cons in Hs as [[Hname Hbody] Hs]. cbn [Channel Message] in *.
    destruct turns as [|turns]; [cbn in Hn; lia|].
    rewrite (ReadMessages_loop_pair turns msgs c ("channel: " +:+ name)
               ("message: " +:+ body) (concat (message_lines <$> sent) ++ tail)); [|done|done].
    cbn zeta. rewrite FindStringSubmatch_message by done. cbn [nth].
    rewrite (IH turns _ _ tail) by (done || cbn in Hn; lia).
    cbn [nextId wfail trace length Nat.sub]. rewrite <- !app_assoc. done.
Qed.

Lemma length_message_lines sent :
  length (concat (message_lines <$> sent)) = (2 * length sent)%nat.
Proof. induction sent as [|m sent IH]; [done|]. cbn in *. lia. Qed.

(** X8. Messages whose channel names and bodies are not empty and hold
    no newline come back from [ReadMessages] as they were sent, in
    order, whatever else they hold; the reply is read up to its OK line
    and no further. *)
Theorem ReadMessages_round_trip sent rest c :
  wfail c = [] →
  Forall (λ m, plain (Channel m) ∧ plain (Message m)) sent →
  inbox c = concat (message_lines <$> sent) ++ "OK" :: rest →
  ∃ c', ReadMessages c = (Done (sent, None), c') ∧ inbox c' = rest ∧
        commands (trace c') = commands (trace c) ++ ["noidle"; "readmessages"].
Proof.
  intros Hw Hs Hc. unfold ReadMessages, bind at 1. rewrite (Cmd_ok _ _ Hw).
  unfold bracket. run_conn. run_conn.
  rewrite (ReadMessages_loop_messages sent _ [] _ ("OK" :: rest) Hs); [| |done].
  2: { rewrite Hc, length_app, length_message_lines. lia. }
  cbn [nextId wfail trace app].
  destruct (S (length (inbox c)) - length sent)%nat as [|turns] eqn:Hturns.
  { rewrite Hc, length_app, length_message_lines in Hturns. lia. }
  cbn [ReadMessages_loop]. run_conn. rewrite decide_True by done. run_conn.
  eexists. split; [done|]. split; [done|]. cbn [trace].
  rewrite !commands_app. cbn [commands].
  assert (∀ lines, commands (EvRead <$> lines) = []) as ->
    by (intros lines; induction lines; done).
  by rewrite !app_nil_r.
Qed.

Lemma ReadMessages_round_trip_witness :
  ∃ c',
    ReadMessages (mkConn ["channel: news"; "message: channel: x"; "channel: a b";
                          "message: OK"; "OK"; "next"] 0 [] [])
      = (Done ([mkChannelMessage "news" "channel: x"; mkChannelMessage "a b" "OK"], None), c') ∧
    inbox c' = ["next"] ∧
    commands (trace c') = [] ++ ["noidle"; "readmessages"].
Proof.
  apply (ReadMessages_round_trip
           [mkChannelMessage "news" "channel: x"; mkChannelMessage "a b" "OK"] ["next"]
           (mkConn ["channel: news"; "message: channel: x"; "channel: a b";
                    "message: OK"; "OK"; "next"] 0 [] [])).
  - reflexivity.
  - repeat constructor; done.
  - reflexivity.
Defined.

(** X9. After messages that were well formed: a pair of lines that the
    pattern does not match makes [ReadMessages] return no message at
    all, with an error that quotes the two lines; the end of the stream
    where a channel line is due makes it return the messages read so
    far, with the error of the transport. *)
Theorem ReadMessages_failures sent c :
  wfail c = [] →
  Forall (λ m, plain (Channel m) ∧ plain (Message m)) sent →
  (∀ l1 l2 rest,
     l1 ≠ "OK" →
     MessageRegexp.FindStringSubmatch (l1 +:+ String GoString.newline l2) = None →
     inbox c = concat (message_lines <$> sent) ++ l1 :: l2 :: rest →
     ∃ c', ReadMessages c =
             (Done ([], Some (errors_New
                ("ReadMessages: bad channel/message response: " +:+ l1 +:+ "," +:+ l2))), c') ∧
           inbox c' = rest) ∧
  (inbox c = concat (message_lines <$> sent) →
     ∃ c', ReadMessages c = (Done (sent, Some (io_error "EOF")), c') ∧ inbox c' = []).
Proof.
  intros Hw Hs.
  assert (∀ tail, inbox c = concat (message_lines <$> sent) ++ tail →
    ∃ turns c1, inbox c1 = tail ∧
      ReadMessages c =
        (let '(r, c') := ReadMessages_loop (S turns) sent c1 in
         (r, log c' [EvEndResponse (S (nextId c))]))) as Hloop.
  { intros tail Hc. unfold ReadMessages, bind at 1. rewrite (Cmd_ok _ _ Hw).
    unfold bracket. run_conn. run_conn.
    rewrite (ReadMessages_loop_messages sent _ [] _ tail Hs); [| |done].
    2: { rewrite Hc, length_app, length_message_lines. lia. }
    cbn [nextId wfail trace app].
    destruct (S (length (inbox c)) - length sent)%nat as [|turns] eqn:Hturns.
    { rewrite Hc, length_app, length_message_lines in Hturns. lia. }
    eexists turns, _. split; [|reflexivity]. done. }
  split.
  - intros l1 l2 rest Hl Hno Hc.
    destruct (Hloop _ Hc) as (turns & c1 & Hc1 & ->).
    rewrite (ReadMessages_loop_pair turns sent c1 l1 l2 rest Hc1 Hl). cbn zeta.
    rewrite Hno. by eexists.
  - intros Hc. rewrite <- (app_nil_r (concat _)) in Hc.
    destruct (Hloop _ Hc) as (turns & c1 & Hc1 & ->).
    cbn [ReadMessages_loop]. run_conn. rewrite Hc1. run_conn. by eexists.
Qed.

Lemma ReadMessages_failures_witness :
  (∃ c', ReadMessages (mkConn ["channel: news"; "message: hi"; "channel: news";
                               "message: "; "OK"] 0 [] [])
           = (Done ([], Some (errors_New
                "ReadMessages: bad channel/message response: channel: news,message: ")), c') ∧
         inbox c' = ["OK"]) ∧
  (∃ c', ReadMessages (mkConn ["channel: news"; "message: hi"] 0 [] [])
           = (Done ([mkChannelMessage "news" "hi"], Some (io_error "EOF")), c') ∧
         inbox c' = []).
Proof.
  split.
  - refine (proj1 (ReadMessages_failures [mkChannelMessage "news" "hi"]
                     (mkConn ["channel: news"; "message: hi"; "channel: news";
                              "message: "; "OK"] 0 [] []) eq_refl _)
              "channel: news" "message: " ["OK"] _ _ _).
    + repeat constructor; done.
    + done.
    + vm_compute. reflexivity.
    + reflexivity.
  - refine (proj2 (ReadMessages_failures [mkChannelMessage "news" "hi"]
                     (mkConn ["channel: news"; "message: hi"] 0 [] []) eq_refl _) _).
    + repeat constructor; done.
    + reflexivity.
Defined.

(** ** Stickers: what the reply is taken for *)

Lemma StickerGet_EOF stype uri stickerName c :
  wfail c = [] → inbox c = [] →
  StickerGet stype uri stickerName c =
    (Done ("", None),
     log (in_response (stickerGetCommand stype uri stickerName) c)
       [EvReadError; EvEndResponse (S (nextId c))]).
Proof.
  intros Hw Hc. unfold StickerGet, bind at 1. rewrite (Cmd_ok _ _ Hw).
  unfold bracket. run_conn. rewrite Hc. run_conn.
  change (Regexp.FindStringSubmatch "") with (@None (list string)).
  change (isMPDError "") with false. cbn [negb]. run_conn. by rewrite <- !app_assoc.
Qed.

(** X10. The value [StickerGet] returns is what follows the last equals
    sign of the reply line: a value that holds an equals sign comes back
    cut down to what follows its last one. *)
Theorem StickerGet_value_after_last_equals stype uri stickerName c name v1 v2 rest :
  wfail c = [] → name ≠ EmptyString →
  no_char GoString.newline name = true →
  no_char GoString.newline v1 = true → no_char GoString.newline v2 = true →
  no_char "=" v2 = true →
  inbox c = sticker_line name (v1 +:+ "=" +:+ v2) :: "OK" :: rest →
  ∃ c', StickerGet stype uri stickerName c = (Done (v2, None), c') ∧ inbox c' = rest.
Proof.
  intros Hw Hname Hn H1 H2 He Hc.
  assert (sticker_line name (v1 +:+ "=" +:+ v2) = sticker_line (name +:+ "=" +:+ v1) v2)
    as Hline.
  { unfold sticker_line. by rewrite !append_assoc. }
  rewrite Hline in Hc.
  rewrite (StickerGet_first_line _ _ _ _ _ _ Hw Hc). cbn zeta.
  rewrite FindStringSubmatch_sticker_line; [|by destruct name|..|done|done].
  - rewrite decide_False by (intros H; by apply H). by eexists.
  - rewrite !no_char_app, Hn, H1. done.
Qed.

Lemma StickerGet_value_after_last_equals_witness :
  ∃ c', StickerGet "song" "a.mp3" "comment"
          (mkConn ["sticker: comment=rating=5"; "OK"] 0 [] []) = (Done ("5", None), c') ∧
        inbox c' = [].
Proof.
  apply (StickerGet_value_after_last_equals "song" "a.mp3" "comment"
           (mkConn ["sticker: comment=rating=5"; "OK"] 0 [] []) "comment" "rating" "5" []);
    done.
Defined.

(** X11. When the stream has ended, [StickerGet] reports neither a value
    nor an error: the failure of its read is lost. [incSongPlayCount]
    then takes the song for one never played, sends the command that
    sets its counter to 1, and returns 1 with the error of
    [StickerSet]. *)
Theorem StickerGet_swallows_end_of_stream stype uri stickerName songInfo c :
  wfail c = [] → inbox c = [] →
  (∃ c', StickerGet stype uri stickerName c = (Done ("", None), c') ∧
         EvReadError ∈ trace c') ∧
  (∃ c', incSongPlayCount songInfo c =
           (Done (1, Some (errors_New "StickerSet: ")), c') ∧
         commands (trace c') =
           commands (trace c) ++
           ["noidle";
            stickerGetCommand StickerSongType (info_get songInfo "file") playcountSticker;
            "noidle";
            stickerSetCommand StickerSongType (info_get songInfo "file") playcountSticker "1"]).
Proof.
  intros Hw Hc. split.
  - rewrite (StickerGet_EOF _ _ _ _ Hw Hc). eexists. split; [done|].
    unfold log. cbn [trace]. set_solver.
  - rewrite (incSongPlayCount_after_get _ _ _ _ (StickerGet_EOF _ _ _ _ Hw Hc)).
    rewrite decide_True by done.
    change (Atoi "0") with (0, @None error). cbn beta iota.
    change (Itoa (GoInt.int_add 0 1)) with "1".
    change (GoInt.int_add 0 1) with 1.
    rewrite StickerSet_first_line by done. cbn zeta. unfold in_response at 1, log at 1.
    cbn [inbox]. unfold after_Cmd at 1. cbn [inbox]. rewrite Hc.
    eexists. split; [done|]. run_conn. rewrite !commands_app. cbn [commands].
    by rewrite !app_nil_r, <- !app_assoc.
Qed.

Lemma StickerGet_swallows_end_of_stream_witness :
  (∃ c', StickerGet "song" "a.mp3" "playcount" (mkConn [] 0 [] []) = (Done ("", None), c') ∧
         EvReadError ∈ trace c') ∧
  (∃ c', incSongPlayCount {["file" := "a.mp3"]} (mkConn [] 0 [] []) =
           (Done (1, Some (errors_New "StickerSet: ")), c') ∧
         commands (trace c') =
           [] ++
           ["noidle";
            stickerGetCommand StickerSongType (info_get {["file" := "a.mp3"]} "file")
              playcountSticker;
            "noidle";
            stickerSetCommand StickerSongType (info_get {["file" := "a.mp3"]} "file")
              playcountSticker "1"]).
Proof.
  apply (StickerGet_swallows_end_of_stream "song" "a.mp3" "playcount"
           {["file" := "a.mp3"]} (mkConn [] 0 [] [])); reflexivity.
Defined.

(** X12. [StickerGet] does not look at which sticker the reply names:
    what it returns, and what it leaves unread, are the same for any
    two requests on the same reply. *)
Theorem StickerGet_ignores_reply_name stype uri stickerName stype' uri' stickerName' c :
  wfail c = [] →
  (StickerGet stype uri stickerName c).1 = (StickerGet stype' uri' stickerName' c).1 ∧
  inbox (StickerGet stype uri stickerName c).2 =
    inbox (StickerGet stype' uri' stickerName' c).2.
Proof.
  intros Hw. destruct (inbox c) as [|line rest] eqn:Hc.
  - by rewrite !StickerGet_EOF.
  - rewrite !(StickerGet_first_line _ _ _ _ _ _ Hw Hc). cbn zeta.
    destruct (Regexp.FindStringSubmatch line); [|done].
    by destruct rest.
Qed.

Lemma StickerGet_ignores_reply_name_witness :
  (StickerGet "song" "a.mp3" "playcount" (mkConn ["sticker: rating=5"; "OK"] 0 [] [])).1
    = Done ("5", None) ∧
  (StickerGet "song" "a.mp3" "playcount" (mkConn ["sticker: rating=5"; "OK"] 0 [] [])).1
    = (StickerGet "song" "b.mp3" "rating" (mkConn ["sticker: rating=5"; "OK"] 0 [] [])).1.
Proof.
  split; [reflexivity|].
  apply (StickerGet_ignores_reply_name "song" "a.mp3" "playcount" "song" "b.mp3" "rating"
           (mkConn ["sticker: rating=5"; "OK"] 0 [] [])).
  reflexivity.
Defined.

(** X13. The arguments of a sticker command are put between double
    quotes as they are: a double quote inside an argument ends it on the
    wire, and different requests are written as the same line. *)
Theorem sticker_commands_not_escaped stype x y z value :
  let q := GoString.dquote in
  stickerGetCommand stype (x +:+ q +:+ " " +:+ q +:+ y) z =
    stickerGetCommand stype x (y +:+ q +:+ " " +:+ q +:+ z) ∧
  stickerSetCommand stype (x +:+ q +:+ " " +:+ q +:+ y) z value =
    stickerSetCommand stype x (y +:+ q +:+ " " +:+ q +:+ z) value ∧
  x +:+ q +:+ " " +:+ q +:+ y ≠ x.
Proof.
  intros q. unfold stickerGetCommand, stickerSetCommand, GoString.quoted. fold q.
  split; [|split].
  - by rewrite !append_assoc.
  - by rewrite !append_assoc.
  - intros H. apply (f_equal String.length) in H.
    rewrite !length_append in H. cbn in H. lia.
Qed.

(** ** Subscriptions over the rounds *)

Lemma on_ch_send_closed subsystem sub :
  closed (ch sub) = true →
  send_and_close subsystem sub = (Panic "send on closed channel", sub).
Proof.
  intros Hc. unfold send_and_close, bind, on_ch, chan_send. rewrite Hc.
  by destruct sub.
Qed.

Lemma notify_wanted_closed subsystem sub : ∀ wanted,
  closed (ch sub) = true →
  (notify_wanted wanted subsystem sub).2 = sub ∧
  ((notify_wanted wanted subsystem sub).1 = Done tt ∨
   (notify_wanted wanted subsystem sub).1 = Panic "send on closed channel").
Proof.
  intros wanted Hc. induction wanted as [|w wanted IH]; [by split; [|left]|].
  cbn [notify_wanted]. unfold bind. case_decide.
  - rewrite on_ch_send_closed by done. split; [done|by right].
  - unfold ret. exact IH.
Qed.

Lemma notify_wanted_open subsystem sub : ∀ wanted,
  closed (ch sub) = false →
  (subsystem ∉ wanted ∧ notify_wanted wanted subsystem sub = (Done tt, sub)) ∨
  (subsystem ∈ wanted ∧ (notify_wanted wanted subsystem sub).2 = fulfilled subsystem sub ∧
   ((notify_wanted wanted subsystem sub).1 = Done tt ∨
    (notify_wanted wanted subsystem sub).1 = Panic "send on closed channel")).
Proof.
  intros wanted Ho. induction wanted as [|w wanted IH].
  - left. split; [set_solver|done].
  - cbn [notify_wanted]. unfold bind. case_decide as Hw.
    + right. split; [set_solver|]. rewrite send_and_close_open by done.
      by apply notify_wanted_closed.
    + unfold ret. destruct IH as [[Hin ->]|(Hin & ? & ?)].
      * left. split; [set_solver|done].
      * right. split; [set_solver|done].
Qed.

Lemma notify_delivers subsystem sub :
  ((notify subsystem sub).2 = sub ∨
   (active sub = true ∧ closed (ch sub) = false ∧
    interested subsystem sub = true ∧
    (notify subsystem sub).2 = fulfilled subsystem sub)) ∧
  ((notify subsystem sub).1 = Done tt ∨
   (notify subsystem sub).1 = Panic "send on closed channel").
Proof.
  unfold notify. destruct (active sub) eqn:Ha; [|by split; left].
  destruct (closed (ch sub)) eqn:Hc.
  - destruct (length (subsystems sub) =? 0)%nat.
    + rewrite on_ch_send_closed by done. split; [by left|by right].
    + destruct (notify_wanted_closed subsystem sub (subsystems sub) Hc) as [-> ?].
      split; [by left|done].
  - destruct (length (subsystems sub) =? 0)%nat eqn:Hlen.
    + rewrite send_and_close_open by done. split; [|by left]. right.
      apply Nat.eqb_eq, nil_length_inv in Hlen.
      split; [done|]. split; [done|]. split; [|done].
      unfold interested. rewrite bool_decide_eq_true. by left.
    + destruct (notify_wanted_open subsystem sub (subsystems sub) Hc)
        as [[_ ->]|(Hin & -> & ?)].
      * split; [by left|by left].
      * split; [|done]. right.
        split; [done|]. split; [done|]. split; [|done].
        unfold interested. rewrite bool_decide_eq_true. by right.
Qed.

Lemma dispatch_delivered_once subsystem subs :
  Forall2 delivered_once subs (dispatch subsystem subs).2.
Proof.
  induction subs as [|sub subs IH]; [constructor|].
  cbn [dispatch]. destruct (notify_delivers subsystem sub) as [Hsub _].
  assert (delivered_once sub (notify subsystem sub).2) as Hd.
  { destruct Hsub as [->|(? & ? & ? & ->)]; [by left|]. right. by exists subsystem. }
  destruct (notify subsystem sub) as [[[]|msg] sub']; cbn [snd] in *.
  - destruct (dispatch subsystem subs) as [r subs'']. by constructor.
  - constructor; [done|]. clear. induction subs; constructor; [by left|done].
Qed.

(** X14. A round of dispatch changes a subscription in one way only: by
    its one delivery, of the name dispatched, to a subscription that
    was active, had its channel open and is interested in the name. It
    keeps the number and the order of the subscriptions, and the only
    panic it can end in is that of a send on a closed channel. *)
Theorem dispatch_delivers_once subsystem subs :
  Forall2 (λ sub sub',
             sub' = sub ∨
             (active sub = true ∧ closed (ch sub) = false ∧
              interested subsystem sub = true ∧ sub' = fulfilled subsystem sub))
    subs (dispatch subsystem subs).2 ∧
  ((dispatch subsystem subs).1 = Done tt ∨
   (dispatch subsystem subs).1 = Panic "send on closed channel").
Proof.
  induction subs as [|sub subs IH]; [by split; [constructor|left]|].
  cbn [dispatch]. destruct (notify_delivers subsystem sub) as [Hsub Hr].
  destruct (notify subsystem sub) as [[[]|msg] sub'] eqn:Hn; cbn [fst snd] in *.
  - destruct IH as [IH1 IH2]. destruct (dispatch subsystem subs) as [r subs''].
    cbn [fst snd] in *. split; [|done]. constructor; [|done].
    destruct Hsub as [->|(? & ? & ? & ->)]; [by left|by right].
  - split; [|done]. constructor.
    + destruct Hsub as [->|(? & ? & ? & ->)]; [by left|by right].
    + clear. induction subs; constructor; [by left|done].
Qed.

Lemma delivered_once_trans a b c :
  delivered_once a b → delivered_once b c → delivered_once a c.
Proof.
  intros [->|(name & Ha & Hc & Hi & ->)]; [done|].
  intros [->|(name' & Ha' & _)]; [|done]. right. by exists name.
Qed.

Lemma Forall2_delivered_once_refl subs : Forall2 delivered_once subs subs.
Proof. induction subs; constructor; [by left|done]. Qed.

Lemma Forall2_delivered_once_trans a : ∀ b c,
  Forall2 delivered_once a b → Forall2 delivered_once b c → Forall2 delivered_once a c.
Proof.
  intros b c Hab. revert c. induction Hab as [|x y a b Hxy Hab IH]; intros c Hbc.
  - by inversion Hbc.
  - inversion Hbc as [|? z ? c' Hyz Hbc']; subst. constructor; [|by apply IH].
    by eapply delivered_once_trans.
Qed.

Lemma on_conn_subscriptions {A} (m : M A) cl :
  subscriptions (on_conn m cl).2 = subscriptions cl.
Proof. unfold on_conn. by destruct (m (conn cl)). Qed.

Lemma idle_round_delivered_once cl :
  Forall2 delivered_once (subscriptions cl) (subscriptions (idle_round cl).2).
Proof.
  unfold idle_round, bind.
  pose proof (on_conn_subscriptions (conn_Cmd "idle") cl) as H1.
  destruct (on_conn (conn_Cmd "idle") cl) as [[[id [e|]]|msg] cl1]; cbn [snd] in *;
    try (unfold lift; cbn [snd]; rewrite H1; apply Forall2_delivered_once_refl).
  pose proof (on_conn_subscriptions (conn_StartResponse id) cl1) as H2.
  destruct (on_conn (conn_StartResponse id) cl1) as [[[]|msg] cl2]; cbn [snd] in *;
    try (rewrite H2, H1; apply Forall2_delivered_once_refl).
  pose proof (on_conn_subscriptions (fillInfoUntilOK ∅) cl2) as H3.
  destruct (on_conn (fillInfoUntilOK ∅) cl2) as [[[info err]|msg] cl3]; cbn [snd] in *;
    try (rewrite H3, H2, H1; apply Forall2_delivered_once_refl).
  pose proof (on_conn_subscriptions (conn_EndResponse id) cl3) as H4.
  destruct (on_conn (conn_EndResponse id) cl3) as [[[]|msg] cl4]; cbn [snd] in *;
    try (rewrite H4, H3, H2, H1; apply Forall2_delivered_once_refl).
  assert (subscriptions cl4 = subscriptions cl) as Hs by congruence.
  destruct err as [e|]; [unfold lift; cbn [snd]; rewrite Hs;
                         apply Forall2_delivered_once_refl|].
  destruct (info !! "changed") as [subsystem|];
    [|unfold ret; cbn [snd]; rewrite Hs; apply Forall2_delivered_once_refl].
  unfold on_subscriptions.
  pose proof (dispatch_delivered_once subsystem (subscriptions cl4)) as Hd.
  destruct (dispatch subsystem (subscriptions cl4)) as [r l]. cbn [snd subscriptions] in *.
  by rewrite <- Hs.
Qed.

Lemma idle_delivered_once wakes : ∀ cl,
  Forall2 delivered_once (subscriptions cl) (subscriptions (idle wakes cl).2).
Proof.
  induction wakes as [|w wakes IH]; intros cl; cbn [idle];
    pose proof (idle_round_delivered_once cl) as Hr;
    destruct (idle_round cl) as [[[]|msg] cl']; cbn [snd] in *; try done.
  destruct w; cbn [snd]; [done|].
  eapply Forall2_delivered_once_trans; [exact Hr|apply IH].
Qed.

(** X15. The life of a subscription. [Idle] puts the new subscription
    after those there are, and the channel it returns is the one at
    that position; whatever rounds of [idle] follow, and however they
    end, the subscription stays at that position, and it is either as
    it was made, or closed and inactive after exactly one delivery, of
    a name it is interested in. No subscription ever gets a second
    delivery. *)
Theorem Idle_subscription_delivered_once subs cl wakes :
  let n := length (subscriptions cl) in
  let cl1 := (Idle subs cl).2 in
  let cl2 := (idle wakes cl1).2 in
  (Idle subs cl).1 = Done n ∧
  subscriptions cl1 = subscriptions cl ++ [fresh subs] ∧
  Forall2 delivered_once (subscriptions cl1) (subscriptions cl2) ∧
  (subscriptions cl2 !! n = Some (fresh subs) ∨
   ∃ name, (subs = [] ∨ name ∈ subs) ∧
           subscriptions cl2 !! n = Some (mkSub (mkChan [name] true) false subs)).
Proof.
  intros n cl1 cl2. split; [done|]. split; [done|].
  pose proof (idle_delivered_once wakes cl1) as H. split; [exact H|].
  fold cl2 in H. change (subscriptions cl1) with (subscriptions cl ++ [fresh subs]) in H.
  apply Forall2_app_inv_l in H as (l1 & l2 & H1 & H2 & Heq).
  apply Forall2_length in H1. inversion H2 as [|? sub' ? ? Hd Hnil]; subst.
  inversion Hnil; subst. rewrite Heq.
  rewrite lookup_app_r by (fold n; lia). replace (n - length l1)%nat with 0%nat by (fold n; lia).
  destruct Hd as [->|(name & _ & _ & Hi & ->)]; [by left|].
  right. exists name. split; [|done].
  unfold interested in Hi. by rewrite bool_decide_eq_true in Hi.
Qed.

(** ** A round of [idle], from the reply to the subscribers *)

Lemma idle_round_reply cl (kvs : list (string * string)) rest :
  wfail (conn cl) = [] →
  Forall (λ kv, reply_key kv.1) kvs →
  inbox (conn cl) = (reply_line <$> kvs) ++ "OK" :: rest →
  ∃ c', inbox c' = rest ∧
    idle_round cl =
      match add_pairs ∅ kvs !! "changed" with
      | Some subsystem =>
          let '(r, l) := dispatch subsystem (subscriptions cl) in
          (r, mkClient (Host cl) (Port cl) c' l)
      | None => (Done tt, mkClient (Host cl) (Port cl) c' (subscriptions cl))
      end.
Proof.
  intros Hw Hk Hc. unfold idle_round, bind, on_conn.
  rewrite (conn_Cmd_ok _ _ Hw). unfold conn_StartResponse, conn_EndResponse, log.
  cbn [conn Host Port subscriptions inbox nextId wfail trace].
  rewrite (fillInfoUntilOK_pairs kvs ∅ _ ("OK" :: rest)) by done.
  rewrite (fillInfoUntilOK_OK _ _ rest) by done.
  cbn [conn Host Port subscriptions inbox nextId wfail trace].
  eexists. split; [|destruct (add_pairs ∅ kvs !! "changed"); reflexivity]. done.
Qed.

(** X16. A round of [idle] on a well-formed reply. When the reply names
    several changes, only the last one is dispatched. When no interest
    repeats a name, the round does not panic, and every subscription
    that is active and interested in that last name gets its one
    delivery and is closed, while the others stay as they were. *)
Theorem idle_round_dispatches_last_change cl kvs subsystem kvs' rest :
  wfail (conn cl) = [] →
  Forall (λ kv, reply_key kv.1) (kvs ++ ("changed", subsystem) :: kvs') →
  "changed" ∉ kvs'.*1 →
  inbox (conn cl) = (reply_line <$> kvs ++ ("changed", subsystem) :: kvs') ++ "OK" :: rest →
  Forall sub_ok (subscriptions cl) →
  Forall (λ sub, NoDup (subsystems sub)) (subscriptions cl) →
  ∃ c', idle_round cl =
          (Done tt, mkClient (Host cl) (Port cl) c'
                      (one_shot subsystem <$> subscriptions cl)) ∧
        inbox c' = rest.
Proof.
  intros Hw Hk Hlast Hc Hok Hnd.
  destruct (idle_round_reply cl _ rest Hw Hk Hc) as (c' & Hin & ->).
  rewrite (add_pairs_app ∅ kvs (("changed", subsystem) :: kvs')). cbn [add_pairs foldl].
  fold (add_pairs (<["changed" := subsystem]> (add_pairs ∅ kvs)) kvs').
  rewrite add_pairs_other by done. rewrite lookup_insert_eq.
  rewrite dispatch_one_shot by done. by exists c'.
Qed.

Lemma idle_round_dispatches_last_change_witness :
  let player := mkSub (mkChan [] false) true ["player"] in
  let mixer := mkSub (mkChan [] false) true ["mixer"; "options"] in
  let any := mkSub (mkChan [] false) true [] in
  let cl := mkClient "localhost" 6600
              (mkConn ["changed: player"; "changed: mixer"; "OK"] 0 [] [])
              [player; mixer; any] in
  ∃ c', idle_round cl =
          (Done tt, mkClient "localhost" 6600 c'
                      (one_shot "mixer" <$> [player; mixer; any])) ∧
        inbox c' = [].
Proof.
  intros player mixer any cl.
  apply (idle_round_dispatches_last_change cl [("changed", "player")] "mixer" [] []).
  - reflexivity.
  - repeat constructor.
  - set_solver.
  - reflexivity.
  - repeat constructor; done.
  - repeat constructor; set_solver.
Defined.

(** X17. A reply to [idle] that is cut short, or that holds a line
    without separator, ends the loop of [idle] whatever wake-ups would
    have come: the panic is recovered, the response is ended, and the
    subscriptions are neither served nor closed. *)
Theorem idle_ends_on_bad_reply wakes cl (kvs : list (string * string)) :
  wfail (conn cl) = [] →
  Forall (λ kv, reply_key kv.1) kvs →
  (inbox (conn cl) = reply_line <$> kvs →
     (idle wakes cl).1 = ExitRecovered "EOF" ∧
     subscriptions (idle wakes cl).2 = subscriptions cl ∧
     last (trace (conn (idle wakes cl).2)) = Some (EvEndResponse (nextId (conn cl)))) ∧
  (∀ bad rest,
     bad ≠ "OK" → GoString.Index bad infoFieldSep = -1 →
     inbox (conn cl) = (reply_line <$> kvs) ++ bad :: rest →
     (idle wakes cl).1 = ExitRecovered ("Invalid input: " +:+ bad) ∧
     subscriptions (idle wakes cl).2 = subscriptions cl ∧
     inbox (conn (idle wakes cl).2) = rest ∧
     last (trace (conn (idle wakes cl).2)) = Some (EvEndResponse (nextId (conn cl)))).
Proof.
  intros Hw Hk. split.
  - intros Hc. rewrite <- (app_nil_r (reply_line <$> kvs)) in Hc.
    assert (∃ c', idle_round cl =
                    (Panic "EOF", mkClient (Host cl) (Port cl) c' (subscriptions cl)) ∧
                  last (trace c') = Some (EvEndResponse (nextId (conn cl)))) as (c' & Hr & Hl).
    { unfold idle_round, bind, on_conn.
      rewrite (conn_Cmd_ok _ _ Hw). unfold conn_StartResponse, conn_EndResponse, log.
      cbn [conn Host Port subscriptions inbox nextId wfail trace].
      rewrite (fillInfoUntilOK_pairs kvs ∅ _ []) by done.
      rewrite fillInfoUntilOK_EOF by done. unfold log, lift.
      cbn [conn Host Port subscriptions inbox nextId wfail trace error_text].
      eexists. split; [done|]. cbn [trace]. by rewrite last_snoc. }
    destruct wakes; cbn [idle]; rewrite Hr; by cbn [fst snd subscriptions conn].
  - intros bad rest Hbad Hsep Hc.
    assert (∃ c', idle_round cl =
                    (Panic ("Invalid input: " +:+ bad),
                     mkClient (Host cl) (Port cl) c' (subscriptions cl)) ∧
                  inbox c' = rest ∧
                  last (trace c') = Some (EvEndResponse (nextId (conn cl))))
      as (c' & Hr & Hin & Hl).
    { unfold idle_round, bind, on_conn.
      rewrite (conn_Cmd_ok _ _ Hw). unfold conn_StartResponse, conn_EndResponse, log.
      cbn [conn Host Port subscriptions inbox nextId wfail trace].
      rewrite (fillInfoUntilOK_pairs kvs ∅ _ (bad :: rest)) by done.
      rewrite (fillInfoUntilOK_line _ _ bad rest) by done. cbn zeta.
      rewrite AddInfo_no_separator by done. unfold lift.
      cbn [conn Host Port subscriptions inbox nextId wfail trace error_text].
      eexists. split; [done|]. cbn [trace inbox]. split; [done|]. by rewrite last_snoc. }
    destruct wakes; cbn [idle]; rewrite Hr; by cbn [fst snd subscriptions conn].
Qed.

Lemma idle_ends_on_bad_reply_witness :
  let waiting := mkSub (mkChan [] false) true ["player"] in
  let cl := mkClient "localhost" 6600
              (mkConn ["changed: player"; "oops"; "OK"] 0 [] []) [waiting] in
  (idle [WakeSignal; WakeSignal] cl).1 = ExitRecovered "Invalid input: oops" ∧
  subscriptions (idle [WakeSignal; WakeSignal] cl).2 = [waiting] ∧
  inbox (conn (idle [WakeSignal; WakeSignal] cl).2) = ["OK"] ∧
  last (trace (conn (idle [WakeSignal; WakeSignal] cl).2)) = Some (EvEndResponse 0).
Proof.
  intros waiting cl.
  refine (proj2 (idle_ends_on_bad_reply [WakeSignal; WakeSignal] cl
                   [("changed", "player")] eq_refl _) "oops" ["OK"] _ _ _).
  - repeat constructor.
  - done.
  - reflexivity.
  - reflexivity.
Defined.

(** ** Connect, in full *)

Lemma has_prefix_take_self n : ∀ s, GoString.has_prefix s (GoString.take n s) = true.
Proof.
  induction n as [|n IH]; intros [|a s]; cbn; [done..|].
  by rewrite Ascii.eqb_refl, IH.
Qed.

Lemma has_prefix_take_eq s p :
  GoString.has_prefix s p = true → GoString.take (String.length p) s = p.
Proof.
  intros H. rewrite (has_prefix_split _ _ H) at 1. apply take_app_length.
Qed.

(** X18. What [Connect] returns. The error of the dial, or of the first
    read, is passed on. A greeting of six characters or more gives a
    client when it starts with "OK MPD", and the error "MPD: not OK"
    when it does not; the client has no subscription, and the greeting
    is the only line read. A greeting shorter than six characters is a
    panic. *)
Theorem Connect_outcomes dial host port c :
  let addr := host +:+ ":" +:+ NilZero.string_of_uint (N.to_uint port) in
  (∀ e, dial network addr = (c, Some e) → Connect dial host port = Done (None, Some e)) ∧
  (dial network addr = (c, None) → inbox c = [] →
     Connect dial host port = Done (None, Some (io_error "EOF"))) ∧
  (∀ line rest, dial network addr = (c, None) → inbox c = line :: rest →
     ((String.length line < 6)%nat →
        Connect dial host port = Panic "slice bounds out of range") ∧
     ((6 ≤ String.length line)%nat → GoString.has_prefix line "OK MPD" = true →
        Connect dial host port =
          Done (Some (mkClient host port
                        (mkConn rest (nextId c) (wfail c) (trace c ++ [EvRead line])) []),
                None)) ∧
     ((6 ≤ String.length line)%nat → GoString.has_prefix line "OK MPD" = false →
        Connect dial host port = Done (None, Some (errors_New "MPD: not OK")))).
Proof.
  intros addr. split; [|split].
  - intros e Hd. unfold Connect. fold addr. by rewrite Hd.
  - intros Hd Hc. unfold Connect. fold addr. rewrite Hd. unfold conn_ReadLine.
    by rewrite Hc.
  - intros line rest Hd Hc. rewrite (Connect_greeting _ _ _ _ _ _ Hd Hc).
    split; [|split].
    + intros Hlen. unfold GoString.slice, GoString.len.
      rewrite (proj2 (Z.leb_gt 6 _)) by lia. by rewrite andb_false_r.
    + intros Hlen Hp. change 6 with (Z.of_nat 6). rewrite slice_prefix by done.
      assert (GoString.take 6 line = "OK MPD") as ->
        by exact (has_prefix_take_eq line "OK MPD" Hp).
      by rewrite decide_True.
    + intros Hlen Hp. change 6 with (Z.of_nat 6). rewrite slice_prefix by done.
      rewrite decide_False; [done|]. intros Heq.
      by rewrite <- Heq, has_prefix_take_self in Hp.
Qed.

Lemma Connect_outcomes_witness :
  let dial := λ (_ _ : string), (mkConn ["OK MPD 0.23.5"; "next"] 0 [] [], @None error) in
  Connect dial "localhost" 6600 =
    Done (Some (mkClient "localhost" 6600
                  (mkConn ["next"] 0 [] ([] ++ [EvRead "OK MPD 0.23.5"])) []), None).
Proof.
  intros dial.
  refine (proj1 (proj2 (proj2 (proj2 (Connect_outcomes dial "localhost" 6600
            (mkConn ["OK MPD 0.23.5"; "next"] 0 [] [])))
            "OK MPD 0.23.5" ["next"] eq_refl eq_refl)) _ _).
  - vm_compute. lia.
  - reflexivity.
Defined.

(** ** The update step: errors and panics *)

Section UpdateFacts.

Variable float64 : Type.
Variable ParseFloat : string → float64 * option error.
Variable int_of_float64 : float64 → Z.

Local Abbreviation Progress' := (Progress float64 ParseFloat int_of_float64).
Local Abbreviation played :=
  (λ prev, considerSongPlayed float64 ParseFloat int_of_float64 prev
             songPlayedThresholdSeconds).
Local Abbreviation checkSongChange' :=
  (checkSongChange float64 ParseFloat int_of_float64).
Local Abbreviation processStateUpdate' :=
  (processStateUpdate float64 ParseFloat int_of_float64).

Lemma Progress_panics (i : gmap string string) msg :
  Progress' i = Panic msg ↔
  msg = "slice bounds out of range" ∧
  ∃ t, i !! "time" = Some t ∧ GoString.index_of t ":" = None.
Proof.
  destruct (i !! "time") as [t|] eqn:Ht.
  - destruct (GoString.index_of t ":") as [n|] eqn:Hi.
    + rewrite (Progress_colon _ _ _ _ _ _ Ht Hi).
      split; [by destruct (ParseFloat _).2|]. intros [_ (t' & [= <-] & ?)]. congruence.
    + rewrite (Progress_no_colon _ _ _ _ _ Ht Hi). split.
      * intros [= <-]. split; [done|]. by exists t.
      * by intros [-> _].
  - rewrite (Progress_no_time _ _ _ _ Ht). split; [done|]. by intros [_ (t & ? & _)].
Qed.

Lemma played_panics (st : gmap string string) msg :
  played st = Panic msg ↔ Progress' st = Panic msg.
Proof.
  unfold considerSongPlayed. destruct (Progress' st) as [[current total]|msg'];
    cbn [outcome_bind]; [|by split; intros [= ->]].
  by destruct ((total =? 0) || (current =? 0)).
Qed.

(** What [checkSongChange] returns once [Status] has answered. *)
Lemma checkSongChange_cases sti c :
  wfail c = [] →
  ∃ info err c1, Status c = (Done (info, err), c1) ∧ wfail c1 = [] ∧
    ∀ r c', checkSongChange' sti c = (r, c') →
      wfail c' = [] ∧
      match r with
      | Panic msg =>
          err = None ∧ c' = c1 ∧
          info_get info "songid" ≠ info_get (StatusInfo sti) "songid" ∧
          played (StatusInfo sti) = Panic msg
      | Done (sti', Some e) =>
          sti' = sti ∧
          (err = Some e ∨
           (err = None ∧
            info_get info "songid" ≠ info_get (StatusInfo sti) "songid" ∧
            played (StatusInfo sti) = Done true))
      | Done (sti', None) =>
          err = None ∧ sti' = mkSongStatusInfo info (SongInfo sti)
      end.
Proof.
  intros Hw. destruct (Status c) as [rs c1] eqn:HS.
  destruct (infoCommand_frame _ _ _ _ Hw HS) as ([[info err] ->] & Hw1 & _).
  exists info, err, c1. split; [done|]. split; [done|]. intros r c'.
  destruct err as [e|].
  - rewrite (checkSongChange_Status_error _ _ _ _ _ _ _ _ HS). intros [= <- <-].
    split; [done|]. split; [done|]. by left.
  - rewrite (checkSongChange_run _ _ _ _ _ _ _ HS).
    destruct (decide _) as [Hid|Hid]; [|by intros [= <- <-]].
    destruct (played (StatusInfo sti)) as [[|]|msg] eqn:Hp; try (by intros [= <- <-]).
    destruct (incSongPlayCount (SongInfo sti) c1) as [ri ci] eqn:Hinc.
    destruct (incSongPlayCount_frame _ _ _ _ Hw1 Hinc) as ([[count e] ->] & Hwi & _).
    destruct e; intros [= <- <-]; (split; [done|]); [|done].
    split; [done|]. by right.
Qed.

(** X19. A failed update changes little. When [checkSongChange] returns
    an error, the tracker's state is as it was before the call, so that
    a count that could not be stored is due again at the next call.
    When [processStateUpdate] returns an error, the song it holds is
    the one it held before. *)
Theorem failed_update_keeps_state sti c :
  wfail c = [] →
  (∀ sti' e c', checkSongChange' sti c = (Done (sti', Some e), c') → sti' = sti) ∧
  (∀ sti' c', checkSongChange' sti c = (Done (sti', None), c') →
     SongInfo sti' = SongInfo sti ∧ ∃ c1, Status c = (Done (StatusInfo sti', None), c1)) ∧
  (∀ sti' e c', processStateUpdate' sti c = (Done (sti', Some e), c') →
     SongInfo sti' = SongInfo sti).
Proof.
  intros Hw.
  destruct (checkSongChange_cases sti c Hw) as (info & err & c1 & HS & Hw1 & Hcheck).
  split; [|split].
  - intros sti' e c' Hrun. by destruct (Hcheck _ _ Hrun) as (_ & -> & _).
  - intros sti' c' Hrun. destruct (Hcheck _ _ Hrun) as (_ & -> & ->).
    split; [done|]. by exists c1.
  - intros sti' e c'. rewrite processStateUpdate_run.
    destruct (checkSongChange' sti c) as [[[sti1 [e1|]]|msg] c2] eqn:Hc; [| |done].
    + intros [= <- <- <-]. by destruct (Hcheck _ _ eq_refl) as (_ & -> & _).
    + destruct (Hcheck _ _ eq_refl) as (_ & _ & ->). rewrite updateSongInfo_run.
      destruct (CurrentSong c2) as [[[songInfo [e2|]]|msg] c3]; [|done..].
      by intros [= <- <- <-].
Qed.

(** X20. The update step panics in one case only, when its writes go
    through: the status names another song than the one before, and
    the time of the status held from before has no colon. *)
Theorem processStateUpdate_panics_iff sti c :
  wfail c = [] →
  (∃ msg c', processStateUpdate' sti c = (Panic msg, c')) ↔
  (∃ info c1 t,
     Status c = (Done (info, None), c1) ∧
     info_get info "songid" ≠ info_get (StatusInfo sti) "songid" ∧
     StatusInfo sti !! "time" = Some t ∧ GoString.index_of t ":" = None).
Proof.
  intros Hw.
  destruct (checkSongChange_cases sti c Hw) as (info & err & c1 & HS & Hw1 & Hcheck).
  split.
  - intros (msg & c' & Hrun). rewrite processStateUpdate_run in Hrun.
    destruct (checkSongChange' sti c) as [[[sti1 [e1|]]|msg1] c2] eqn:Hc.
    + done.
    + destruct (Hcheck _ _ eq_refl) as (Hw2 & _). rewrite updateSongInfo_run in Hrun.
      destruct (CurrentSong c2) as [rc c3] eqn:HC.
      destruct (infoCommand_frame _ _ _ _ Hw2 HC) as ([[songInfo e] ->] & _).
      by destruct e.
    + destruct (Hcheck _ _ eq_refl) as (_ & -> & -> & Hid & Hp).
      apply played_panics, Progress_panics in Hp as (_ & t & Ht & Hi).
      by exists info, c1, t.
  - intros (info' & c1' & t & HS' & Hid & Ht & Hi).
    rewrite HS in HS'. simplify_eq.
    exists "slice bounds out of range", c1'. rewrite processStateUpdate_run.
    rewrite (checkSongChange_run _ _ _ _ _ _ _ HS). rewrite decide_True by done.
    assert (played (StatusInfo sti) = Panic "slice bounds out of range") as ->; [|done].
    apply played_panics, Progress_panics. split; [done|]. by exists t.
Qed.

End UpdateFacts.

Lemma failed_update_keeps_state_witness :
  let sti := mkSongStatusInfo (<["songid" := "1"]> {["time" := "118:120"]})
               {["file" := "a.mp3"]} in
  let c := mkConn ["songid: 2"; "OK"; "sticker: playcount=3"; "OK";
                   "ACK [2@0] {sticker} no"] 0 [] [] in
  ∃ e c',
    checkSongChange Z Seconds.ParseFloat Seconds.int_of_float64 sti c
      = (Done (sti, Some e), c').
Proof.
  intros sti c.
  destruct (checkSongChange Z Seconds.ParseFloat Seconds.int_of_float64 sti c)
    as [[[sti' [e|]]|msg] c'] eqn:Hrun; [|vm_compute in Hrun; discriminate..].
  exists e, c'.
  by rewrite (proj1 (failed_update_keeps_state Z Seconds.ParseFloat Seconds.int_of_float64
                       sti c eq_refl) sti' e c' Hrun).
Defined.

Lemma processStateUpdate_panics_iff_witness :
  let sti := mkSongStatusInfo (<["songid" := "1"]> {["time" := "118"]})
               {["file" := "a.mp3"]} in
  let c := mkConn ["songid: 2"; "OK"] 0 [] [] in
  ∃ msg c', processStateUpdate Z Seconds.ParseFloat Seconds.int_of_float64 sti c
              = (Panic msg, c').
Proof.
  intros sti c.
  apply (processStateUpdate_panics_iff Z Seconds.ParseFloat Seconds.int_of_float64 sti c
           eq_refl).
  eexists _, _, "118". split; [reflexivity|]. split; [|split]; [|reflexivity..].
  vm_compute. discriminate.
Defined.

(** ** The two tasks never read at once *)

(** X21. From a wait that was on when the caller came, however the two
    tasks are scheduled: a task that is inside a response holds the
    turn of the pipeline, and the two are never inside a response at
    the same time, so that the lines of one reply go to one task. *)
Theorem responses_never_overlap text k body rest s0 s :
  Shared.waiting k body rest s0 → rtc (Shared.step text) s0 s →
  (worker_in_response (Shared.s_worker s) →
     Shared.worker_id (Shared.s_worker s) = Some (Shared.s_resp s)) ∧
  (caller_in_response (Shared.s_caller s) →
     Shared.caller_id (Shared.s_caller s) = Some (Shared.s_resp s)) ∧
  ¬ (worker_in_response (Shared.s_worker s) ∧ caller_in_response (Shared.s_caller s)).
Proof.
  intros Hwait Hrun.
  destruct (inv_rtc text k rest s0 s (inv_init _ _ _ _ Hwait) Hrun)
    as (_ & _ & _ & _ & Hworker & Hcaller & Hids).
  assert (worker_in_response (Shared.s_worker s) →
          Shared.worker_id (Shared.s_worker s) = Some (Shared.s_resp s)) as H1.
  { unfold Shared.worker_inv in Hworker. destruct (Shared.s_worker s); cbn; try done;
      intros _; by destruct Hworker as [-> _]. }
  assert (caller_in_response (Shared.s_caller s) →
          Shared.caller_id (Shared.s_caller s) = Some (Shared.s_resp s)) as H2.
  { unfold Shared.caller_inv in Hcaller. destruct (Shared.s_caller s); cbn; try done;
      intros _; by destruct Hcaller as [-> _]. }
  split; [done|]. split; [done|]. intros [Hw Hc].
  by apply (Hids _ _ (H1 Hw) (H2 Hc)).
Qed.

Lemma responses_never_overlap_witness :
  let c := mkConn ["changed: player"; "OK"; "volume: 40"; "OK"] 1 [] [EvCmd 0 "idle"] in
  let s0 := Shared.mkSys c 0 (Shared.WIssued 0) Shared.CStart in
  let s := Shared.mkSys (log c [EvStartResponse 0]) 0 (Shared.WReading 0 ∅)
             Shared.CStart in
  Shared.worker_id (Shared.s_worker s) = Some (Shared.s_resp s) ∧
  ¬ (worker_in_response (Shared.s_worker s) ∧ caller_in_response (Shared.s_caller s)).
Proof.
  intros c s0 s.
  destruct (responses_never_overlap "status" 0 ["changed: player"] ["volume: 40"; "OK"] s0 s)
    as (H1 & _ & H3).
  - unfold Shared.waiting. cbn. split; [by left|]. split; [done|]. split; [lia|].
    split; [done|]. split; [|done]. repeat constructor; [done|vm_compute; discriminate].
  - eapply rtc_l; [apply Shared.w_start|apply rtc_refl].
  - split; [by apply H1|exact H3].
Defined.

(** ** The main loop of the tracker *)

Section LoopFacts.

Variable float64 : Type.
Variable ParseFloat : string → float64 * option error.
Variable int_of_float64 : float64 → Z.

Local Abbreviation RecordPlayCounts_turn' :=
  (RecordPlayCounts_turn float64 ParseFloat int_of_float64).
Local Abbreviation RecordPlayCounts_loop' :=
  (RecordPlayCounts_loop float64 ParseFloat int_of_float64).
Local Abbreviation RecordPlayCounts' :=
  (RecordPlayCounts float64 ParseFloat int_of_float64).

(** Polls are ignored only while the status held says the player is not
    playing. *)
Local Abbreviation poll_gate :=
  (λ tr : tracker,
     ignorePoll tr = true → info_get (StatusInfo (si tr)) "state" ≠ "play").

Lemma RecordPlayCounts_turn_gate t tr c tr' c' :
  poll_gate tr → RecordPlayCounts_turn' t tr c = (Done tr', c') → poll_gate tr'.
Proof.
  cbn beta. intros Hg. unfold RecordPlayCounts_turn. destruct t.
  - destruct (ignorePoll tr) eqn:Hi; cbn [negb].
    + intros [= <- <-]. by rewrite Hi.
    + unfold bind, ret. destruct (processStateUpdate _ _ _ _ c) as [[r|msg] c1]; [|done].
      unfold panic_on. destruct r.2; [done|]. unfold ret. intros [= <- <-]. by cbn.
  - unfold bind, ret. destruct (processStateUpdate _ _ _ _ c) as [[r|msg] c1]; [|done].
    unfold panic_on. destruct r.2; [done|]. unfold ret. intros [= <- <-].
    cbn [ignorePoll si]. by intros ?%bool_decide_eq_true.
Qed.

Lemma RecordPlayCounts_loop_gate ticks : ∀ tr c tr' c',
  poll_gate tr → RecordPlayCounts_loop' ticks tr c = (Done tr', c') → poll_gate tr'.
Proof.
  cbn beta. induction ticks as [|t ticks IH]; intros tr c tr' c' Hg.
  - by intros [= <- <-].
  - cbn [RecordPlayCounts_loop]. unfold bind at 1.
    destruct (RecordPlayCounts_turn' t tr c) as [[tr1|msg] c1] eqn:H1; [|done].
    apply IH. by eapply RecordPlayCounts_turn_gate.
Qed.

(** X22. The loop of [RecordPlayCounts], along any values taken from
    its two channels. Polls are ignored only while the status the
    tracker holds says that the player is not playing; and while they
    are ignored, the ticks of the poll channel send nothing and change
    nothing: only a value from the idle channel ends it. *)
Theorem RecordPlayCounts_poll_gate :
  (∀ ticks c tr c',
     RecordPlayCounts' ticks c = (Done tr, c') →
     ignorePoll tr = true → info_get (StatusInfo (si tr)) "state" ≠ "play") ∧
  (∀ n tr c,
     ignorePoll tr = true →
     RecordPlayCounts_loop' (replicate n FromPollCh) tr c = (Done tr, c)).
Proof.
  split.
  - intros ticks c tr c'. unfold RecordPlayCounts, bind at 1 2.
    destruct (Status c) as [[r|msg] c1]; [|done].
    unfold panic_on at 1. destruct r as [statusInfo [e|]]; [done|].
    cbn [fst snd]. unfold ret at 1, bind at 1 2.
    destruct (CurrentSong c1) as [[r|msg] c2]; [|done].
    unfold panic_on at 1. destruct r as [songInfo [e|]]; [done|].
    cbn [fst snd]. unfold ret at 1. intros Hrun.
    refine (RecordPlayCounts_loop_gate _ _ _ _ _ _ Hrun). cbn [ignorePoll si StatusInfo].
    by intros ?%bool_decide_eq_true.
  - intros n tr c Hi. induction n as [|n IH]; [done|].
    cbn [replicate RecordPlayCounts_loop RecordPlayCounts_turn]. rewrite Hi.
    cbn [negb]. unfold bind at 1, ret at 1. exact IH.
Qed.

End LoopFacts.

Lemma RecordPlayCounts_poll_gate_witness :
  let c := mkConn ["state: play"; "songid: 1"; "OK"; "file: a.mp3"; "OK";
                   "state: pause"; "songid: 1"; "OK"; "file: a.mp3"; "OK"] 0 [] [] in
  let run := RecordPlayCounts Z Seconds.ParseFloat Seconds.int_of_float64
               [FromIdleCh; FromPollCh; FromPollCh] c in
  ∃ tr c', run = (Done tr, c') ∧ ignorePoll tr = true ∧
           info_get (StatusInfo (si tr)) "state" ≠ "play" ∧
           commands (trace c') =
             ["noidle"; "status"; "noidle"; "currentsong";
              "noidle"; "status"; "noidle"; "currentsong"].
Proof.
  intros c run.
  destruct run as [[tr|msg] c'] eqn:Hrun; [|vm_compute in Hrun; discriminate].
  exists tr, c'. split; [done|].
  assert (ignorePoll tr = true) as Hi by (vm_compute in Hrun; by simplify_eq).
  split; [done|]. split.
  - exact (proj1 (RecordPlayCounts_poll_gate Z Seconds.ParseFloat Seconds.int_of_float64)
             _ c tr c' Hrun Hi).
  - vm_compute in Hrun. by simplify_eq.
Defined.

(** ** Closing a subscription *)

(** X23. [idleSubscription.Close] works once. On a subscription whose
    channel is open it closes the channel and makes the subscription
    inactive, after which no round of dispatch touches it. A second
    [Close] panics, and so does a [Close] of a subscription that a round
    of dispatch has served, since the round has closed its channel. *)
Theorem idleSubscription_Close_once sub :
  (closed (ch sub) = false →
     let sub' := mkSub (mkChan (delivered (ch sub)) true) false (subsystems sub) in
     idleSubscription_Close sub = (Done tt, sub') ∧
     (∀ subsystem subs, In sub' subs → In sub' (dispatch subsystem subs).2) ∧
     idleSubscription_Close sub' = (Panic "close of closed channel", sub')) ∧
  (∀ subsystem,
     (notify subsystem sub).2 ≠ sub →
     idleSubscription_Close (notify subsystem sub).2 =
       (Panic "close of closed channel", (notify subsystem sub).2)).
Proof.
  split.
  - intros Ho sub'. split; [|split].
    + unfold idleSubscription_Close, bind, on_ch, chan_close. by rewrite Ho.
    + intros subsystem subs. induction subs as [|x subs IH]; [done|].
      cbn [dispatch]. intros [->|Hin].
      * rewrite notify_inactive by done.
        destruct (dispatch subsystem subs). by left.
      * destruct (notify subsystem x) as [[[]|msg] x'].
        -- destruct (dispatch subsystem subs). right. by apply IH.
        -- by right.
    + done.
  - intros subsystem Hne.
    destruct (notify_delivers subsystem sub) as [[Heq|(_ & _ & _ & ->)] _]; done.
Qed.

Lemma idleSubscription_Close_once_witness :
  let sub := mkSub (mkChan [] false) true ["player"] in
  let sub' := mkSub (mkChan [] true) false ["player"] in
  idleSubscription_Close sub = (Done tt, sub') ∧
  idleSubscription_Close (notify "player" sub).2 =
    (Panic "close of closed channel", (notify "player" sub).2).
Proof.
  intros sub sub'. split.
  - exact (proj1 (proj1 (idleSubscription_Close_once sub) eq_refl)).
  - apply (proj2 (idleSubscription_Close_once sub) "player"). vm_compute. discriminate.
Defined.

(** ** The caller gets through *)

Lemma fillInfoUntilOK_info_lines body : ∀ (info : gmap string string) c rest,
  Forall Shared.info_line body →
  inbox c = body ++ "OK" :: rest →
  ∃ info' c', fillInfoUntilOK info c = (Done (info', None), c') ∧
              inbox c' = rest ∧ nextId c' = nextId c ∧ wfail c' = wfail c.
Proof.
  induction body as [|line body IH]; intros info c rest Hb Hc.
  - rewrite (fillInfoUntilOK_OK _ _ rest) by done. by eexists _, _.
  - apply Forall_cons in Hb as [[Hline Hsep] Hb].
    rewrite (fillInfoUntilOK_line _ _ line (body ++ "OK" :: rest)) by done. cbn zeta.
    destruct (AddInfo_cases info line) as [[Hi _]|(k & v & _ & _ & ->)]; [done|].
    destruct (IH (<[k := v]> info)
                (mkConn (body ++ "OK" :: rest) (nextId c) (wfail c) (trace c ++ [EvRead line]))
                rest Hb eq_refl) as (info' & c' & -> & ? & ? & ?).
    by eexists _, _.
Qed.

(** X24. A caller that comes while the wait is on is not held up for
    good. From a wait that is the last command sent, on a connection
    whose writes go through and on which the reply to the wait has
    come, the two tasks can go on until the caller is inside the
    response of its own command, with the turn of the pipeline, and
    with exactly the lines that follow the reply to the wait still to
    read. *)
Theorem Cmd_gets_through text k body rest s0 :
  Shared.waiting k body rest s0 →
  nextId (Shared.s_conn s0) = S k →
  wfail (Shared.s_conn s0) = [] →
  ∃ s, rtc (Shared.step text) s0 s ∧
       Shared.s_caller s = Shared.CReading (S (S k)) [] ∧
       Shared.s_resp s = S (S k) ∧
       inbox (Shared.s_conn s) = rest ∧
       commands (trace (Shared.s_conn s)) =
         commands (trace (Shared.s_conn s0)) ++ ["noidle"; text].
Proof.
  destruct s0 as [c r w cl]. unfold Shared.waiting. cbn [Shared.s_conn Shared.s_resp
    Shared.s_worker Shared.s_caller].
  intros (Hw & -> & _ & Hin & Hbody & ->) Hn Hwf.
  (* the worker starts the response of the wait, if it has not yet *)
  assert (∃ c1, rtc (Shared.step text) (Shared.mkSys c k w Shared.CStart)
                  (Shared.mkSys c1 k (Shared.WReading k ∅) Shared.CStart) ∧
                inbox c1 = inbox c ∧ nextId c1 = nextId c ∧ wfail c1 = wfail c ∧
                commands (trace c1) = commands (trace c)) as (c1 & Hrun1 & Hin1 & Hn1 & Hw1 & Hc1).
  { destruct Hw as [->| ->].
    - exists (log c [EvStartResponse k]). split; [|split; [done|split; [done|split; [done|]]]].
      + eapply rtc_l; [apply Shared.w_start|apply rtc_refl].
      + unfold log. cbn [trace]. rewrite commands_app. cbn [commands]. by rewrite app_nil_r.
    - exists c. by split; [apply rtc_refl|]. }
  (* it reads the reply to the wait *)
  destruct (fillInfoUntilOK_info_lines body ∅ c1 rest Hbody) as (info & c2 & Hfill & Hin2 & Hn2 & Hw2).
  { rewrite Hin1, Hin. unfold Shared.idle_reply. by rewrite <- app_assoc. }
  pose proof (worker_reads_as_fillInfoUntilOK text _ c1 ∅ k k Shared.CStart info None c2
                eq_refl Hfill) as Hrun2.
  destruct (fillInfoUntilOK_frame _ _ _ _ _ eq_refl Hfill) as (_ & _ & _ & Hc2).
  (* and ends the response *)
  set (c3 := log c2 [EvEndResponse k]).
  assert (rtc (Shared.step text) (Shared.mkSys c2 k (Shared.WFilled k info None) Shared.CStart)
            (Shared.mkSys c3 (S k) Shared.WDispatched Shared.CStart)) as Hrun3.
  { eapply rtc_l; [apply (Shared.w_end text c2 k Shared.CStart k info None)|apply rtc_refl]. }
  (* the caller runs Cmd and starts the response of its command *)
  assert (wfail c3 = []) as Hw3 by (unfold c3, log; cbn [wfail]; congruence).
  assert (nextId c3 = S k) as Hn3 by (unfold c3, log; cbn [nextId]; congruence).
  destruct (caller_runs_Cmd text c3 Shared.WDispatched Hw3) as [_ Hrun4].
  rewrite Hn3 in Hrun4.
  exists (Shared.mkSys (log (after_Cmd text c3) [EvStartResponse (S (S k))]) (S (S k))
            Shared.WDispatched (Shared.CReading (S (S k)) [])).
  split.
  - etrans; [exact Hrun1|]. etrans; [exact Hrun2|]. etrans; [exact Hrun3|].
    etrans; [exact Hrun4|]. eapply rtc_l; [apply Shared.c_start|apply rtc_refl].
  - cbn [Shared.s_caller Shared.s_resp Shared.s_conn]. split; [done|]. split; [done|].
    unfold log, after_Cmd, c3, log. cbn [inbox trace]. split; [done|].
    rewrite !commands_app, Hc2, Hc1. cbn [commands]. by rewrite !app_nil_r.
Qed.

Lemma Cmd_gets_through_witness :
  let c := mkConn ["changed: player"; "OK"; "volume: 40"; "OK"] 1 [] [EvCmd 0 "idle"] in
  let s0 := Shared.mkSys c 0 (Shared.WIssued 0) Shared.CStart in
  ∃ s, rtc (Shared.step "status") s0 s ∧
       Shared.s_caller s = Shared.CReading 2 [] ∧
       Shared.s_resp s = 2%nat ∧
       inbox (Shared.s_conn s) = ["volume: 40"; "OK"] ∧
       commands (trace (Shared.s_conn s)) =
         commands (trace (Shared.s_conn s0)) ++ ["noidle"; "status"].
Proof.
  intros c s0.
  apply (Cmd_gets_through "status" 0 ["changed: player"] ["volume: 40"; "OK"] s0).
  - unfold Shared.waiting. cbn. split; [by left|]. split; [done|]. split; [lia|].
    split; [done|]. split; [|done]. repeat constructor; [done|vm_compute; discriminate].
  - reflexivity.
  - reflexivity.
Defined.

(** ** The count returned is the count stored *)

(** X25. Whatever the daemon replies, when the writes go through
    [incSongPlayCount] ends in one of two ways. Either it has sent the
    query only, and returns -1 with an error; or it has sent, after the
    query, the command that stores a count, and the count it returns,
    with or without an error of the store, is the very number written
    in that command, an [int]. *)
Theorem incSongPlayCount_returns_what_it_stores songInfo c r c' :
  wfail c = [] → incSongPlayCount songInfo c = (r, c') →
  let file := info_get songInfo "file" in
  let get := stickerGetCommand StickerSongType file playcountSticker in
  let set := stickerSetCommand StickerSongType file playcountSticker in
  (∃ e, r = Done (-1, Some e) ∧
        commands (trace c') = commands (trace c) ++ ["noidle"; get]) ∨
  (∃ n err, r = Done (n, err) ∧ GoInt.in_range n ∧
            commands (trace c') =
              commands (trace c) ++ ["noidle"; get; "noidle"; set (Itoa n)]).
Proof.
  intros Hw Hrun file get set. unfold incSongPlayCount, bind at 1 in Hrun.
  destruct (StickerGet _ _ _ c) as [r1 c1] eqn:Hget.
  apply (StickerGet_frame _ _ _ _ _ _ Hw) in Hget as ([[v err] ->] & Hw1 & Hcmd1).
  destruct err as [e|].
  { unfold ret in Hrun. simplify_eq. left. by exists e. }
  destruct (Atoi _) as [V [e|]].
  { unfold ret in Hrun. simplify_eq. left. by exists e. }
  unfold bind, ret in Hrun.
  destruct (StickerSet _ _ _ _ c1) as [r2 c2] eqn:Hset.
  apply (StickerSet_frame _ _ _ _ _ _ _ Hw1) in Hset as ([err ->] & Hw2 & Hcmd2).
  simplify_eq. right. exists (GoInt.int_add V 1), err. split; [done|].
  split; [apply int_wrap_range|]. by rewrite Hcmd2, Hcmd1, <- app_assoc.
Qed.

Lemma incSongPlayCount_returns_what_it_stores_witness :
  let c := mkConn ["sticker: playcount=41"; "OK"; "ACK [2@0] {sticker} no"] 0 [] [] in
  (∃ e, (incSongPlayCount {["file" := "a.mp3"]} c).1 = Done (-1, Some e) ∧
        commands (trace (incSongPlayCount {["file" := "a.mp3"]} c).2) =
          commands (trace c) ++
          ["noidle";
           stickerGetCommand StickerSongType (info_get {["file" := "a.mp3"]} "file")
             playcountSticker]) ∨
  (∃ n err, (incSongPlayCount {["file" := "a.mp3"]} c).1 = Done (n, err) ∧
            GoInt.in_range n ∧
            commands (trace (incSongPlayCount {["file" := "a.mp3"]} c).2) =
              commands (trace c) ++
              ["noidle";
               stickerGetCommand StickerSongType (info_get {["file" := "a.mp3"]} "file")
                 playcountSticker;
               "noidle";
               stickerSetCommand StickerSongType (info_get {["file" := "a.mp3"]} "file")
                 playcountSticker (Itoa n)]).
Proof.
  intros c.
  apply (incSongPlayCount_returns_what_it_stores {["file" := "a.mp3"]} c
           (incSongPlayCount {["file" := "a.mp3"]} c).1
           (incSongPlayCount {["file" := "a.mp3"]} c).2).
  - reflexivity.
  - apply surjective_pairing.
Defined.
